(** * civic-report: issue lifecycle, upvotes and analytics

    A shallow embedding of the server of the civic-report application:
    the table declarations of [shared/schema.ts], the [DatabaseStorage]
    class of [server/storage.ts], the Express routes of [server/routes.ts]
    and the register route of [server/auth.ts].

    The PostgreSQL database is an explicit [Store] value threaded through
    a state-and-exception monad: a statement that violates a declared
    constraint throws, and what earlier statements of the same request
    wrote stays written (the code opens no transaction).  A column value is
    modelled by its type, a text as a string; what the database refuses
    inside a text value (a NUL character) is outside the model. *)

From Stdlib Require Import String List Bool Arith PeanoNat Lia.
From Stdlib Require Import Permutation Sorted.
Import ListNotations.
Local Open Scope string_scope.
Local Open Scope nat_scope.

(** ** Schema ([shared/schema.ts]) *)

(** Primary keys are [varchar] columns filled by [gen_random_uuid()].  The
    code only ever compares them for equality, so a key is a number and the
    generator is the counter [nextId] of the store. *)
Definition id := nat.

(** [timestamp] columns, and [new Date()]. *)
Definition timestamp := nat.

(** [issues.status]: a [text] column; the code writes three literals. *)
Inductive Status : Type :=
| NotAssigned   (* "not-assigned", the column default *)
| Assigned      (* "assigned" *)
| Resolved.     (* "resolved" *)

Definition Status_eqb (a b : Status) : bool :=
  match a, b with
  | NotAssigned, NotAssigned | Assigned, Assigned | Resolved, Resolved => true
  | _, _ => false
  end.

Record User : Type := mkUser {
  user_id : id;
  user_email : string;          (* notNull, unique *)
  user_password : string;       (* notNull *)
  user_name : string;           (* notNull *)
  user_role : string;           (* notNull, default "citizen" *)
  user_createdAt : timestamp
}.

Record Category : Type := mkCategory {
  category_id : id;
  category_name : string        (* notNull, unique *)
}.

Record Issue : Type := mkIssue {
  issue_id : id;
  issue_title : string;
  issue_description : string;
  issue_state : string;
  issue_city : string;
  issue_reporterName : string;
  issue_reporterPhone : string;
  issue_categoryId : option id;           (* references categories.id *)
  issue_location : string;
  issue_priority : string;
  issue_status : Status;
  issue_mediaUrls : list string;          (* jsonb, default [] *)
  issue_userId : id;                      (* references users.id *)
  issue_resolutionNotes : option string;
  issue_resolutionImageUrl : option string;
  issue_resolvedBy : option id;           (* references users.id *)
  issue_resolvedAt : option timestamp;
  issue_createdAt : timestamp
}.

(** The [upvotes] table: a primary key on [id], two foreign keys, and no
    other constraint. *)
Record Upvote : Type := mkUpvote {
  upvote_id : id;
  upvote_userId : id;                     (* references users.id *)
  upvote_issueId : id;                    (* references issues.id *)
  upvote_createdAt : timestamp
}.

Record Assignment : Type := mkAssignment {
  assignment_id : id;
  assignment_issueId : id;                (* references issues.id *)
  assignment_adminId : id;                (* references users.id *)
  assignment_assignedBy : id;             (* references users.id *)
  assignment_assignmentNotes : option string;
  assignment_createdAt : timestamp
}.

(** The database.  A table is the list of its rows in insertion order. *)
Record Store : Type := mkStore {
  users : list User;
  categories : list Category;
  issues : list Issue;
  upvotes : list Upvote;
  assignments : list Assignment;
  nextId : id
}.

Definition empty_store : Store := mkStore [] [] [] [] [] 0.

(** ** Insert and validation types *)

(** [InsertUser] as the register route builds it from the request body. *)
Record InsertUser : Type := mkInsertUser {
  iu_email : string;
  iu_password : string;
  iu_name : string;
  iu_role : option string       (* absent: the column default applies *)
}.

(** [InsertIssue = z.infer<typeof insertIssueSchema>]: the issue columns
    without id, createdAt, status and the four resolution columns. *)
Record InsertIssue : Type := mkInsertIssue {
  ii_title : string;
  ii_description : string;
  ii_state : string;
  ii_city : string;
  ii_reporterName : string;
  ii_reporterPhone : string;
  ii_categoryId : option id;
  ii_location : string;
  ii_priority : string;
  ii_mediaUrls : list string;
  ii_userId : id
}.

Record InsertAssignment : Type := mkInsertAssignment {
  ia_issueId : id;
  ia_adminId : id;
  ia_assignedBy : id;
  ia_assignmentNotes : option string
}.

(** [ResolveIssue = z.infer<typeof resolveIssueSchema>]. *)
Record ResolveIssue : Type := mkResolveIssue {
  ri_resolutionNotes : string;
  ri_resolutionImageUrl : string
}.

(** ** The monad of a request: state that survives an exception *)

Inductive Outcome (A : Type) : Type :=
| Return (a : A)
| Throw.
Arguments Return {A} a.
Arguments Throw {A}.

Definition M (A : Type) : Type := Store -> Store * Outcome A.

Definition ret {A} (a : A) : M A := fun st => (st, Return a).
Definition throw {A} : M A := fun st => (st, Throw).
Definition bind {A B} (m : M A) (k : A -> M B) : M B :=
  fun st =>
    match m st with
    | (st', Return a) => k a st'
    | (st', Throw) => (st', Throw)
    end.
Definition get : M Store := fun st => (st, Return st).

(** [try { body } catch (error) { handler }]. *)
Definition try_catch {A} (body : M A) (handler : M A) : M A :=
  fun st =>
    match body st with
    | (st', Return a) => (st', Return a)
    | (st', Throw) => handler st'
    end.

Notation "x <- m ;; k" := (bind m (fun x => k))
  (at level 61, m at next level, right associativity).
Notation "m ;;; k" := (bind m (fun _ => k))
  (at level 61, right associativity).

(** ** Constraint checks of the store *)

Definition user_ids (st : Store) : list id := map user_id (users st).
Definition issue_ids (st : Store) : list id := map issue_id (issues st).
Definition category_ids (st : Store) : list id := map category_id (categories st).

Definition mem (x : id) (l : list id) : bool := existsb (Nat.eqb x) l.

(** A nullable foreign key: NULL references nothing and is accepted. *)
Definition fk_opt (x : option id) (l : list id) : bool :=
  match x with
  | None => true
  | Some k => mem k l
  end.

(** ** DatabaseStorage ([server/storage.ts]) *)

Definition getUser (st : Store) (uid : id) : option User :=
  find (fun u => user_id u =? uid) (users st).

Definition getUserByEmail (st : Store) (email : string) : option User :=
  find (fun u => String.eqb (user_email u) email) (users st).

Definition default_role : string := "citizen".

Definition createUser (insertUser : InsertUser) (now : timestamp) : M User :=
  fun st =>
    match getUserByEmail st (iu_email insertUser) with
    | Some _ => (st, Throw)                 (* unique(email) *)
    | None =>
        let user := mkUser (nextId st) (iu_email insertUser)
                      (iu_password insertUser) (iu_name insertUser)
                      (match iu_role insertUser with
                       | Some r => r
                       | None => default_role
                       end) now in
        (mkStore (users st ++ [user]) (categories st) (issues st)
                 (upvotes st) (assignments st) (S (nextId st)),
         Return user)
    end.

Definition getAdminUsers (st : Store) : list User :=
  filter (fun u => String.eqb (user_role u) "admin") (users st).

Definition createCategory (name : string) : M Category :=
  fun st =>
    if existsb (fun c => String.eqb (category_name c) name) (categories st)
    then (st, Throw)                        (* unique(name) *)
    else
      let c := mkCategory (nextId st) name in
      (mkStore (users st) (categories st ++ [c]) (issues st)
               (upvotes st) (assignments st) (S (nextId st)),
       Return c).

Definition createIssue (issue : InsertIssue) (now : timestamp) : M Issue :=
  fun st =>
    if fk_opt (ii_categoryId issue) (category_ids st)
       && mem (ii_userId issue) (user_ids st)
    then
      let newIssue :=
        mkIssue (nextId st) (ii_title issue) (ii_description issue)
                (ii_state issue) (ii_city issue) (ii_reporterName issue)
                (ii_reporterPhone issue) (ii_categoryId issue)
                (ii_location issue) (ii_priority issue)
                NotAssigned (ii_mediaUrls issue) (ii_userId issue)
                None None None None now in
      (mkStore (users st) (categories st) (issues st ++ [newIssue])
               (upvotes st) (assignments st) (S (nextId st)),
       Return newIssue)
    else (st, Throw).

Definition set_status (s : Status) (i : Issue) : Issue :=
  mkIssue (issue_id i) (issue_title i) (issue_description i) (issue_state i)
          (issue_city i) (issue_reporterName i) (issue_reporterPhone i)
          (issue_categoryId i) (issue_location i) (issue_priority i)
          s (issue_mediaUrls i) (issue_userId i)
          (issue_resolutionNotes i) (issue_resolutionImageUrl i)
          (issue_resolvedBy i) (issue_resolvedAt i) (issue_createdAt i).

Definition set_resolution (data : ResolveIssue) (resolvedBy : id)
    (now : timestamp) (i : Issue) : Issue :=
  mkIssue (issue_id i) (issue_title i) (issue_description i) (issue_state i)
          (issue_city i) (issue_reporterName i) (issue_reporterPhone i)
          (issue_categoryId i) (issue_location i) (issue_priority i)
          Resolved (issue_mediaUrls i) (issue_userId i)
          (Some (ri_resolutionNotes data)) (Some (ri_resolutionImageUrl data))
          (Some resolvedBy) (Some now) (issue_createdAt i).

(** [UPDATE issues SET ... WHERE id = $1]. *)
Definition update_where (iid : id) (f : Issue -> Issue) (l : list Issue)
  : list Issue :=
  map (fun i => if issue_id i =? iid then f i else i) l.

Definition updateIssueStatus (iid : id) (status : Status) : M unit :=
  fun st =>
    (mkStore (users st) (categories st)
             (update_where iid (set_status status) (issues st))
             (upvotes st) (assignments st) (nextId st),
     Return tt).

Definition resolveIssue (iid : id) (data : ResolveIssue) (resolvedBy : id)
    (now : timestamp) : M unit :=
  fun st =>
    if mem iid (issue_ids st) && negb (mem resolvedBy (user_ids st))
    then (st, Throw)                        (* resolved_by references users *)
    else
      (mkStore (users st) (categories st)
               (update_where iid (set_resolution data resolvedBy now) (issues st))
               (upvotes st) (assignments st) (nextId st),
       Return tt).

(** *** toggleUpvote

    The method awaits three statements in turn: the SELECT of an existing
    row, the DELETE or the INSERT, and the COUNT. *)

Definition upvote_matches (userId issueId : id) (u : Upvote) : bool :=
  (upvote_userId u =? userId) && (upvote_issueId u =? issueId).

Definition upvote_of_issue (issueId : id) (u : Upvote) : bool :=
  upvote_issueId u =? issueId.

(** [select().from(upvotes).where(and(userId, issueId)).limit(1)]. *)
Definition selectUpvote (userId issueId : id) : M (list Upvote) :=
  fun st =>
    (st, Return (firstn 1 (filter (upvote_matches userId issueId) (upvotes st)))).

(** [delete(upvotes).where(and(userId, issueId))]. *)
Definition deleteUpvote (userId issueId : id) : M unit :=
  fun st =>
    (mkStore (users st) (categories st) (issues st)
             (filter (fun u => negb (upvote_matches userId issueId u)) (upvotes st))
             (assignments st) (nextId st),
     Return tt).

(** [insert(upvotes).values({ userId, issueId })]: the two foreign keys are
    checked; nothing compares the new row with the rows already there. *)
Definition insertUpvote (userId issueId : id) (now : timestamp) : M unit :=
  fun st =>
    if mem userId (user_ids st) && mem issueId (issue_ids st)
    then
      (mkStore (users st) (categories st) (issues st)
               (upvotes st ++ [mkUpvote (nextId st) userId issueId now])
               (assignments st) (S (nextId st)),
       Return tt)
    else (st, Throw).

(** [select COUNT( * ) from upvotes where issueId]. *)
Definition upvoteCount (st : Store) (issueId : id) : nat :=
  length (filter (upvote_of_issue issueId) (upvotes st)).

Definition countUpvotes (issueId : id) : M nat :=
  fun st => (st, Return (upvoteCount st issueId)).

(** What [toggleUpvote] does once the SELECT has answered. *)
Definition toggleUpvote_write (existingUpvote : list Upvote)
    (userId issueId : id) (now : timestamp) : M (bool * nat) :=
  (if 0 <? length existingUpvote
   then deleteUpvote userId issueId
   else insertUpvote userId issueId now) ;;;
  count <- countUpvotes issueId ;;
  ret (length existingUpvote =? 0, count).

Definition toggleUpvote (userId issueId : id) (now : timestamp)
  : M (bool * nat) :=
  existingUpvote <- selectUpvote userId issueId ;;
  toggleUpvote_write existingUpvote userId issueId now.

(** Two calls of [toggleUpvote] by one user for one issue, served
    concurrently: both SELECTs are answered before either call writes. *)
Definition toggle_interleaved (userId issueId : id) (now1 now2 : timestamp)
  : M ((bool * nat) * (bool * nat)) :=
  existing1 <- selectUpvote userId issueId ;;
  existing2 <- selectUpvote userId issueId ;;
  r1 <- toggleUpvote_write existing1 userId issueId now1 ;;
  r2 <- toggleUpvote_write existing2 userId issueId now2 ;;
  ret (r1, r2).

(** *** assignIssue *)

Definition insertAssignment (assignment : InsertAssignment) (now : timestamp)
  : M Assignment :=
  fun st =>
    if mem (ia_issueId assignment) (issue_ids st)
       && mem (ia_adminId assignment) (user_ids st)
       && mem (ia_assignedBy assignment) (user_ids st)
    then
      let a := mkAssignment (nextId st) (ia_issueId assignment)
                 (ia_adminId assignment) (ia_assignedBy assignment)
                 (ia_assignmentNotes assignment) now in
      (mkStore (users st) (categories st) (issues st) (upvotes st)
               (assignments st ++ [a]) (S (nextId st)),
       Return a)
    else (st, Throw).

Definition assignIssue (assignment : InsertAssignment) (now : timestamp)
  : M Assignment :=
  newAssignment <- insertAssignment assignment now ;;
  updateIssueStatus (ia_issueId assignment) Assigned ;;;
  ret newAssignment.

(** *** getAnalytics *)

Record UpvotedIssue : Type := mkUpvotedIssue {
  ui_issue : Issue;
  ui_category : option Category;
  ui_upvoteCount : nat
}.

Record Analytics : Type := mkAnalytics {
  totalIssues : nat;
  notAssigned : nat;
  assigned : nat;
  resolved : nat;
  categoryBreakdown : list (string * nat);
  mostUpvotedIssues : list UpvotedIssue
}.

Definition count_status (st : Store) (s : Status) : nat :=
  length (filter (fun i => Status_eqb (issue_status i) s) (issues st)).

Definition category_of (st : Store) (i : Issue) : option Category :=
  match issue_categoryId i with
  | None => None
  | Some c => find (fun k => category_id k =? c) (categories st)
  end.

Definition in_category (c : Category) (i : Issue) : bool :=
  match issue_categoryId i with
  | None => false
  | Some k => k =? category_id c
  end.

(** The rows of [issues LEFT JOIN categories LEFT JOIN upvotes
    GROUP BY issues.id, categories.id]: one per issue, with the number of
    its upvote rows. *)
Definition grouped (st : Store) : list UpvotedIssue :=
  map (fun i => mkUpvotedIssue i (category_of st i) (upvoteCount st (issue_id i)))
      (issues st).

(** [ORDER BY COUNT(upvotes.id) DESC]: the count is the only sort key.  SQL
    leaves the order of rows with equal keys to the executor; this sort
    keeps them in the order of the scan. *)
Fixpoint insert_desc (x : UpvotedIssue) (l : list UpvotedIssue)
  : list UpvotedIssue :=
  match l with
  | [] => [x]
  | y :: l' =>
      if ui_upvoteCount x <? ui_upvoteCount y
      then y :: insert_desc x l'
      else x :: y :: l'
  end.

Fixpoint order_by_count_desc (l : list UpvotedIssue) : list UpvotedIssue :=
  match l with
  | [] => []
  | x :: l' => insert_desc x (order_by_count_desc l')
  end.

(** The four counts, the breakdown and the most upvoted issues.  The
    breakdown query groups by category and orders by nothing, so the order
    of its rows is the executor's; they are listed here in the order of the
    categories table, one of the answers the query text allows
    ([admissible_categoryBreakdown]). *)
Definition getAnalytics (st : Store) : Analytics :=
  mkAnalytics
    (length (issues st))
    (count_status st NotAssigned)
    (count_status st Assigned)
    (count_status st Resolved)
    (map (fun c => (category_name c,
                    length (filter (in_category c) (issues st))))
         (categories st))
    (firstn 3 (order_by_count_desc (grouped st))).

(** What the query text allows as its answer: the first three rows of any
    arrangement of the grouped rows in which counts never increase. *)
Definition count_ge (a b : UpvotedIssue) : Prop :=
  ui_upvoteCount b <= ui_upvoteCount a.

Definition admissible_mostUpvoted (st : Store) (r : list UpvotedIssue) : Prop :=
  exists p, Permutation p (grouped st) /\ StronglySorted count_ge p
            /\ r = firstn 3 p.

(** ** Requests and responses ([server/routes.ts], [server/auth.ts]) *)

(** The user object without its password, as the auth routes send it. *)
Record SanitizedUser : Type := mkSanitizedUser {
  su_id : id;
  su_email : string;
  su_name : string;
  su_role : string;
  su_createdAt : timestamp
}.

Definition sanitize (u : User) : SanitizedUser :=
  mkSanitizedUser (user_id u) (user_email u) (user_name u) (user_role u)
                  (user_createdAt u).

Inductive Body : Type :=
| Message (message : string)
| UserJson (u : SanitizedUser)
| CategoryJson (c : Category)
| IssueJson (i : Issue)
| UpvoteJson (upvoted : bool) (count : nat)
| AssignmentsJson (l : list Assignment)
| AnalyticsJson (a : Analytics)
| ErrorPage.                    (* Express's default error handler *)

Record Response : Type := mkResponse {
  res_status : nat;
  res_body : Body
}.

Definition json (status : nat) (b : Body) : M Response :=
  ret (mkResponse status b).

(** The body of [POST /api/register]; the fields the code reads or stores. *)
Record RegisterBody : Type := mkRegisterBody {
  reg_email : string;
  reg_password : string;
  reg_name : string;
  reg_role : option string
}.

(** The text fields of the multipart body of [POST /api/issues]; [None] is
    a field the form data does not carry. *)
Record IssueBody : Type := mkIssueBody {
  body_title : option string;
  body_description : option string;
  body_state : option string;
  body_city : option string;
  body_reporterName : option string;
  body_reporterPhone : option string;
  body_categoryId : option id;
  body_location : option string;
  body_priority : option string
}.

Inductive Call : Type :=
| PostRegister (body : RegisterBody) (hashed : string)
    (* [hashed]: what [hashPassword(req.body.password)] returned; it draws
       a random salt *)
| PostCategories (name : option string)
| PostIssues (body : IssueBody) (files : list string)
    (* [files]: the stored file names of the uploads multer accepted *)
| PostUpvote (issueId : id)
| PostResolve (issueId : id) (resolutionNotes : option string)
    (file : option string)
| PostAssign (issueId : id) (adminIds : list id)
    (assignmentNotes : option string)
    (* [adminIds]: a body without an array of admin ids is the empty list;
       the elements of the array are ids *)
| GetAnalytics.

Record Request : Type := mkRequest {
  req_session : option id;      (* the user id passport stored in the session *)
  req_now : timestamp;          (* the clock while the request is served *)
  req_call : Call
}.

(** [passport.deserializeUser]: [req.user] is the row of the session's id,
    in a request the session middleware has let through to the routes
    ([passport_session] below is that middleware). *)
Definition req_user (st : Store) (req : Request) : option User :=
  match req_session req with
  | None => None
  | Some uid => getUser st uid
  end.

Definition requireAuth (user : option User) (next : User -> M Response)
  : M Response :=
  match user with
  | None => json 401 (Message "Authentication required")
  | Some u => next u
  end.

Definition requireRole (roles : list string) (user : User) (next : M Response)
  : M Response :=
  if existsb (String.eqb (user_role user)) roles
  then next
  else json 403 (Message "Insufficient permissions").

(** [upload.array('media', 5)]: a sixth file makes multer pass an error to
    Express, and the handler does not run. *)
Definition upload_array (maxCount : nat) (files : list string)
    (next : M Response) : M Response :=
  if maxCount <? length files then json 500 ErrorPage else next.

Definition upload_url (filename : string) : string := "/uploads/" ++ filename.

(** [insertIssueSchema.parse]: each [notNull] text column must be present;
    [categoryId] may be absent; [mediaUrls] is any array of strings. *)
Definition insertIssueSchema_parse (body : IssueBody) (userId : id)
    (mediaUrls : list string) : M InsertIssue :=
  match body_title body, body_description body, body_state body,
        body_city body, body_reporterName body, body_reporterPhone body,
        body_location body, body_priority body with
  | Some title, Some description, Some state, Some city, Some reporterName,
    Some reporterPhone, Some location, Some priority =>
      ret (mkInsertIssue title description state city reporterName
             reporterPhone (body_categoryId body) location priority
             mediaUrls userId)
  | _, _, _, _, _, _, _, _ => throw
  end.

(** [resolveIssueSchema.parse]: two strings of at least one character. *)
Definition resolveIssueSchema_parse (resolutionNotes : option string)
    (resolutionImageUrl : string) : M ResolveIssue :=
  match resolutionNotes with
  | Some notes =>
      if (1 <=? String.length notes) && (1 <=? String.length resolutionImageUrl)
      then ret (mkResolveIssue notes resolutionImageUrl)
      else throw
  | None => throw
  end.

(** [insertCategorySchema.parse]. *)
Definition insertCategorySchema_parse (name : option string) : M string :=
  match name with
  | Some n => ret n
  | None => throw
  end.

(** [POST /api/register] *)
Definition post_register (body : RegisterBody) (hashed : string)
    (now : timestamp) : M Response :=
  st <- get ;;
  match getUserByEmail st (reg_email body) with
  | Some _ => json 400 (Message "Email already exists")
  | None =>
      user <- createUser (mkInsertUser (reg_email body) hashed (reg_name body)
                            (reg_role body)) now ;;
      json 201 (UserJson (sanitize user))
  end.

(** [POST /api/categories] *)
Definition post_categories (user : option User) (name : option string)
  : M Response :=
  requireAuth user (fun u =>
  requireRole ["superadmin"] u (
    try_catch
      (categoryData <- insertCategorySchema_parse name ;;
       category <- createCategory categoryData ;;
       json 201 (CategoryJson category))
      (json 400 (Message "Invalid category data")))).

(** [POST /api/issues] *)
Definition post_issues (user : option User) (body : IssueBody)
    (files : list string) (now : timestamp) : M Response :=
  requireAuth user (fun u =>
  upload_array 5 files (
    try_catch
      (let mediaUrls := map upload_url files in
       issueData <- insertIssueSchema_parse body (user_id u) mediaUrls ;;
       issue <- createIssue issueData now ;;
       json 201 (IssueJson issue))
      (json 400 (Message "Invalid issue data")))).

(** [POST /api/issues/:id/upvote] *)
Definition post_upvote (user : option User) (issueId : id) (now : timestamp)
  : M Response :=
  requireAuth user (fun u =>
    try_catch
      (result <- toggleUpvote (user_id u) issueId now ;;
       json 200 (UpvoteJson (fst result) (snd result)))
      (json 500 (Message "Failed to toggle upvote"))).

(** [POST /api/issues/:id/resolve] *)
Definition post_resolve (user : option User) (issueId : id)
    (resolutionNotes : option string) (file : option string)
    (now : timestamp) : M Response :=
  requireAuth user (fun u =>
  requireRole ["admin"] u (
    try_catch
      (let resolutionImageUrl :=
         match file with
         | Some filename => upload_url filename
         | None => ""
         end in
       resolveData <- resolveIssueSchema_parse resolutionNotes resolutionImageUrl ;;
       resolveIssue issueId resolveData (user_id u) now ;;;
       json 200 (Message "Issue resolved successfully"))
      (json 400 (Message "Failed to resolve issue")))).

(** The [for (const adminId of adminIds)] loop of the assign route. *)
Fixpoint assign_each (issueId : id) (adminIds : list id) (assignedBy : id)
    (assignmentNotes : option string) (now : timestamp)
    (done : list Assignment) : M (list Assignment) :=
  match adminIds with
  | [] => ret done
  | adminId :: rest =>
      assignment <- assignIssue (mkInsertAssignment issueId adminId assignedBy
                                   assignmentNotes) now ;;
      assign_each issueId rest assignedBy assignmentNotes now
                  (done ++ [assignment])
  end.

(** [POST /api/issues/:id/assign] *)
Definition post_assign (user : option User) (issueId : id)
    (adminIds : list id) (assignmentNotes : option string) (now : timestamp)
  : M Response :=
  requireAuth user (fun u =>
  requireRole ["superadmin"] u (
    try_catch
      (match adminIds with
       | [] => json 400 (Message "At least one admin must be selected")
       | _ :: _ =>
           created <- assign_each issueId adminIds (user_id u)
                                  assignmentNotes now [] ;;
           json 200 (AssignmentsJson created)
       end)
      (json 400 (Message "Failed to assign issue")))).

(** [GET /api/analytics] *)
Definition get_analytics (user : option User) : M Response :=
  requireAuth user (fun u =>
  requireRole ["admin"; "superadmin"] u (
    st <- get ;;
    json 200 (AnalyticsJson (getAnalytics st)))).

(** A draft that carries every required text field. *)
Definition complete (body : IssueBody) : bool :=
  match body_title body, body_description body, body_state body,
        body_city body, body_reporterName body, body_reporterPhone body,
        body_location body, body_priority body with
  | Some _, Some _, Some _, Some _, Some _, Some _, Some _, Some _ => true
  | _, _, _, _, _, _, _, _ => false
  end.

(** The status code of what a request was answered with. *)
Definition res_status_of (r : Outcome Response) : option nat :=
  match r with
  | Return res => Some (res_status res)
  | Throw => None
  end.

(** One request served to its end. *)
Definition handle (req : Request) : M Response :=
  fun st =>
    let user := req_user st req in
    match req_call req with
    | PostRegister body hashed => post_register body hashed (req_now req) st
    | PostCategories name => post_categories user name st
    | PostIssues body files => post_issues user body files (req_now req) st
    | PostUpvote issueId => post_upvote user issueId (req_now req) st
    | PostResolve issueId notes file =>
        post_resolve user issueId notes file (req_now req) st
    | PostAssign issueId adminIds notes =>
        post_assign user issueId adminIds notes (req_now req) st
    | GetAnalytics => get_analytics user st
    end.

(** Requests served one after the other. *)
Definition serve (reqs : list Request) (st : Store) : Store :=
  fold_left (fun s req => fst (handle req s)) reqs st.

Definition reachable (st : Store) : Prop :=
  exists reqs, st = serve reqs empty_store.

(** ** The submit page of the client ([AddIssuePage]) *)

Inductive PageAction : Type :=
| AccessDenied          (* the page renders "Only citizens can submit issues." *)
| Toast (title : string)
| Submit (body : IssueBody) (files : list string).

(** [onSubmit], behind the role test of the page. *)
Definition AddIssuePage_onSubmit (user : option User) (selectedFiles : list string)
    (data : IssueBody) : PageAction :=
  match user with
  | Some u =>
      if String.eqb (user_role u) "citizen"
      then
        if length selectedFiles =? 0
        then Toast "Media required"
        else Submit data selectedFiles
      else AccessDenied
  | None => AccessDenied
  end.

(** ** The issue page of the client ([IssueDetailPage]) *)

(** The page renders the "Resolve Issue" button for an admin while the
    status of the issue is assigned. *)
Definition IssueDetailPage_resolve_button (user : option User) (issue : Issue)
  : bool :=
  match user with
  | Some u =>
      String.eqb (user_role u) "admin"
      && Status_eqb (issue_status issue) Assigned
  | None => false
  end.

(** It renders the "Assign to Admin" button for a superadmin while the
    status of the issue is not-assigned. *)
Definition IssueDetailPage_assign_button (user : option User) (issue : Issue)
  : bool :=
  match user with
  | Some u =>
      String.eqb (user_role u) "superadmin"
      && Status_eqb (issue_status issue) NotAssigned
  | None => false
  end.

(** ** Facts the claims are stated with *)

(** The four resolution columns of an issue. *)
Definition resolution_set (i : Issue) : bool :=
  match issue_resolutionNotes i, issue_resolutionImageUrl i,
        issue_resolvedBy i, issue_resolvedAt i with
  | Some _, Some _, Some _, Some _ => true
  | _, _, _, _ => false
  end.

Definition resolution_null (i : Issue) : bool :=
  match issue_resolutionNotes i, issue_resolutionImageUrl i,
        issue_resolvedBy i, issue_resolvedAt i with
  | None, None, None, None => true
  | _, _, _, _ => false
  end.

Definition assigned_in (asgs : list Assignment) (issueId : id) : bool :=
  existsb (fun a => assignment_issueId a =? issueId) asgs.

Definition has_assignment (st : Store) (issueId : id) : bool :=
  assigned_in (assignments st) issueId.

Definition getIssueRow (st : Store) (issueId : id) : option Issue :=
  find (fun i => issue_id i =? issueId) (issues st).

(** The lock-step of the specification: the status column determined, in
    both directions, by the assignment rows and the resolution columns. *)
Definition lockstep (st : Store) (i : Issue) : Prop :=
  (issue_status i = Resolved <-> resolution_set i = true) /\
  (issue_status i = Assigned <->
     has_assignment st (issue_id i) = true /\ resolution_null i = true) /\
  (issue_status i = NotAssigned <->
     has_assignment st (issue_id i) = false /\ resolution_null i = true).

(** What the status column does tell about an issue. *)
Definition status_sound (asgs : list Assignment) (i : Issue) : Prop :=
  (resolution_null i = true \/ resolution_set i = true) /\
  (issue_status i = NotAssigned <->
     assigned_in asgs (issue_id i) = false /\ resolution_null i = true) /\
  (issue_status i = Resolved -> resolution_set i = true) /\
  (issue_status i = Assigned -> assigned_in asgs (issue_id i) = true).

(** Votes. *)
Definition upvote_key (u : Upvote) : id * id :=
  (upvote_userId u, upvote_issueId u).

Definition has_vote (st : Store) (userId issueId : id) : bool :=
  existsb (upvote_matches userId issueId) (upvotes st).

Definition votes_of_pair (st : Store) (userId issueId : id) : nat :=
  length (filter (upvote_matches userId issueId) (upvotes st)).

(** The users who hold a vote on an issue, each once. *)
Definition voters (st : Store) (issueId : id) : list id :=
  nodup Nat.eq_dec
        (map upvote_userId (filter (upvote_of_issue issueId) (upvotes st))).

(** The data integrity the served requests keep. *)
Record store_ok (st : Store) : Prop := mkStoreOk {
  ok_issue_ids :
    Forall (fun i => issue_id i < nextId st) (issues st);
  ok_assignment_fk :
    Forall (fun a => In (assignment_issueId a) (issue_ids st)) (assignments st);
  ok_upvote_fk :
    Forall (fun v => In (upvote_userId v) (user_ids st)
                     /\ In (upvote_issueId v) (issue_ids st)) (upvotes st);
  ok_upvote_unique :
    NoDup (map upvote_key (upvotes st));
  ok_status :
    Forall (status_sound (assignments st)) (issues st)
}.

Definition preserves {A} (m : M A) : Prop :=
  forall st, store_ok st -> store_ok (fst (m st)).

(** The analytics of the specification: most upvotes first, and among equal
    counts the issue created last first. *)
Definition spec_before (x y : UpvotedIssue) : bool :=
  (ui_upvoteCount y <? ui_upvoteCount x)
  || ((ui_upvoteCount x =? ui_upvoteCount y)
      && (issue_createdAt (ui_issue y) <=? issue_createdAt (ui_issue x))).

Fixpoint spec_insert (x : UpvotedIssue) (l : list UpvotedIssue)
  : list UpvotedIssue :=
  match l with
  | [] => [x]
  | y :: l' => if spec_before x y then x :: y :: l' else y :: spec_insert x l'
  end.

Definition spec_mostUpvoted (st : Store) : list UpvotedIssue :=
  firstn 3 (fold_right spec_insert [] (grouped st)).

(** N calls of [toggleUpvote] for one pair, one per clock reading; the
    answer of the last call is returned. *)
Fixpoint toggle_times (userId issueId : id) (nows : list timestamp)
    (last : Outcome (bool * nat)) (st : Store)
  : Store * Outcome (bool * nat) :=
  match nows with
  | [] => (st, last)
  | now :: rest =>
      let '(st', r) := toggleUpvote userId issueId now st in
      toggle_times userId issueId rest r st'
  end.

(** What the assign route leaves behind once [rows] have been inserted for
    an issue. *)
Definition assigned_store (st : Store) (issueId : id) (rows : list Assignment)
  : Store :=
  mkStore (users st) (categories st)
          (update_where issueId (set_status Assigned) (issues st))
          (upvotes st) (assignments st ++ rows) (nextId st + length rows).

(** The rows the loop inserts for [adminIds], the first with key [first]. *)
Fixpoint assignment_rows (first : id) (issueId : id) (adminIds : list id)
    (assignedBy : id) (notes : option string) (now : timestamp)
  : list Assignment :=
  match adminIds with
  | [] => []
  | adminId :: rest =>
      mkAssignment first issueId adminId assignedBy notes now
      :: assignment_rows (S first) issueId rest assignedBy notes now
  end.

(** What the resolve route leaves behind. *)
Definition resolved_store (st : Store) (issueId : id) (data : ResolveIssue)
    (resolvedBy : id) (now : timestamp) : Store :=
  mkStore (users st) (categories st)
          (update_where issueId (set_resolution data resolvedBy now) (issues st))
          (upvotes st) (assignments st) (nextId st).

(** ** A run of the application

    A citizen, an admin and a superadmin register; the citizen reports a
    pothole. *)

Definition pothole : IssueBody :=
  mkIssueBody (Some "Pothole on Main St") (Some "Deep pothole") (Some "texas")
              (Some "austin") (Some "Cit") (Some "555") None
              (Some "Main St") (Some "high").

Definition citizen : id := 0.
Definition adminA : id := 1.
Definition superadmin : id := 2.
Definition issue1 : id := 3.

Definition registrations : list Request :=
  [ mkRequest None 1
      (PostRegister (mkRegisterBody "cit@example.org" "pw" "Cit" None) "h0");
    mkRequest None 2
      (PostRegister (mkRegisterBody "a@example.org" "pw" "A" (Some "admin")) "h1");
    mkRequest None 3
      (PostRegister (mkRegisterBody "s@example.org" "pw" "S" (Some "superadmin"))
                    "h2") ].

Definition st_registered : Store := serve registrations empty_store.

Definition submit_pothole : Request :=
  mkRequest (Some citizen) 4 (PostIssues pothole ["pothole.png"]).

Definition st_submitted : Store := serve [submit_pothole] st_registered.

Definition assign_to_A : Request :=
  mkRequest (Some superadmin) 5 (PostAssign issue1 [adminA] (Some "urgent")).

Definition st_assigned : Store := serve [assign_to_A] st_submitted.

Definition resolve_by_A : Request :=
  mkRequest (Some adminA) 6
    (PostResolve issue1 (Some "Filled pothole") (Some "proof.png")).

Definition st_resolved : Store := serve [resolve_by_A] st_assigned.

Definition assign_again : Request :=
  mkRequest (Some superadmin) 7 (PostAssign issue1 [adminA] None).

Definition st_reassigned : Store := serve [assign_again] st_resolved.

Definition issue_resolved : Issue :=
  mkIssue issue1 "Pothole on Main St" "Deep pothole" "texas" "austin" "Cit"
          "555" None "Main St" "high" Resolved ["/uploads/pothole.png"]
          citizen (Some "Filled pothole") (Some "/uploads/proof.png")
          (Some adminA) (Some 6) 4.

Definition issue_reassigned : Issue :=
  mkIssue issue1 "Pothole on Main St" "Deep pothole" "texas" "austin" "Cit"
          "555" None "Main St" "high" Assigned ["/uploads/pothole.png"]
          citizen (Some "Filled pothole") (Some "/uploads/proof.png")
          (Some adminA) (Some 6) 4.


Definition upvote_pothole : Request :=
  mkRequest (Some citizen) 8 (PostUpvote issue1).

Definition st_voted : Store := serve [upvote_pothole] st_submitted.

(** The store two concurrent votes of the citizen leave: both SELECTs were
    answered before either vote wrote. *)
Definition st_raced : Store :=
  fst (toggle_interleaved citizen issue1 8 9 st_submitted).

Definition streetlight : IssueBody :=
  mkIssueBody (Some "Streetlight out") (Some "Dark corner") (Some "texas")
              (Some "austin") (Some "Cit") (Some "555") None
              (Some "Elm St") (Some "low").

Definition submit_streetlight : Request :=
  mkRequest (Some citizen) 5 (PostIssues streetlight ["lamp.png"]).

Definition st_two_issues : Store := serve [submit_streetlight] st_submitted.

Definition created_at (rows : list UpvotedIssue) : list timestamp :=
  map (fun r => issue_createdAt (ui_issue r)) rows.

(** ** The read side of DatabaseStorage *)

(** The text the status column holds. *)
Definition status_text (s : Status) : string :=
  match s with
  | NotAssigned => "not-assigned"
  | Assigned => "assigned"
  | Resolved => "resolved"
  end.

(** The [filters] argument of [getIssues].  The two ids are strings in the
    code; [None] stands for an id that is undefined or empty. *)
Record IssueFilters : Type := mkIssueFilters {
  filter_state : option string;
  filter_city : option string;
  filter_status : option string;
  filter_userId : option id;
  filter_assignedToAdmin : option id
}.

Definition no_filters : IssueFilters := mkIssueFilters None None None None None.

(** [if (filters?.state)]: an undefined and an empty string are falsy. *)
Definition truthy (s : option string) : option string :=
  match s with
  | Some "" => None
  | _ => s
  end.

(** An issue as [getIssues] and [getIssue] return it. *)
Record IssueView : Type := mkIssueView {
  iv_issue : Issue;
  iv_category : option Category;
  iv_user : option User;            (* every column of the reporter's row *)
  iv_upvoteCount : nat;
  iv_userUpvoted : option bool;     (* [None]: the key is not set *)
  iv_resolver : option User
}.

(** [LEFT JOIN upvotes ON issues.id = upvotes.issue_id]: the upvote rows of
    the issue, or one row of NULLs when it has none. *)
Definition left_join_upvotes (st : Store) (i : Issue) : list (option Upvote) :=
  match filter (upvote_of_issue (issue_id i)) (upvotes st) with
  | [] => [None]
  | v :: l => map Some (v :: l)
  end.

(** [INNER JOIN assignments ON issues.id = assignments.issue_id]. *)
Definition join_assignments (st : Store) (i : Issue) : list Assignment :=
  filter (fun a => assignment_issueId a =? issue_id i) (assignments st).

(** The joined rows of one issue. *)
Definition joined_rows (st : Store) (filters : IssueFilters) (i : Issue)
  : list (option Upvote * option Assignment) :=
  match filter_assignedToAdmin filters with
  | Some _ =>
      list_prod (left_join_upvotes st i) (map Some (join_assignments st i))
  | None => map (fun u => (u, None)) (left_join_upvotes st i)
  end.

Definition eq_filter (f : option string) (column : string) : bool :=
  match truthy f with
  | Some s => String.eqb column s
  | None => true
  end.

(** The conditions on the columns of the issue. *)
Definition issue_conditions (filters : IssueFilters) (i : Issue) : bool :=
  eq_filter (filter_state filters) (issue_state i)
  && eq_filter (filter_city filters) (issue_city i)
  && eq_filter (filter_status filters) (status_text (issue_status i))
  && match filter_userId filters with
     | Some u => issue_userId i =? u
     | None => true
     end.

(** [WHERE and(...conditions)] on a joined row. *)
Definition where_conditions (filters : IssueFilters) (i : Issue)
    (row : option Upvote * option Assignment) : bool :=
  match filter_assignedToAdmin filters, snd row with
  | Some adminId, Some a => assignment_adminId a =? adminId
  | Some _, None => false
  | None, _ => true
  end
  && issue_conditions filters i.

(** [COUNT(upvotes.id)] over the rows of a group. *)
Definition count_upvote_ids (rows : list (option Upvote * option Assignment))
  : nat :=
  length (filter (fun row => match fst row with
                             | Some _ => true
                             | None => false
                             end) rows).

(** [GROUP BY issues.id, categories.id, users.id]: the group of an issue,
    if the conditions leave it a row. *)
Definition getIssues_group (st : Store) (filters : IssueFilters) (i : Issue)
  : list IssueView :=
  match filter (where_conditions filters i) (joined_rows st filters i) with
  | [] => []
  | row :: rows =>
      [mkIssueView i (category_of st i) (getUser st (issue_userId i))
                   (count_upvote_ids (row :: rows)) None None]
  end.

(** [ORDER BY issues.created_at DESC]; equal timestamps stay in the order
    of the scan. *)
Fixpoint insert_newest (x : IssueView) (l : list IssueView) : list IssueView :=
  match l with
  | [] => [x]
  | y :: l' =>
      if issue_createdAt (iv_issue x) <? issue_createdAt (iv_issue y)
      then y :: insert_newest x l'
      else x :: y :: l'
  end.

Fixpoint order_by_createdAt_desc (l : list IssueView) : list IssueView :=
  match l with
  | [] => []
  | x :: l' => insert_newest x (order_by_createdAt_desc l')
  end.

Definition getIssues (st : Store) (filters : IssueFilters) : list IssueView :=
  order_by_createdAt_desc (flat_map (getIssues_group st filters) (issues st)).

Definition getAssignedIssues (st : Store) (adminId : id) : list IssueView :=
  getIssues st (mkIssueFilters None None (Some "assigned") None (Some adminId)).

(** [getIssue]: the row with the id, its upvote count from the grouped
    subquery, whether the viewer has an upvote row on it, and the row of
    the user who resolved it. *)
Definition getIssue (st : Store) (issueId : id) (userId : option id)
  : option IssueView :=
  match find (fun i => issue_id i =? issueId) (issues st) with
  | None => None
  | Some i =>
      Some (mkIssueView i (category_of st i) (getUser st (issue_userId i))
              (upvoteCount st (issue_id i))
              (Some match userId with
                    | Some u => has_vote st u (issue_id i)
                    | None => false
                    end)
              match issue_resolvedBy i with
              | Some r => getUser st r
              | None => None
              end)
  end.

Definition getCategories (st : Store) : list Category := categories st.

(** ** The read routes *)

Inductive ReadBody : Type :=
| ReadMessage (message : string)
| IssueListJson (l : list IssueView)
| IssueViewJson (v : IssueView)
| UserListJson (l : list User)
| CategoryListJson (l : list Category)
| SessionUserJson (u : SanitizedUser)
| NoBody.

Record ReadResponse : Type := mkReadResponse {
  read_status : nat;
  read_body : ReadBody
}.

(** The query string of [GET /api/issues]. *)
Record IssueQuery : Type := mkIssueQuery {
  query_state : option string;
  query_city : option string;
  query_status : option string;
  query_userId : option id
}.

(** [GET /api/issues]: no middleware. *)
Definition get_issues (st : Store) (query : IssueQuery) : ReadResponse :=
  let filters :=
    mkIssueFilters (truthy (query_state query)) (truthy (query_city query))
                   (truthy (query_status query)) (query_userId query) None in
  mkReadResponse 200 (IssueListJson (getIssues st filters)).

(** [GET /api/issues/:id]: no middleware; the viewer is [req.user?.id]. *)
Definition get_issue (st : Store) (user : option User) (issueId : id)
  : ReadResponse :=
  match getIssue st issueId (option_map user_id user) with
  | None => mkReadResponse 404 (ReadMessage "Issue not found")
  | Some issue => mkReadResponse 200 (IssueViewJson issue)
  end.

(** [requireAuth] and [requireRole] in front of a route that only reads. *)
Definition guarded (roles : option (list string)) (user : option User)
    (next : User -> ReadResponse) : ReadResponse :=
  match user with
  | None => mkReadResponse 401 (ReadMessage "Authentication required")
  | Some u =>
      match roles with
      | Some allowed =>
          if existsb (String.eqb (user_role u)) allowed
          then next u
          else mkReadResponse 403 (ReadMessage "Insufficient permissions")
      | None => next u
      end
  end.

(** [GET /api/admin/issues] *)
Definition get_admin_issues (st : Store) (user : option User) : ReadResponse :=
  guarded (Some ["admin"]) user (fun u =>
    mkReadResponse 200 (IssueListJson (getAssignedIssues st (user_id u)))).

(** [GET /api/admins] *)
Definition get_admins (st : Store) (user : option User) : ReadResponse :=
  guarded (Some ["superadmin"]) user (fun _ =>
    mkReadResponse 200 (UserListJson (getAdminUsers st))).

(** [GET /api/categories]: no middleware. *)
Definition get_categories (st : Store) : ReadResponse :=
  mkReadResponse 200 (CategoryListJson (getCategories st)).

(** [GET /api/user] *)
Definition get_user (user : option User) : ReadResponse :=
  match user with
  | None => mkReadResponse 401 NoBody
  | Some u => mkReadResponse 200 (SessionUserJson (sanitize u))
  end.

(** ** The session middleware ([passport.session()])

    [setupAuth] installs it in front of every route.  For a request whose
    session holds a user id it calls [deserializeUser]; the callback of the
    code answers [done(null, user)] with [user] undefined when no row has
    the id, which passport reports as an error: Express answers the
    request itself and no route runs. *)
Definition deserializeUser (st : Store) (uid : id) : Outcome User :=
  match getUser st uid with
  | Some user => Return user
  | None => Throw
  end.

Definition passport_session (req : Request) (next : M Response) : M Response :=
  fun st =>
    match req_session req with
    | None => next st
    | Some uid =>
        match deserializeUser st uid with
        | Return _ => next st
        | Throw => json 500 ErrorPage st
        end
    end.

(** A request through the middleware and the routes. *)
Definition app (req : Request) : M Response :=
  passport_session req (handle req).

(** ** Votes served concurrently

    [toggleUpvote] awaits its SELECT before it writes, and the server
    serves other requests in between.  A vote in flight has had its SELECT
    answered and has not written yet. *)
Record InFlight : Type := mkInFlight {
  flight_user : id;
  flight_issue : id;
  flight_existing : list Upvote       (* what the SELECT answered *)
}.

(** The stores the server can be in, with the votes in flight: a request
    is served to its end, or a vote of an authenticated user has its SELECT
    answered, or a vote in flight writes. *)
Inductive running : Store -> list InFlight -> Prop :=
| running_start : running empty_store []
| running_request (req : Request) (st : Store) (fl : list InFlight) :
    running st fl -> running (fst (handle req st)) fl
| running_select (uid issueId : id) (u : User) (existing : list Upvote)
    (st : Store) (fl : list InFlight) :
    running st fl ->
    getUser st uid = Some u ->
    snd (selectUpvote uid issueId st) = Return existing ->
    running st (mkInFlight uid issueId existing :: fl)
| running_write (v : InFlight) (now : timestamp) (st : Store)
    (before after : list InFlight) :
    running st (before ++ v :: after)%list ->
    running (fst (toggleUpvote_write (flight_existing v) (flight_user v)
                                     (flight_issue v) now st))
            (before ++ after)%list.

(** Every upvote row names a user: the foreign key of [upvotes.user_id]. *)
Definition votes_name_users (st : Store) : Prop :=
  Forall (fun v => In (upvote_userId v) (user_ids st)) (upvotes st).

(** A single user who reports an issue and votes on it twice at once. *)
Definition st_alone : Store :=
  serve [mkRequest None 1
           (PostRegister (mkRegisterBody "cit@example.org" "pw" "Cit" None) "h0");
         mkRequest (Some 0) 2 (PostIssues pothole [])]
        empty_store.

Definition st_alone_raced : Store :=
  fst (toggle_interleaved 0 1 3 4 st_alone).

(** ** Integrity of keys and references *)

(** The primary keys of a table: pairwise distinct, and below the next key
    the generator hands out. *)
Definition table_ok (next : id) (ids : list id) : Prop :=
  NoDup ids /\ Forall (fun k => k < next) ids.

Record keys_ok (st : Store) : Prop := mkKeysOk {
  keys_users : table_ok (nextId st) (user_ids st);
  keys_categories : table_ok (nextId st) (category_ids st);
  keys_issues : table_ok (nextId st) (issue_ids st);
  keys_upvotes : table_ok (nextId st) (map upvote_id (upvotes st));
  keys_assignments : table_ok (nextId st) (map assignment_id (assignments st));
  keys_emails : NoDup (map user_email (users st));
  keys_names : NoDup (map category_name (categories st));
  keys_issue_refs :
    Forall (fun i => In (issue_userId i) (user_ids st)
                     /\ fk_opt (issue_categoryId i) (category_ids st) = true
                     /\ fk_opt (issue_resolvedBy i) (user_ids st) = true)
           (issues st);
  keys_assignment_refs :
    Forall (fun a => In (assignment_adminId a) (user_ids st)
                     /\ In (assignment_assignedBy a) (user_ids st))
           (assignments st)
}.

(** Who wrote what: a user row with the id and the role. *)
Definition user_with_role (st : Store) (uid : id) (role : string) : Prop :=
  exists u, In u (users st) /\ user_id u = uid /\ user_role u = role.

Record roles_ok (st : Store) : Prop := mkRolesOk {
  roles_resolvers :
    Forall (fun i => forall r, issue_resolvedBy i = Some r ->
                               user_with_role st r "admin") (issues st);
  roles_assigners :
    Forall (fun a => user_with_role st (assignment_assignedBy a) "superadmin")
           (assignments st)
}.

(** ** How a store may change *)

(** What the reporter wrote, and when. *)
Record IssueContent : Type := mkIssueContent {
  content_title : string;
  content_description : string;
  content_state : string;
  content_city : string;
  content_reporterName : string;
  content_reporterPhone : string;
  content_categoryId : option id;
  content_location : string;
  content_priority : string;
  content_mediaUrls : list string;
  content_userId : id;
  content_createdAt : timestamp
}.

Definition issue_content (i : Issue) : IssueContent :=
  mkIssueContent (issue_title i) (issue_description i) (issue_state i)
                 (issue_city i) (issue_reporterName i) (issue_reporterPhone i)
                 (issue_categoryId i) (issue_location i) (issue_priority i)
                 (issue_mediaUrls i) (issue_userId i) (issue_createdAt i).

(** A later version of an issue row. *)
Definition issue_evolves (i i' : Issue) : Prop :=
  issue_id i' = issue_id i /\
  issue_content i' = issue_content i /\
  (issue_status i <> NotAssigned -> issue_status i' <> NotAssigned) /\
  (resolution_set i = true -> resolution_set i' = true).

Definition extends {A : Type} (l l' : list A) : Prop :=
  exists more, l' = (l ++ more)%list.

(** A later version of the store: rows are added to users, categories and
    assignments and none is changed or removed; issue rows are added and
    the ones there evolve. *)
Record grows (st st' : Store) : Prop := mkGrows {
  grows_users : extends (users st) (users st');
  grows_categories : extends (categories st) (categories st');
  grows_assignments : extends (assignments st) (assignments st');
  grows_issues :
    exists old more, issues st' = (old ++ more)%list
                     /\ Forall2 issue_evolves (issues st) old;
  grows_nextId : nextId st <= nextId st'
}.

(** A computation whose every run relates the store before to the store
    after. *)
Definition respects (R : Store -> Store -> Prop) {A : Type} (m : M A) : Prop :=
  forall st, R st (fst (m st)).

(** Requests that write nothing when they are refused: all but the assign
    route, whose loop may have written before it fails. *)
Definition is_assign (c : Call) : bool :=
  match c with
  | PostAssign _ _ _ => true
  | _ => false
  end.

Definition is_register (c : Call) : bool :=
  match c with
  | PostRegister _ _ => true
  | _ => false
  end.

Definition accepted (r : Outcome Response) : bool :=
  match r with
  | Return res => res_status res <? 400
  | Throw => false
  end.

(** What the breakdown query allows as its answer: a row per category,
    with its name and the number of issues that carry its id, in any
    order. *)
Definition admissible_categoryBreakdown (st : Store)
    (rows : list (string * nat)) : Prop :=
  Permutation rows
    (map (fun c => (category_name c,
                    length (filter (in_category c) (issues st))))
         (categories st)).

Definition categorised (i : Issue) : bool :=
  match issue_categoryId i with
  | Some _ => true
  | None => false
  end.

(** The assignment rows that name an admin for an issue. *)
Definition admin_rows (st : Store) (adminId issueId : id) : nat :=
  length (filter (fun a => (assignment_issueId a =? issueId)
                           && (assignment_adminId a =? adminId))
                 (assignments st)).

(** The view of an issue with a given count, as [getIssues] builds it. *)
Definition listed (st : Store) (count : nat) (i : Issue) : IssueView :=
  mkIssueView i (category_of st i) (getUser st (issue_userId i)) count
              None None.

Definition newer_first (x y : IssueView) : Prop :=
  issue_createdAt (iv_issue y) <= issue_createdAt (iv_issue x).

(** The four resolution columns of an issue. *)
Definition resolution_of (i : Issue)
  : option string * option string * option id * option timestamp :=
  (issue_resolutionNotes i, issue_resolutionImageUrl i, issue_resolvedBy i,
   issue_resolvedAt i).

Definition no_resolution
  : option string * option string * option id * option timestamp :=
  (None, None, None, None).

(** The caller of a request does not have the role. *)
Definition caller_lacks (st : Store) (req : Request) (role : string) : Prop :=
  forall u, req_user st req = Some u -> user_role u <> role.

(** The resolution columns of the issues of [a] are those of the same
    issues in [b], which may have more issues, unresolved. *)
Definition resolution_kept (a b : Store) : Prop :=
  exists n, map resolution_of (issues b)
            = (map resolution_of (issues a) ++ repeat no_resolution n)%list.


(** A step of a request sent by the user [uid], who has the role. *)
Definition acts_as (uid : id) (role : string) (a b : Store) : Prop :=
  user_with_role a uid role -> roles_ok a ->
  roles_ok b /\ user_with_role b uid role.

(** The row the submit route stores for a complete draft. *)
Definition field (s : option string) : string :=
  match s with
  | Some text => text
  | None => ""
  end.

Definition submitted_issue (st : Store) (body : IssueBody) (userId : id)
    (files : list string) (now : timestamp) : Issue :=
  mkIssue (nextId st) (field (body_title body)) (field (body_description body))
          (field (body_state body)) (field (body_city body))
          (field (body_reporterName body)) (field (body_reporterPhone body))
          (body_categoryId body) (field (body_location body))
          (field (body_priority body)) NotAssigned (map upload_url files)
          userId None None None None now.

(** [eq(assignments.adminId, filters.assignedToAdmin)] on a joined row. *)
Definition names_admin (adminId : id) (a : option Assignment) : bool :=
  match a with
  | Some row => assignment_adminId row =? adminId
  | None => false
  end.


(** ** A run with a category *)

Definition create_roads : Request :=
  mkRequest (Some superadmin) 4 (PostCategories (Some "Roads")).

Definition st_with_category : Store := serve [create_roads] st_registered.

Definition roads : id := 3.

Definition pothole_on_road : IssueBody :=
  mkIssueBody (Some "Pothole on Main St") (Some "Deep pothole") (Some "texas")
              (Some "austin") (Some "Cit") (Some "555") (Some roads)
              (Some "Main St") (Some "high").

Definition st_categorised : Store :=
  serve [mkRequest (Some citizen) 5 (PostIssues pothole_on_road ["p.png"]);
         mkRequest (Some citizen) 6 (PostIssues streetlight [])]
        st_with_category.

Definition create_parks : Request :=
  mkRequest (Some superadmin) 7 (PostCategories (Some "Parks")).

Definition st_two_categories : Store := serve [create_parks] st_categorised.

(** ** Passwords and login ([server/auth.ts]) *)

From Stdlib Require Import Ascii.

Definition hex_digit (n : nat) : Ascii.ascii :=
  match n with
  | 0 => "0" | 1 => "1" | 2 => "2" | 3 => "3" | 4 => "4" | 5 => "5"
  | 6 => "6" | 7 => "7" | 8 => "8" | 9 => "9" | 10 => "a" | 11 => "b"
  | 12 => "c" | 13 => "d" | 14 => "e" | _ => "f"
  end%char.

Definition digit_value (c : Ascii.ascii) : option nat :=
  let n := Ascii.nat_of_ascii c in
  if (48 <=? n) && (n <=? 57) then Some (n - 48)
  else if (97 <=? n) && (n <=? 102) then Some (n - 87)
  else if (65 <=? n) && (n <=? 70) then Some (n - 55)
  else None.

(** [buf.toString("hex")]: two lower-case digits per byte. *)
Fixpoint to_hex (bytes : list Ascii.ascii) : string :=
  match bytes with
  | [] => ""
  | b :: rest =>
      String (hex_digit (Ascii.nat_of_ascii b / 16))
        (String (hex_digit (Ascii.nat_of_ascii b mod 16)) (to_hex rest))
  end.

(** [Buffer.from(text, "hex")]: pairs of digits, up to the first pair that
    is not one. *)
Fixpoint from_hex (text : string) : list Ascii.ascii :=
  match text with
  | String hi (String lo rest) =>
      match digit_value hi, digit_value lo with
      | Some h, Some l => Ascii.ascii_of_nat (16 * h + l) :: from_hex rest
      | _, _ => []
      end
  | _ => []
  end.

(** [text.split(".")]. *)
Fixpoint split_dot (text : string) : list string :=
  match text with
  | EmptyString => [""]
  | String c rest =>
      if Ascii.eqb c "."
      then "" :: split_dot rest
      else match split_dot rest with
           | first :: more => String c first :: more
           | [] => [String c ""]
           end
  end.

Fixpoint bytes_eqb (a b : list Ascii.ascii) : bool :=
  match a, b with
  | [], [] => true
  | x :: a', y :: b' => Ascii.eqb x y && bytes_eqb a' b'
  | _, _ => false
  end.

Section Passwords.

(** [scrypt(password, salt, 64)], the key derivation of Node's crypto. *)
Variable scrypt : string -> string -> list Ascii.ascii.

(** [hashPassword], for the bytes [randomBytes(16)] returned. *)
Definition hashPassword (password : string) (saltBytes : list Ascii.ascii)
  : string :=
  let salt := to_hex saltBytes in
  to_hex (scrypt password salt) ++ "." ++ salt.

(** [comparePasswords].  [timingSafeEqual] throws when the two buffers
    differ in length; without a second part [salt] is undefined and scrypt
    throws. *)
Definition comparePasswords (supplied stored : string) : Outcome bool :=
  match split_dot stored with
  | hashed :: salt :: _ =>
      let hashedBuf := from_hex hashed in
      let suppliedBuf := scrypt supplied salt in
      if length hashedBuf =? length suppliedBuf
      then Return (bytes_eqb hashedBuf suppliedBuf)
      else Throw
  | _ => Throw
  end.

(** The verify function of the local strategy. *)
Definition verify_login (st : Store) (email password : string)
  : Outcome (option User) :=
  match getUserByEmail st email with
  | None => Return None
  | Some user =>
      match comparePasswords password (user_password user) with
      | Return true => Return (Some user)
      | Return false => Return None
      | Throw => Throw
      end
  end.

(** [POST /api/login] behind [passport.authenticate("local")]: the answer,
    and the user id the session then holds.  The strategy reads the email
    and the password from the body; when one of them is missing or empty it
    answers 400 and the verify function is not called.  A verification
    that fails is answered 401. *)
Definition post_login (st : Store) (email password : option string)
  : Outcome (ReadResponse * option id) :=
  match truthy email, truthy password with
  | Some e, Some p =>
      match verify_login st e p with
      | Return (Some user) =>
          Return (mkReadResponse 200 (SessionUserJson (sanitize user)),
                  Some (user_id user))
      | Return None =>
          Return (mkReadResponse 401 (ReadMessage "Unauthorized"), None)
      | Throw => Throw
      end
  | _, _ => Return (mkReadResponse 400 (ReadMessage "Bad Request"), None)
  end.

End Passwords.

(** A key derivation to run the definitions on: not scrypt. *)
Definition toy_kdf (password salt : string) : list Ascii.ascii :=
  firstn 64 (list_ascii_of_string (password ++ salt)
             ++ repeat "000"%char 64).

(** A computation that ended without throwing. *)
Definition returned {A : Type} (o : Outcome A) : bool :=
  match o with
  | Return _ => true
  | Throw => false
  end.

(** ** What the routes let into an issue *)

Definition is_upload (url : string) : Prop :=
  exists filename, url = upload_url filename.

Definition content_ok (st : Store) : Prop :=
  Forall (fun i =>
            Forall is_upload (issue_mediaUrls i) /\
            length (issue_mediaUrls i) <= 5 /\
            (forall notes, issue_resolutionNotes i = Some notes -> notes <> "") /\
            (forall url, issue_resolutionImageUrl i = Some url -> is_upload url))
         (issues st).

(** * Proofs *)

(** ** Lists and keys *)

Lemma mem_In (x : id) (l : list id) : mem x l = true <-> In x l.
Proof.
  unfold mem. rewrite existsb_exists. split.
  - intros [y [Hy Heq]]. apply Nat.eqb_eq in Heq. now subst.
  - intros H. exists x. split; [assumption | apply Nat.eqb_refl].
Qed.

Lemma mem_false (x : id) (l : list id) : mem x l = false <-> ~ In x l.
Proof.
  rewrite <- mem_In. destruct (mem x l); split; congruence.
Qed.

Lemma assigned_in_app (l1 l2 : list Assignment) (k : id) :
  assigned_in (l1 ++ l2) k = assigned_in l1 k || assigned_in l2 k.
Proof. unfold assigned_in. apply existsb_app. Qed.

Lemma assigned_in_false_fk (asgs : list Assignment) (ids : list id) (k : id) :
  Forall (fun a => In (assignment_issueId a) ids) asgs ->
  ~ In k ids ->
  assigned_in asgs k = false.
Proof.
  intros Hfk Hk. unfold assigned_in.
  destruct (existsb _ asgs) eqn:E; [|reflexivity].
  apply existsb_exists in E. destruct E as [a [Ha Heq]].
  apply Nat.eqb_eq in Heq. rewrite Forall_forall in Hfk.
  specialize (Hfk a Ha). rewrite Heq in Hfk. contradiction.
Qed.

Lemma update_where_ids (k : id) (f : Issue -> Issue) (l : list Issue) :
  (forall i, issue_id (f i) = issue_id i) ->
  map issue_id (update_where k f l) = map issue_id l.
Proof.
  intros Hf. unfold update_where. rewrite map_map. apply map_ext.
  intros i. destruct (issue_id i =? k); [apply Hf | reflexivity].
Qed.

Lemma update_where_Forall (P Q : Issue -> Prop) (k : id) (f : Issue -> Issue)
    (l : list Issue) :
  Forall P l ->
  (forall i, P i -> issue_id i = k -> Q (f i)) ->
  (forall i, P i -> issue_id i <> k -> Q i) ->
  Forall Q (update_where k f l).
Proof.
  intros H Hhit Hmiss. unfold update_where. induction H as [|i l Hi _ IH].
  - constructor.
  - simpl. constructor; [|exact IH].
    destruct (issue_id i =? k) eqn:E.
    + apply Nat.eqb_eq in E. now apply Hhit.
    + apply Nat.eqb_neq in E. now apply Hmiss.
Qed.

Lemma filter_nil_firstn (A : Type) (l : list A) :
  firstn 1 l = [] -> l = [].
Proof. destruct l; simpl; [reflexivity | discriminate]. Qed.

Lemma unique_keys_filter (keep : Upvote -> bool) (rows : list Upvote) :
  NoDup (map upvote_key rows) -> NoDup (map upvote_key (filter keep rows)).
Proof.
  intros Huniq. induction rows as [|v rows IH]; simpl in *; [constructor|].
  inversion Huniq as [|? ? Hnot Hrest]; subst.
  destruct (keep v); simpl; [|now apply IH].
  constructor; [|now apply IH].
  intros Hin. apply Hnot. apply in_map_iff in Hin.
  destruct Hin as [w [Hw Hin]]. apply filter_In in Hin.
  apply in_map_iff. exists w. tauto.
Qed.

Lemma matches_key (userId issueId : id) (u : Upvote) :
  upvote_matches userId issueId u = true <-> upvote_key u = (userId, issueId).
Proof.
  unfold upvote_matches, upvote_key. rewrite andb_true_iff, !Nat.eqb_eq.
  split; [intros [-> ->]; reflexivity | intros H; inversion H; auto].
Qed.

Lemma no_match_no_key (userId issueId : id) (l : list Upvote) :
  filter (upvote_matches userId issueId) l = [] ->
  ~ In (userId, issueId) (map upvote_key l).
Proof.
  intros Hnil Hin. apply in_map_iff in Hin. destruct Hin as [u [Hk Hu]].
  assert (In u (filter (upvote_matches userId issueId) l)) as H.
  { apply filter_In. split; [assumption | now apply matches_key]. }
  rewrite Hnil in H. contradiction.
Qed.

Lemma NoDup_snoc (A : Type) (l : list A) (x : A) :
  NoDup l -> ~ In x l -> NoDup (l ++ [x]).
Proof.
  intros Hl Hx. apply NoDup_app.
  - assumption.
  - constructor; [intros [] | constructor].
  - intros y Hy [<-|[]]. contradiction.
Qed.

(** ** The monad *)

Lemma preserves_ret (A : Type) (a : A) : preserves (ret a).
Proof. intros st H. exact H. Qed.

Lemma preserves_throw (A : Type) : preserves (@throw A).
Proof. intros st H. exact H. Qed.

Lemma preserves_get : preserves get.
Proof. intros st H. exact H. Qed.

Lemma preserves_bind (A B : Type) (m : M A) (k : A -> M B) :
  preserves m -> (forall a, preserves (k a)) -> preserves (bind m k).
Proof.
  intros Hm Hk st H. unfold bind. specialize (Hm st H).
  destruct (m st) as [st' [a|]]; simpl in *; [now apply Hk | assumption].
Qed.

Lemma preserves_try_catch (A : Type) (body handler : M A) :
  preserves body -> preserves handler -> preserves (try_catch body handler).
Proof.
  intros Hb Hh st H. unfold try_catch. specialize (Hb st H).
  destruct (body st) as [st' [a|]]; simpl in *; [assumption | now apply Hh].
Qed.

Lemma preserves_json (status : nat) (b : Body) : preserves (json status b).
Proof. apply preserves_ret. Qed.

Lemma preserves_requireAuth (user : option User) (next : User -> M Response) :
  (forall u, preserves (next u)) -> preserves (requireAuth user next).
Proof.
  intros H. destruct user; simpl; [apply H | apply preserves_json].
Qed.

Lemma preserves_requireRole (roles : list string) (u : User) (next : M Response) :
  preserves next -> preserves (requireRole roles u next).
Proof.
  intros H. unfold requireRole.
  destruct (existsb _ roles); [exact H | apply preserves_json].
Qed.

Create HintDb preserve.

#[local] Hint Resolve preserves_ret preserves_throw preserves_get
  preserves_json : preserve.

(** ** The storage operations keep the data integrity *)

Lemma store_ok_empty : store_ok empty_store.
Proof. constructor; simpl; constructor. Qed.

Lemma Forall_lt_S (l : list Issue) (n : nat) :
  Forall (fun i => issue_id i < n) l -> Forall (fun i => issue_id i < S n) l.
Proof. apply Forall_impl. intros; lia. Qed.

Lemma preserves_createUser (insertUser : InsertUser) (now : timestamp) :
  preserves (createUser insertUser now).
Proof.
  intros st [H1 H2 H3 H4 H5]. unfold createUser.
  destruct (getUserByEmail st _); simpl; [now constructor|].
  constructor; simpl; auto using Forall_lt_S.
  unfold user_ids in *. simpl. rewrite map_app.
  eapply Forall_impl; [|exact H3]. simpl. intros v [Hu Hi].
  split; [apply in_or_app; now left | exact Hi].
Qed.

Lemma preserves_createCategory (name : string) : preserves (createCategory name).
Proof.
  intros st [H1 H2 H3 H4 H5]. unfold createCategory.
  destruct (existsb _ (categories st)); simpl; [now constructor|].
  constructor; simpl; auto using Forall_lt_S.
Qed.

Lemma preserves_createIssue (issue : InsertIssue) (now : timestamp) :
  preserves (createIssue issue now).
Proof.
  intros st [H1 H2 H3 H4 H5]. unfold createIssue.
  destruct (fk_opt _ _ && mem _ _); simpl; [|now constructor].
  assert (~ In (nextId st) (issue_ids st)) as Hfresh.
  { unfold issue_ids. intros Hin. apply in_map_iff in Hin.
    destruct Hin as [i [Hid Hin]]. rewrite Forall_forall in H1.
    specialize (H1 i Hin). lia. }
  constructor; simpl.
  - apply Forall_app. split; [now apply Forall_lt_S|].
    constructor; [simpl; lia | constructor].
  - unfold issue_ids in *. simpl. rewrite map_app.
    eapply Forall_impl; [|exact H2]. simpl. intros a Ha.
    apply in_or_app. now left.
  - unfold issue_ids in *. simpl. rewrite map_app.
    eapply Forall_impl; [|exact H3]. simpl. intros v [Hu Hi].
    split; [exact Hu | apply in_or_app; now left].
  - assumption.
  - apply Forall_app. split; [assumption|].
    constructor; [|constructor].
    unfold status_sound, resolution_null, resolution_set. simpl.
    rewrite (assigned_in_false_fk _ _ _ H2 Hfresh).
    repeat split; auto; discriminate.
Qed.

Lemma preserves_resolveIssue (iid : id) (data : ResolveIssue) (resolvedBy : id)
    (now : timestamp) :
  preserves (resolveIssue iid data resolvedBy now).
Proof.
  intros st [H1 H2 H3 H4 H5]. unfold resolveIssue.
  destruct (mem iid _ && negb _); simpl; [now constructor|].
  assert (map issue_id (update_where iid (set_resolution data resolvedBy now)
                          (issues st)) = map issue_id (issues st)) as Hids
    by (apply update_where_ids; reflexivity).
  constructor; simpl; unfold issue_ids in *; simpl; try rewrite Hids; auto.
  - eapply update_where_Forall; [exact H1| |]; simpl; auto.
  - eapply update_where_Forall; [exact H5| |]; simpl; auto.
    intros i _ _. unfold status_sound, resolution_null, resolution_set. simpl.
    repeat split; auto; try discriminate. intros [_ H]. discriminate.
Qed.

Lemma preserves_assignIssue (assignment : InsertAssignment) (now : timestamp) :
  preserves (assignIssue assignment now).
Proof.
  intros st [H1 H2 H3 H4 H5]. unfold assignIssue, bind, insertAssignment.
  destruct (mem (ia_issueId assignment) (issue_ids st)) eqn:Ei; simpl;
    [|now constructor].
  destruct (mem (ia_adminId assignment) _ && mem (ia_assignedBy assignment) _);
    simpl; [|now constructor].
  apply mem_In in Ei.
  assert (map issue_id (update_where (ia_issueId assignment) (set_status Assigned)
                          (issues st)) = map issue_id (issues st)) as Hids
    by (apply update_where_ids; reflexivity).
  constructor; simpl; unfold issue_ids in *; simpl; try rewrite Hids; auto.
  - eapply update_where_Forall; [exact H1| |]; simpl; intros; lia.
  - apply Forall_app. split; [assumption|].
    constructor; [exact Ei | constructor].
  - eapply update_where_Forall; [exact H5| |]; simpl.
    + intros i [Hn [Hna [Hr Ha]]] Hid.
      unfold status_sound, resolution_null, resolution_set in *. simpl.
      rewrite assigned_in_app. simpl. rewrite Hid, Nat.eqb_refl, orb_true_r.
      repeat split; auto; try discriminate. intros [H _]. discriminate.
    + intros i [Hn [Hna [Hr Ha]]] Hid.
      unfold status_sound. rewrite assigned_in_app. simpl.
      assert ((ia_issueId assignment =? issue_id i) = false) as ->
        by (apply Nat.eqb_neq; congruence).
      rewrite !orb_false_r. auto.
Qed.

Lemma preserves_toggleUpvote (userId issueId : id) (now : timestamp) :
  preserves (toggleUpvote userId issueId now).
Proof.
  intros st [H1 H2 H3 H4 H5].
  unfold toggleUpvote, toggleUpvote_write, bind, selectUpvote.
  destruct (firstn 1 (filter (upvote_matches userId issueId) (upvotes st)))
    as [|e l] eqn:Esel; simpl.
  - apply filter_nil_firstn in Esel. unfold insertUpvote.
    destruct (mem userId (user_ids st)) eqn:Eu; simpl; [|now constructor].
    destruct (mem issueId (issue_ids st)) eqn:Ei; simpl; [|now constructor].
    apply mem_In in Eu, Ei.
    constructor; simpl; auto using Forall_lt_S.
    + apply Forall_app. split; [assumption|]. constructor; [|constructor]. auto.
    + rewrite map_app. simpl. apply NoDup_snoc; [assumption|].
      now apply no_match_no_key.
  - constructor; simpl; auto.
    + rewrite Forall_forall in *. intros v Hv. apply filter_In in Hv.
      apply H3. tauto.
    + now apply unique_keys_filter.
Qed.

#[local] Hint Resolve preserves_createUser preserves_createCategory
  preserves_createIssue preserves_resolveIssue preserves_assignIssue
  preserves_toggleUpvote : preserve.

(** ** The routes keep the data integrity *)

Ltac route_preserves :=
  repeat first
    [ solve [auto with preserve]
    | apply preserves_requireAuth; intros
    | apply preserves_requireRole
    | apply preserves_try_catch
    | apply preserves_bind; [|intros] ].

Lemma preserves_assign_each (issueId : id) (adminIds : list id)
    (assignedBy : id) (notes : option string) (now : timestamp)
    (done : list Assignment) :
  preserves (assign_each issueId adminIds assignedBy notes now done).
Proof.
  revert done. induction adminIds as [|adminId rest IH]; intros done; simpl.
  - apply preserves_ret.
  - apply preserves_bind; [apply preserves_assignIssue | intros a; apply IH].
Qed.

Lemma preserves_post_register (body : RegisterBody) (hashed : string)
    (now : timestamp) :
  preserves (post_register body hashed now).
Proof.
  unfold post_register. apply preserves_bind; [apply preserves_get|].
  intros st. destruct (getUserByEmail st (reg_email body)); route_preserves.
Qed.

Lemma preserves_post_categories (user : option User) (name : option string) :
  preserves (post_categories user name).
Proof.
  unfold post_categories, insertCategorySchema_parse.
  route_preserves. destruct name; auto with preserve.
Qed.

Lemma preserves_post_issues (user : option User) (body : IssueBody)
    (files : list string) (now : timestamp) :
  preserves (post_issues user body files now).
Proof.
  unfold post_issues, upload_array. apply preserves_requireAuth. intros u.
  destruct (5 <? length files); [apply preserves_json|].
  route_preserves. unfold insertIssueSchema_parse.
  destruct body as [[?|] [?|] [?|] [?|] [?|] [?|] ? [?|] [?|]]; simpl;
    auto with preserve.
Qed.

Lemma preserves_post_upvote (user : option User) (issueId : id)
    (now : timestamp) :
  preserves (post_upvote user issueId now).
Proof. unfold post_upvote. route_preserves. Qed.

Lemma preserves_post_resolve (user : option User) (issueId : id)
    (notes : option string) (file : option string) (now : timestamp) :
  preserves (post_resolve user issueId notes file now).
Proof.
  unfold post_resolve, resolveIssueSchema_parse. route_preserves.
  destruct notes as [n|]; [|apply preserves_throw].
  destruct (_ && _); auto with preserve.
Qed.

Lemma preserves_post_assign (user : option User) (issueId : id)
    (adminIds : list id) (notes : option string) (now : timestamp) :
  preserves (post_assign user issueId adminIds notes now).
Proof.
  unfold post_assign. apply preserves_requireAuth. intros u.
  apply preserves_requireRole. apply preserves_try_catch; [|apply preserves_json].
  destruct adminIds as [|a rest]; [apply preserves_json|].
  apply preserves_bind; [apply preserves_assign_each | intros; apply preserves_json].
Qed.

Lemma preserves_get_analytics (user : option User) :
  preserves (get_analytics user).
Proof. unfold get_analytics. route_preserves. Qed.

Lemma preserves_handle (req : Request) : preserves (handle req).
Proof.
  intros st H. unfold handle. destruct (req_call req).
  - now apply preserves_post_register.
  - now apply preserves_post_categories.
  - now apply preserves_post_issues.
  - now apply preserves_post_upvote.
  - now apply preserves_post_resolve.
  - now apply preserves_post_assign.
  - now apply preserves_get_analytics.
Qed.

Lemma serve_ok (reqs : list Request) (st : Store) :
  store_ok st -> store_ok (serve reqs st).
Proof.
  revert st. induction reqs as [|req reqs IH]; intros st H; simpl.
  - exact H.
  - apply IH. now apply preserves_handle.
Qed.

Lemma reachable_ok (st : Store) : reachable st -> store_ok st.
Proof.
  intros [reqs ->]. apply serve_ok. apply store_ok_empty.
Qed.

Lemma reachable_serve (reqs : list Request) (st : Store) :
  reachable st -> reachable (serve reqs st).
Proof.
  intros [reqs0 ->]. exists (reqs0 ++ reqs)%list. unfold serve.
  now rewrite fold_left_app.
Qed.

(** ** Status and its source facts *)

Lemma reachable_registered : reachable st_registered.
Proof. exists registrations. reflexivity. Qed.

Lemma reachable_submitted : reachable st_submitted.
Proof. apply reachable_serve, reachable_registered. Qed.

Lemma reachable_assigned : reachable st_assigned.
Proof. apply reachable_serve, reachable_submitted. Qed.

Lemma reachable_resolved : reachable st_resolved.
Proof. apply reachable_serve, reachable_assigned. Qed.

Lemma reachable_reassigned : reachable st_reassigned.
Proof. apply reachable_serve, reachable_resolved. Qed.

(** X27: in every store the served requests can reach, the four resolution
    columns of an issue are null together or set together; its status is
    not-assigned exactly when it has no assignment row and the columns are
    null; status resolved implies the columns are set; status assigned
    implies an assignment row exists. *)
Theorem status_follows_facts (st : Store) (i : Issue) :
  reachable st -> In i (issues st) ->
  (resolution_null i = true \/ resolution_set i = true) /\
  (issue_status i = NotAssigned <->
     has_assignment st (issue_id i) = false /\ resolution_null i = true) /\
  (issue_status i = Resolved -> resolution_set i = true) /\
  (issue_status i = Assigned -> has_assignment st (issue_id i) = true).
Proof.
  intros Hr Hi. apply reachable_ok in Hr. destruct Hr as [_ _ _ _ Hs].
  rewrite Forall_forall in Hs. exact (Hs i Hi).
Qed.

Lemma status_follows_facts_witness :
  reachable st_reassigned /\
  In issue_reassigned (issues st_reassigned) /\
  (resolution_null issue_reassigned = true
   \/ resolution_set issue_reassigned = true) /\
  (issue_status issue_reassigned = NotAssigned <->
     has_assignment st_reassigned (issue_id issue_reassigned) = false
     /\ resolution_null issue_reassigned = true) /\
  (issue_status issue_reassigned = Resolved ->
     resolution_set issue_reassigned = true) /\
  (issue_status issue_reassigned = Assigned ->
     has_assignment st_reassigned (issue_id issue_reassigned) = true).
Proof.
  assert (reachable st_reassigned) as Hr.
  { exists (registrations
            ++ [submit_pothole; assign_to_A; resolve_by_A; assign_again])%list.
    reflexivity. }
  assert (In issue_reassigned (issues st_reassigned)) as Hi.
  { simpl. left. reflexivity. }
  split; [exact Hr|]. split; [exact Hi|].
  exact (status_follows_facts st_reassigned issue_reassigned Hr Hi).
Defined.

(** C1 as the specification words it fails: the issue that was resolved and
    then assigned once more has status assigned while its four resolution
    columns are set.  The page of the client shows the superadmin no Assign
    button for the resolved issue; the assign route serves the request all
    the same. *)
Lemma lockstep_broken_by_reassign :
  option_map issue_status (getIssueRow st_resolved issue1) = Some Resolved /\
  option_map (IssueDetailPage_assign_button (getUser st_resolved superadmin))
             (getIssueRow st_resolved issue1) = Some false /\
  res_status_of (snd (handle assign_again st_resolved)) = Some 200 /\
  st_reassigned = fst (handle assign_again st_resolved) /\
  reachable st_reassigned /\
  In issue_reassigned (issues st_reassigned) /\
  issue_status issue_reassigned = Assigned /\
  resolution_set issue_reassigned = true /\
  ~ lockstep st_reassigned issue_reassigned.
Proof.
  split; [reflexivity|]. split; [reflexivity|]. split; [reflexivity|].
  split; [reflexivity|].
  split; [apply reachable_reassigned|].
  split; [simpl; left; reflexivity|].
  split; [reflexivity|]. split; [reflexivity|].
  intros [[_ H] _]. specialize (H eq_refl). discriminate.
Qed.

(** ** Resolving *)

Lemma getUser_Some (st : Store) (uid : id) (u : User) :
  getUser st uid = Some u ->
  user_id u = uid /\ mem uid (user_ids st) = true.
Proof.
  unfold getUser. intros H. apply find_some in H. destruct H as [Hin Heq].
  apply Nat.eqb_eq in Heq. split; [exact Heq|].
  apply mem_In. unfold user_ids. rewrite <- Heq. now apply in_map.
Qed.

Lemma nonempty_length (s : string) : s <> "" -> (1 <=? String.length s) = true.
Proof. destruct s; [congruence | reflexivity]. Qed.

Lemma upload_url_length (f : string) : (1 <=? String.length (upload_url f)) = true.
Proof. reflexivity. Qed.

(** C2, what the code does: the resolve route never reads the status of
    the issue.  Called by an admin with non-empty notes and a proof file it
    answers 200 and writes status resolved and the four resolution columns
    of this call into the issue, whatever its status was (not-assigned,
    assigned or resolved already); without notes, with empty notes or
    without a file it answers 400 and writes nothing. *)
Theorem resolve_ignores_status (st : Store) (uid : id) (u : User)
    (issueId : id) (notes : option string) (file : option string)
    (now : timestamp) :
  getUser st uid = Some u ->
  user_role u = "admin" ->
  let req := mkRequest (Some uid) now (PostResolve issueId notes file) in
  (forall n f, notes = Some n -> n <> "" -> file = Some f ->
     handle req st =
       (resolved_store st issueId (mkResolveIssue n (upload_url f)) uid now,
        Return (mkResponse 200 (Message "Issue resolved successfully")))) /\
  (notes = None \/ notes = Some "" \/ file = None ->
     handle req st =
       (st, Return (mkResponse 400 (Message "Failed to resolve issue")))).
Proof.
  intros Hu Hrole req. destruct (getUser_Some _ _ _ Hu) as [Hid Hmem].
  unfold handle, req_user. simpl. rewrite Hu.
  unfold post_resolve, requireAuth, requireRole. rewrite Hrole. simpl.
  split.
  - intros n f -> Hn ->. unfold try_catch, bind, resolveIssueSchema_parse.
    rewrite (nonempty_length n Hn), upload_url_length. simpl.
    unfold resolveIssue. rewrite Hid, Hmem. simpl. rewrite andb_false_r.
    reflexivity.
  - intros H. unfold try_catch, bind, resolveIssueSchema_parse.
    destruct H as [-> | [-> | ->]]; simpl; try reflexivity.
    destruct notes as [n|]; [|reflexivity].
    rewrite andb_false_r. reflexivity.
Qed.

Lemma resolve_ignores_status_witness :
  getUser st_resolved adminA = Some (mkUser adminA "a@example.org" "h1" "A" "admin" 2) /\
  option_map issue_status (getIssueRow st_resolved issue1) = Some Resolved /\
  handle (mkRequest (Some adminA) 9
            (PostResolve issue1 (Some "Again") (Some "b.png"))) st_resolved =
    (resolved_store st_resolved issue1
       (mkResolveIssue "Again" (upload_url "b.png")) adminA 9,
     Return (mkResponse 200 (Message "Issue resolved successfully"))).
Proof.
  split; [reflexivity|]. split; [reflexivity|].
  refine (proj1 (resolve_ignores_status st_resolved adminA
                   (mkUser adminA "a@example.org" "h1" "A" "admin" 2)
                   issue1 (Some "Again") (Some "b.png") 9 eq_refl eq_refl)
                "Again" "b.png" eq_refl _ eq_refl).
  discriminate.
Defined.

(** C2 as the specification words it fails: resolving the pothole while it
    is not-assigned succeeds, and a second resolve succeeds again and
    replaces the notes of the first.  The page of the client shows the
    admin no Resolve button in either status; the resolve route serves both
    requests all the same. *)
Lemma resolve_without_assignment_and_twice :
  option_map issue_status (getIssueRow st_submitted issue1) = Some NotAssigned /\
  option_map (IssueDetailPage_resolve_button (getUser st_submitted adminA))
             (getIssueRow st_submitted issue1) = Some false /\
  let first := handle resolve_by_A st_submitted in
  snd first = Return (mkResponse 200 (Message "Issue resolved successfully")) /\
  option_map issue_status (getIssueRow (fst first) issue1) = Some Resolved /\
  option_map (IssueDetailPage_resolve_button (getUser (fst first) adminA))
             (getIssueRow (fst first) issue1) = Some false /\
  let second :=
    handle (mkRequest (Some adminA) 9
              (PostResolve issue1 (Some "Again") (Some "b.png"))) (fst first) in
  snd second = Return (mkResponse 200 (Message "Issue resolved successfully")) /\
  option_map issue_resolutionNotes (getIssueRow (fst first) issue1)
    = Some (Some "Filled pothole") /\
  option_map issue_resolutionNotes (getIssueRow (fst second) issue1)
    = Some (Some "Again").
Proof. repeat split; reflexivity. Qed.

(** ** Assigning *)

Lemma update_where_twice (k : id) (f : Issue -> Issue) (l : list Issue) :
  (forall i, issue_id (f i) = issue_id i) ->
  (forall i, f (f i) = f i) ->
  update_where k f (update_where k f l) = update_where k f l.
Proof.
  intros Hid Hff. unfold update_where. rewrite map_map. apply map_ext.
  intros i. destruct (issue_id i =? k) eqn:E.
  - rewrite Hid, E. apply Hff.
  - rewrite E. reflexivity.
Qed.

Lemma assigned_store_twice (st : Store) (k : id) (r1 r2 : list Assignment) :
  assigned_store (assigned_store st k r1) k r2 = assigned_store st k (r1 ++ r2).
Proof.
  unfold assigned_store. simpl.
  rewrite update_where_twice by reflexivity.
  rewrite <- app_assoc, length_app, Nat.add_assoc. reflexivity.
Qed.

Lemma assigned_store_ids (st : Store) (k : id) (rows : list Assignment) :
  issue_ids (assigned_store st k rows) = issue_ids st.
Proof. unfold issue_ids. simpl. now apply update_where_ids. Qed.

Lemma assignIssue_ok (st : Store) (issueId adminId assignedBy : id)
    (notes : option string) (now : timestamp) :
  mem issueId (issue_ids st) = true ->
  mem adminId (user_ids st) = true ->
  mem assignedBy (user_ids st) = true ->
  assignIssue (mkInsertAssignment issueId adminId assignedBy notes) now st =
    (assigned_store st issueId
       [mkAssignment (nextId st) issueId adminId assignedBy notes now],
     Return (mkAssignment (nextId st) issueId adminId assignedBy notes now)).
Proof.
  intros Hi Ha Hb. unfold assignIssue, bind, insertAssignment. simpl.
  rewrite Hi, Ha, Hb. simpl. unfold assigned_store. simpl.
  rewrite Nat.add_1_r. reflexivity.
Qed.

Lemma assignIssue_bad_admin (st : Store) (issueId adminId assignedBy : id)
    (notes : option string) (now : timestamp) :
  mem adminId (user_ids st) = false ->
  assignIssue (mkInsertAssignment issueId adminId assignedBy notes) now st =
    (st, Throw).
Proof.
  intros Ha. unfold assignIssue, bind, insertAssignment. simpl.
  rewrite Ha, andb_false_r. reflexivity.
Qed.

Lemma assign_each_good (issueId assignedBy : id) (notes : option string)
    (now : timestamp) (good : list id) :
  forall (a : id) (tail : list id) (done : list Assignment) (st : Store),
  mem issueId (issue_ids st) = true ->
  mem assignedBy (user_ids st) = true ->
  Forall (fun x => mem x (user_ids st) = true) (a :: good) ->
  assign_each issueId ((a :: good) ++ tail) assignedBy notes now done st =
    assign_each issueId tail assignedBy notes now
      (done ++ assignment_rows (nextId st) issueId (a :: good) assignedBy notes now)
      (assigned_store st issueId
         (assignment_rows (nextId st) issueId (a :: good) assignedBy notes now)).
Proof.
  induction good as [|b good IH]; intros a tail done st Hi Hb Hall.
  - inversion Hall as [|? ? Ha _]; subst. simpl. unfold bind at 1.
    rewrite (assignIssue_ok st _ _ _ _ _ Hi Ha Hb). reflexivity.
  - inversion Hall as [|? ? Ha Hrest]; subst.
    change ((a :: b :: good) ++ tail)%list with (a :: ((b :: good) ++ tail))%list.
    cbn [assign_each]. unfold bind at 1.
    rewrite (assignIssue_ok st _ _ _ _ _ Hi Ha Hb).
    rewrite IH.
    + rewrite assigned_store_twice. cbn [nextId assigned_store length].
      rewrite Nat.add_1_r, <- app_assoc. reflexivity.
    + rewrite assigned_store_ids. exact Hi.
    + exact Hb.
    + exact Hrest.
Qed.

Lemma Forall_mem (l ids : list id) :
  Forall (fun a => In a ids) l -> Forall (fun x => mem x ids = true) l.
Proof. apply Forall_impl. intros a. apply mem_In. Qed.

(** C3, what the code does: the assign route never reads the status of the
    issue and opens no transaction.  Called by a superadmin for an existing
    issue in any status with N >= 1 ids of existing users, it answers 200,
    appends one assignment row per id and sets the status to assigned.  When
    an id is rejected by the store, the rows of the ids before it stay and,
    if there were any, the status is assigned; the answer is 400. *)
Theorem assign_ignores_status (st : Store) (uid : id) (u : User)
    (issueId : id) (adminIds : list id) (notes : option string)
    (now : timestamp) :
  getUser st uid = Some u ->
  user_role u = "superadmin" ->
  In issueId (issue_ids st) ->
  let req := mkRequest (Some uid) now (PostAssign issueId adminIds notes) in
  let rows_for ids := assignment_rows (nextId st) issueId ids uid notes now in
  (adminIds <> [] -> Forall (fun a => In a (user_ids st)) adminIds ->
     handle req st =
       (assigned_store st issueId (rows_for adminIds),
        Return (mkResponse 200 (AssignmentsJson (rows_for adminIds))))) /\
  (forall good bad rest,
     adminIds = (good ++ bad :: rest)%list ->
     Forall (fun a => In a (user_ids st)) good ->
     ~ In bad (user_ids st) ->
     handle req st =
       (match good with
        | [] => st
        | _ :: _ => assigned_store st issueId (rows_for good)
        end,
        Return (mkResponse 400 (Message "Failed to assign issue")))).
Proof.
  intros Hu Hrole Hissue req rows_for.
  destruct (getUser_Some _ _ _ Hu) as [Hid Hmem].
  apply mem_In in Hissue.
  unfold handle, req_user. simpl. rewrite Hu.
  unfold post_assign, requireAuth, requireRole. rewrite Hrole, Hid. simpl.
  split.
  - intros Hne Hall. destruct adminIds as [|a good]; [congruence|].
    unfold try_catch, bind.
    rewrite <- (app_nil_r (a :: good)) at 1.
    rewrite assign_each_good by auto using Forall_mem.
    simpl. reflexivity.
  - intros good bad rest -> Hall Hbad. apply mem_false in Hbad.
    destruct good as [|a good].
    + simpl. unfold try_catch, bind.
      rewrite assignIssue_bad_admin by exact Hbad. reflexivity.
    + unfold try_catch, bind.
      change ((a :: good) ++ bad :: rest)%list
        with (a :: (good ++ bad :: rest))%list at 1.
      cbv beta iota.
      rewrite assign_each_good by auto using Forall_mem.
      cbn [assign_each]. unfold bind.
      rewrite assignIssue_bad_admin by exact Hbad. reflexivity.
Qed.

Lemma assign_ignores_status_witness :
  option_map issue_status (getIssueRow st_resolved issue1) = Some Resolved /\
  handle (mkRequest (Some superadmin) 9
            (PostAssign issue1 [adminA; citizen] None)) st_resolved =
    (assigned_store st_resolved issue1
       (assignment_rows (nextId st_resolved) issue1 [adminA; citizen]
                        superadmin None 9),
     Return (mkResponse 200
               (AssignmentsJson
                  (assignment_rows (nextId st_resolved) issue1 [adminA; citizen]
                                   superadmin None 9)))) /\
  handle (mkRequest (Some superadmin) 9
            (PostAssign issue1 [adminA; 77] None)) st_resolved =
    (assigned_store st_resolved issue1
       (assignment_rows (nextId st_resolved) issue1 [adminA] superadmin None 9),
     Return (mkResponse 400 (Message "Failed to assign issue"))).
Proof.
  pose (s := mkUser superadmin "s@example.org" "h2" "S" "superadmin" 3).
  assert (getUser st_resolved superadmin = Some s) as Hu by reflexivity.
  assert (In issue1 (issue_ids st_resolved)) as Hi by (left; reflexivity).
  split; [reflexivity|]. split.
  - refine (proj1 (assign_ignores_status st_resolved superadmin s issue1
                     [adminA; citizen] None 9 Hu eq_refl Hi) _ _).
    + discriminate.
    + constructor; [simpl; auto | constructor; [simpl; auto | constructor]].
  - refine (proj2 (assign_ignores_status st_resolved superadmin s issue1
                     [adminA; 77] None 9 Hu eq_refl Hi) [adminA] 77 [] eq_refl _ _).
    + constructor; [simpl; auto | constructor].
    + simpl. intros [H|[H|[H|[]]]]; discriminate.
Defined.

(** C3 as the specification words it fails: assigning the pothole while it
    is assigned succeeds and adds a row; assigning it after it was resolved
    succeeds and turns its status back to assigned; and an assignment whose
    second admin id names no user fails with the row of the first admin
    kept and the status changed.  The page of the client shows the
    superadmin no Assign button for an assigned or a resolved issue; the
    assign route serves the requests all the same. *)
Lemma assign_twice_and_partial :
  (option_map issue_status (getIssueRow st_assigned issue1) = Some Assigned /\
   option_map (IssueDetailPage_assign_button (getUser st_assigned superadmin))
              (getIssueRow st_assigned issue1) = Some false /\
   let again := handle assign_again st_assigned in
   res_status_of (snd again) = Some 200 /\
   length (assignments st_assigned) = 1 /\
   length (assignments (fst again)) = 2) /\
  (option_map issue_status (getIssueRow st_resolved issue1) = Some Resolved /\
   option_map (IssueDetailPage_assign_button (getUser st_resolved superadmin))
              (getIssueRow st_resolved issue1) = Some false /\
   let again := handle assign_again st_resolved in
   res_status_of (snd again) = Some 200 /\
   option_map issue_status (getIssueRow (fst again) issue1) = Some Assigned) /\
  (option_map issue_status (getIssueRow st_submitted issue1) = Some NotAssigned /\
   let partial :=
     handle (mkRequest (Some superadmin) 5 (PostAssign issue1 [adminA; 77] None))
            st_submitted in
   snd partial = Return (mkResponse 400 (Message "Failed to assign issue")) /\
   length (assignments st_submitted) = 0 /\
   length (assignments (fst partial)) = 1 /\
   option_map issue_status (getIssueRow (fst partial) issue1) = Some Assigned).
Proof. repeat split; reflexivity. Qed.

(** *** Assigning an issue that is resolved *)

Lemma resolution_set_status (s : Status) (i : Issue) :
  resolution_set (set_status s i) = resolution_set i.
Proof. reflexivity. Qed.

Lemma update_where_hit (f : Issue -> Issue) (l : list Issue) (i : Issue) :
  In i l -> In (f i) (update_where (issue_id i) f l).
Proof.
  intros Hi. unfold update_where. apply in_map_iff. exists i.
  rewrite Nat.eqb_refl. now split.
Qed.

(** C1, what the code does: the assign route never reads the status of the
    issue.  When a superadmin assigns a resolved issue to existing users,
    the route answers 200 and leaves the issue with status assigned and
    its four resolution columns set, in a store the served requests can
    reach; the lock-step of the specification fails for it. *)
Theorem reassign_breaks_lockstep (st : Store) (uid : id) (u : User)
    (i : Issue) (adminIds : list id) (notes : option string)
    (now : timestamp) :
  reachable st ->
  getUser st uid = Some u ->
  user_role u = "superadmin" ->
  In i (issues st) ->
  issue_status i = Resolved ->
  adminIds <> [] ->
  Forall (fun a => In a (user_ids st)) adminIds ->
  let req := mkRequest (Some uid) now (PostAssign (issue_id i) adminIds notes) in
  let st' := fst (handle req st) in
  let i' := set_status Assigned i in
  res_status_of (snd (handle req st)) = Some 200 /\
  reachable st' /\
  In i' (issues st') /\
  issue_status i' = Assigned /\
  resolution_set i' = true /\
  ~ lockstep st' i'.
Proof.
  intros Hr Hu Hrole Hi Hres Hne Hall req st' i'.
  assert (resolution_set i = true) as Hset.
  { destruct (reachable_ok st Hr) as [_ _ _ _ Hs].
    rewrite Forall_forall in Hs. now apply (Hs i Hi). }
  assert (handle req st =
            (assigned_store st (issue_id i)
               (assignment_rows (nextId st) (issue_id i) adminIds uid notes now),
             Return (mkResponse 200
                       (AssignmentsJson
                          (assignment_rows (nextId st) (issue_id i) adminIds
                                           uid notes now))))) as Hstep.
  { destruct (getUser_Some _ _ _ Hu) as [Hid Hmem].
    assert (mem (issue_id i) (issue_ids st) = true) as Hissue
      by (apply mem_In; unfold issue_ids; now apply in_map).
    unfold req, handle, req_user. simpl. rewrite Hu.
    unfold post_assign, requireAuth, requireRole. rewrite Hrole, Hid. simpl.
    destruct adminIds as [|a good]; [congruence|].
    unfold try_catch, bind.
    rewrite <- (app_nil_r (a :: good)) at 1.
    rewrite assign_each_good by auto using Forall_mem.
    simpl. reflexivity. }
  assert (reachable st') as Hr'.
  { subst st'. change (fst (handle req st)) with (serve [req] st).
    now apply reachable_serve. }
  subst st'. rewrite Hstep in *. simpl.
  split; [reflexivity|]. split; [exact Hr'|].
  split; [now apply update_where_hit|].
  split; [reflexivity|]. split; [exact Hset|].
  intros [[_ H] _]. specialize (H Hset). discriminate.
Qed.

Lemma reassign_breaks_lockstep_witness :
  reachable st_resolved /\
  getUser st_resolved superadmin
    = Some (mkUser superadmin "s@example.org" "h2" "S" "superadmin" 3) /\
  In issue_resolved (issues st_resolved) /\
  issue_status issue_resolved = Resolved /\
  IssueDetailPage_assign_button (getUser st_resolved superadmin) issue_resolved
    = false /\
  res_status_of (snd (handle assign_again st_resolved)) = Some 200 /\
  In issue_reassigned (issues st_reassigned) /\
  issue_status issue_reassigned = Assigned /\
  resolution_set issue_reassigned = true /\
  ~ lockstep st_reassigned issue_reassigned.
Proof.
  assert (In issue_resolved (issues st_resolved)) as Hi
    by (left; reflexivity).
  assert (Forall (fun a => In a (user_ids st_resolved)) [adminA]) as Hall
    by (constructor; [simpl; auto | constructor]).
  split; [apply reachable_resolved|]. split; [reflexivity|].
  split; [exact Hi|]. split; [reflexivity|]. split; [reflexivity|].
  destruct (reassign_breaks_lockstep st_resolved superadmin
              (mkUser superadmin "s@example.org" "h2" "S" "superadmin" 3)
              issue_resolved [adminA] None 7
              reachable_resolved eq_refl eq_refl Hi eq_refl
              ltac:(discriminate) Hall)
    as [H200 [_ [Hin [Hst [Hset Hbroken]]]]].
  split; [exact H200|]. split; [exact Hin|]. split; [exact Hst|].
  split; [exact Hset | exact Hbroken].
Defined.

(** ** Votes *)

Lemma key_absent_filter (userId issueId : id) (l : list Upvote) :
  ~ In (userId, issueId) (map upvote_key l) ->
  filter (upvote_matches userId issueId) l = [].
Proof.
  induction l as [|v l IH]; simpl; intros H; [reflexivity|].
  destruct (upvote_matches userId issueId v) eqn:E.
  - apply matches_key in E. exfalso. apply H. now left.
  - apply IH. intros Hin. apply H. now right.
Qed.

Lemma unique_key_one_row (userId issueId : id) (l : list Upvote) :
  NoDup (map upvote_key l) ->
  length (filter (upvote_matches userId issueId) l) <= 1.
Proof.
  induction l as [|v l IH]; simpl; intros H; [lia|].
  inversion H as [|? ? Hnot Hrest]; subst.
  destruct (upvote_matches userId issueId v) eqn:E.
  - apply matches_key in E. rewrite E in Hnot.
    rewrite (key_absent_filter _ _ _ Hnot). simpl. lia.
  - now apply IH.
Qed.

Lemma insertUpvote_ok (st : Store) (userId issueId : id) (now : timestamp) :
  In userId (user_ids st) -> In issueId (issue_ids st) ->
  insertUpvote userId issueId now st =
    (mkStore (users st) (categories st) (issues st)
             (upvotes st ++ [mkUpvote (nextId st) userId issueId now])
             (assignments st) (S (nextId st)),
     Return tt).
Proof.
  intros Hu Hi. apply mem_In in Hu, Hi. unfold insertUpvote.
  rewrite Hu, Hi. reflexivity.
Qed.

Lemma matches_refl (userId issueId k : id) (now : timestamp) :
  upvote_matches userId issueId (mkUpvote k userId issueId now) = true.
Proof. unfold upvote_matches. simpl. now rewrite !Nat.eqb_refl. Qed.

(** C4, as the code has it: in every store the served requests can reach,
    a (user, issue) pair has at most one upvote row; what keeps it so is the
    SELECT that [toggleUpvote] runs before it inserts, for the table declares
    no uniqueness on the pair and its INSERT adds a row for the pair whatever
    rows are there. *)
Theorem upvote_unique_by_check_only (st : Store) (userId issueId : id)
    (now : timestamp) :
  reachable st ->
  In userId (user_ids st) ->
  In issueId (issue_ids st) ->
  votes_of_pair st userId issueId <= 1 /\
  snd (insertUpvote userId issueId now st) = Return tt /\
  votes_of_pair (fst (insertUpvote userId issueId now st)) userId issueId
    = S (votes_of_pair st userId issueId).
Proof.
  intros Hr Hu Hi. apply reachable_ok in Hr. destruct Hr as [_ _ _ Huniq _].
  split; [now apply unique_key_one_row|].
  rewrite (insertUpvote_ok st _ _ now Hu Hi). simpl.
  split; [reflexivity|].
  unfold votes_of_pair. simpl. rewrite filter_app, length_app. simpl.
  rewrite matches_refl. simpl. lia.
Qed.

Lemma upvote_unique_by_check_only_witness :
  reachable st_voted /\
  In citizen (user_ids st_voted) /\
  In issue1 (issue_ids st_voted) /\
  votes_of_pair st_voted citizen issue1 <= 1 /\
  snd (insertUpvote citizen issue1 9 st_voted) = Return tt /\
  votes_of_pair (fst (insertUpvote citizen issue1 9 st_voted)) citizen issue1
    = S (votes_of_pair st_voted citizen issue1).
Proof.
  assert (reachable st_voted) as Hr.
  { exists (registrations ++ [submit_pothole; upvote_pothole])%list.
    reflexivity. }
  assert (In citizen (user_ids st_voted)) as Hu by (left; reflexivity).
  assert (In issue1 (issue_ids st_voted)) as Hi by (left; reflexivity).
  split; [exact Hr|]. split; [exact Hu|]. split; [exact Hi|].
  exact (upvote_unique_by_check_only st_voted citizen issue1 9 Hr Hu Hi).
Defined.

(** C4 as the specification words it fails: the store accepts a second row
    for a pair that has one, and two concurrent toggles of one user whose
    SELECTs both precede the writes leave two rows for the pair. *)
Lemma duplicate_vote_rows :
  (votes_of_pair st_voted citizen issue1 = 1 /\
   snd (insertUpvote citizen issue1 9 st_voted) = Return tt /\
   votes_of_pair (fst (insertUpvote citizen issue1 9 st_voted)) citizen issue1
     = 2) /\
  (votes_of_pair st_submitted citizen issue1 = 0 /\
   snd (toggle_interleaved citizen issue1 8 9 st_submitted)
     = Return ((true, 1), (true, 2)) /\
   votes_of_pair (fst (toggle_interleaved citizen issue1 8 9 st_submitted))
                 citizen issue1 = 2).
Proof. repeat split; reflexivity. Qed.

(** *** Toggling *)

Lemma has_vote_false_filter (st : Store) (userId issueId : id) :
  has_vote st userId issueId = false ->
  filter (upvote_matches userId issueId) (upvotes st) = [].
Proof.
  unfold has_vote. induction (upvotes st) as [|v l IH]; simpl; [reflexivity|].
  destruct (upvote_matches userId issueId v); simpl; [discriminate | exact IH].
Qed.

Lemma has_vote_true_filter (st : Store) (userId issueId : id) :
  has_vote st userId issueId = true ->
  exists v, firstn 1 (filter (upvote_matches userId issueId) (upvotes st)) = [v].
Proof.
  unfold has_vote. induction (upvotes st) as [|v l IH]; simpl; [discriminate|].
  destruct (upvote_matches userId issueId v); simpl.
  - intros _. now exists v.
  - exact IH.
Qed.

Lemma no_vote_after_delete (userId issueId : id) (l : list Upvote) :
  existsb (upvote_matches userId issueId)
          (filter (fun u => negb (upvote_matches userId issueId u)) l) = false.
Proof.
  induction l as [|v l IH]; simpl; [reflexivity|].
  destruct (upvote_matches userId issueId v) eqn:E; simpl; [exact IH|].
  rewrite E. exact IH.
Qed.

Lemma voters_of_unique (issueId : id) (l : list Upvote) :
  NoDup (map upvote_key l) ->
  NoDup (map upvote_userId (filter (upvote_of_issue issueId) l)).
Proof.
  induction l as [|v l IH]; simpl; intros H; [constructor|].
  inversion H as [|? ? Hnot Hrest]; subst.
  destruct (upvote_of_issue issueId v) eqn:E; simpl; [|now apply IH].
  constructor; [|now apply IH].
  intros Hin. apply Hnot. apply in_map_iff in Hin.
  destruct Hin as [w [Hw Hin]]. apply filter_In in Hin. destruct Hin as [Hin Ew].
  apply in_map_iff. exists w. split; [|exact Hin].
  unfold upvote_of_issue in *. apply Nat.eqb_eq in E, Ew.
  unfold upvote_key. congruence.
Qed.

(** Under the integrity of the store, COUNT( * ) over the rows of an issue
    is the number of users holding a vote on it. *)
Lemma count_is_voters (st : Store) (issueId : id) :
  store_ok st -> upvoteCount st issueId = length (voters st issueId).
Proof.
  intros [_ _ _ Huniq _]. unfold upvoteCount, voters.
  rewrite nodup_fixed_point by now apply voters_of_unique.
  now rewrite length_map.
Qed.

Lemma toggleUpvote_ids (userId issueId : id) (now : timestamp) (st : Store) :
  user_ids (fst (toggleUpvote userId issueId now st)) = user_ids st /\
  issue_ids (fst (toggleUpvote userId issueId now st)) = issue_ids st.
Proof.
  unfold toggleUpvote, toggleUpvote_write, bind, selectUpvote.
  destruct (firstn 1 _) as [|e l]; simpl; [|split; reflexivity].
  unfold insertUpvote. destruct (mem userId _ && mem issueId _); simpl;
    split; reflexivity.
Qed.

(** One call: the vote of the pair is flipped, and the answer describes the
    store the call leaves. *)
Lemma toggleUpvote_flips (st : Store) (userId issueId : id) (now : timestamp) :
  store_ok st ->
  In userId (user_ids st) ->
  In issueId (issue_ids st) ->
  let st' := fst (toggleUpvote userId issueId now st) in
  has_vote st' userId issueId = negb (has_vote st userId issueId) /\
  snd (toggleUpvote userId issueId now st)
    = Return (has_vote st' userId issueId, length (voters st' issueId)).
Proof.
  intros Hok Hu Hi st'.
  assert (store_ok st') as Hok' by now apply preserves_toggleUpvote.
  rewrite <- (count_is_voters st' issueId Hok').
  subst st'. unfold toggleUpvote, toggleUpvote_write, bind, selectUpvote.
  destruct (has_vote st userId issueId) eqn:Hv.
  - destruct (has_vote_true_filter _ _ _ Hv) as [v ->]. simpl.
    unfold has_vote. simpl. rewrite no_vote_after_delete. split; reflexivity.
  - rewrite (has_vote_false_filter _ _ _ Hv). simpl.
    rewrite (insertUpvote_ok st _ _ now Hu Hi). simpl.
    unfold has_vote. simpl. rewrite existsb_app. simpl.
    rewrite matches_refl, orb_true_r. split; reflexivity.
Qed.

Lemma toggle_times_flips (userId issueId : id) (nows : list timestamp) :
  forall (last : Outcome (bool * nat)) (st : Store),
  store_ok st ->
  In userId (user_ids st) ->
  In issueId (issue_ids st) ->
  nows <> [] ->
  let st' := fst (toggle_times userId issueId nows last st) in
  has_vote st' userId issueId
    = xorb (has_vote st userId issueId) (Nat.odd (length nows)) /\
  snd (toggle_times userId issueId nows last st)
    = Return (has_vote st' userId issueId, length (voters st' issueId)).
Proof.
  induction nows as [|now rest IH]; intros last st Hok Hu Hi Hne; [congruence|].
  destruct (toggleUpvote_flips st userId issueId now Hok Hu Hi) as [Hflip Hans].
  destruct (toggleUpvote_ids userId issueId now st) as [Hus His].
  assert (store_ok (fst (toggleUpvote userId issueId now st))) as Hok'
    by now apply preserves_toggleUpvote.
  cbn [toggle_times].
  destruct (toggleUpvote userId issueId now st) as [st1 r1] eqn:E.
  simpl in Hflip, Hans, Hus, His, Hok'.
  destruct rest as [|now2 rest].
  - simpl. split; [|exact Hans].
    rewrite Hflip. now destruct (has_vote st userId issueId).
  - specialize (IH r1 st1 Hok').
    rewrite Hus, His in IH. specialize (IH Hu Hi ltac:(discriminate)).
    destruct IH as [IH1 IH2]. split; [|exact IH2].
    rewrite IH1, Hflip.
    change (length (now :: now2 :: rest)) with (S (length (now2 :: rest))).
    rewrite Nat.odd_succ, <- Nat.negb_odd.
    destruct (has_vote st userId issueId), (Nat.odd (length (now2 :: rest)));
      reflexivity.
Qed.

(** One call, on any store that holds the user and the issue: the vote of
    the pair is flipped, and the count answered is the number of upvote
    rows the issue has afterwards. *)
Lemma toggleUpvote_flips_rows (st : Store) (userId issueId : id)
    (now : timestamp) :
  In userId (user_ids st) ->
  In issueId (issue_ids st) ->
  let st' := fst (toggleUpvote userId issueId now st) in
  has_vote st' userId issueId = negb (has_vote st userId issueId) /\
  snd (toggleUpvote userId issueId now st)
    = Return (has_vote st' userId issueId, upvoteCount st' issueId).
Proof.
  intros Hu Hi st'. subst st'.
  unfold toggleUpvote, toggleUpvote_write, bind, selectUpvote.
  destruct (has_vote st userId issueId) eqn:Hv.
  - destruct (has_vote_true_filter _ _ _ Hv) as [v ->]. simpl.
    unfold has_vote. simpl. rewrite no_vote_after_delete. split; reflexivity.
  - rewrite (has_vote_false_filter _ _ _ Hv). simpl.
    rewrite (insertUpvote_ok st _ _ now Hu Hi). simpl.
    unfold has_vote. simpl. rewrite existsb_app. simpl.
    rewrite matches_refl, orb_true_r. split; reflexivity.
Qed.

Lemma toggle_times_flips_rows (userId issueId : id) (nows : list timestamp) :
  forall (last : Outcome (bool * nat)) (st : Store),
  In userId (user_ids st) ->
  In issueId (issue_ids st) ->
  nows <> [] ->
  let st' := fst (toggle_times userId issueId nows last st) in
  has_vote st' userId issueId
    = xorb (has_vote st userId issueId) (Nat.odd (length nows)) /\
  snd (toggle_times userId issueId nows last st)
    = Return (has_vote st' userId issueId, upvoteCount st' issueId).
Proof.
  induction nows as [|now rest IH]; intros last st Hu Hi Hne; [congruence|].
  destruct (toggleUpvote_flips_rows st userId issueId now Hu Hi) as [Hflip Hans].
  destruct (toggleUpvote_ids userId issueId now st) as [Hus His].
  cbn [toggle_times].
  destruct (toggleUpvote userId issueId now st) as [st1 r1] eqn:E.
  simpl in Hflip, Hans, Hus, His.
  destruct rest as [|now2 rest].
  - simpl. split; [|exact Hans].
    rewrite Hflip. now destruct (has_vote st userId issueId).
  - specialize (IH r1 st1).
    rewrite Hus, His in IH. specialize (IH Hu Hi ltac:(discriminate)).
    destruct IH as [IH1 IH2]. split; [|exact IH2].
    rewrite IH1, Hflip.
    change (length (now :: now2 :: rest)) with (S (length (now2 :: rest))).
    rewrite Nat.odd_succ, <- Nat.negb_odd.
    destruct (has_vote st userId issueId), (Nat.odd (length (now2 :: rest)));
      reflexivity.
Qed.

(** COUNT( * ) counts rows: it is never below the number of users who hold
    a vote on the issue. *)
Lemma voters_le_rows (st : Store) (issueId : id) :
  length (voters st issueId) <= upvoteCount st issueId.
Proof.
  unfold voters, upvoteCount.
  rewrite <- (length_map upvote_userId (filter _ (upvotes st))).
  apply NoDup_incl_length; [apply NoDup_nodup|].
  intros x Hx. now apply nodup_In in Hx.
Qed.

(** C5: for an existing user and an existing issue with no vote of that
    user, after N >= 1 calls of [toggleUpvote] for the pair a vote row of
    the pair exists iff N is odd; the Nth call answers [upvoted] = whether
    the row exists after it, and [count] = the number of upvote rows the
    issue has after it.  That number is never below the number of distinct
    users holding a vote on the issue, and it is that number in every store
    the requests served one after the other can reach. *)
Theorem toggle_parity (st : Store) (userId issueId : id)
    (nows : list timestamp) (last : Outcome (bool * nat)) :
  In userId (user_ids st) ->
  In issueId (issue_ids st) ->
  has_vote st userId issueId = false ->
  1 <= length nows ->
  let st' := fst (toggle_times userId issueId nows last st) in
  (has_vote st' userId issueId = true <-> Nat.odd (length nows) = true) /\
  snd (toggle_times userId issueId nows last st)
    = Return (has_vote st' userId issueId, upvoteCount st' issueId) /\
  length (voters st' issueId) <= upvoteCount st' issueId /\
  (reachable st -> upvoteCount st' issueId = length (voters st' issueId)).
Proof.
  intros Hu Hi Hno Hn st'.
  assert (nows <> []) as Hne by (destruct nows; simpl in Hn; [lia | discriminate]).
  destruct (toggle_times_flips_rows userId issueId nows last st Hu Hi Hne)
    as [Hv Hans].
  fold st' in Hv, Hans.
  split; [rewrite Hv, Hno; simpl; reflexivity|].
  split; [exact Hans|]. split; [apply voters_le_rows|].
  intros Hr. apply reachable_ok in Hr.
  destruct (toggle_times_flips userId issueId nows last st Hr Hu Hi Hne)
    as [_ Hserial].
  fold st' in Hserial. rewrite Hans in Hserial. congruence.
Qed.

Lemma toggle_parity_witness :
  In citizen (user_ids st_submitted) /\
  In issue1 (issue_ids st_submitted) /\
  has_vote st_submitted citizen issue1 = false /\
  1 <= length [8; 9; 10] /\
  let st' := fst (toggle_times citizen issue1 [8; 9; 10] Throw st_submitted) in
  (has_vote st' citizen issue1 = true <-> Nat.odd (length [8; 9; 10]) = true) /\
  snd (toggle_times citizen issue1 [8; 9; 10] Throw st_submitted)
    = Return (has_vote st' citizen issue1, upvoteCount st' issue1) /\
  length (voters st' issue1) <= upvoteCount st' issue1 /\
  (reachable st_submitted -> upvoteCount st' issue1 = length (voters st' issue1)).
Proof.
  assert (In citizen (user_ids st_submitted)) as Hu by (left; reflexivity).
  assert (In issue1 (issue_ids st_submitted)) as Hi by (left; reflexivity).
  assert (1 <= length [8; 9; 10]) as Hn by (simpl; lia).
  split; [exact Hu|]. split; [exact Hi|].
  split; [reflexivity|]. split; [exact Hn|].
  exact (toggle_parity st_submitted citizen issue1 [8; 9; 10] Throw
           Hu Hi eq_refl Hn).
Defined.

(** C5 as the specification words it fails: two concurrent votes of the
    citizen have left two rows for one pair; the admin, who holds no vote,
    then votes once (N = 1) and is answered [count] = 3, while two distinct
    users hold a vote on the issue. *)
Lemma toggle_count_is_rows_not_voters :
  snd (toggle_interleaved citizen issue1 8 9 st_submitted)
    = Return ((true, 1), (true, 2)) /\
  votes_of_pair st_raced citizen issue1 = 2 /\
  In adminA (user_ids st_raced) /\
  In issue1 (issue_ids st_raced) /\
  has_vote st_raced adminA issue1 = false /\
  let st' := fst (toggle_times adminA issue1 [10] Throw st_raced) in
  has_vote st' adminA issue1 = true /\
  snd (toggle_times adminA issue1 [10] Throw st_raced) = Return (true, 3) /\
  voters st' issue1 = [citizen; adminA] /\
  snd (toggle_times adminA issue1 [10] Throw st_raced)
    <> Return (has_vote st' adminA issue1, length (voters st' issue1)).
Proof.
  split; [reflexivity|]. split; [reflexivity|].
  split; [right; left; reflexivity|]. split; [left; reflexivity|].
  split; [reflexivity|]. split; [reflexivity|]. split; [reflexivity|].
  split; [reflexivity|]. discriminate.
Qed.

(** *** Voting on an issue that does not exist *)

Lemma no_rows_of_missing_issue (st : Store) (userId issueId : id) :
  store_ok st -> ~ In issueId (issue_ids st) ->
  filter (upvote_matches userId issueId) (upvotes st) = [].
Proof.
  intros [_ _ Hfk _ _] Hmiss. apply key_absent_filter. intros Hin.
  apply in_map_iff in Hin. destruct Hin as [v [Hk Hv]].
  rewrite Forall_forall in Hfk. destruct (Hfk v Hv) as [_ Hi].
  unfold upvote_key in Hk. inversion Hk; subst. contradiction.
Qed.

(** C9, as the code has it: in a store the served requests can reach, an
    authenticated call of the upvote route for an issue id that names no
    issue inserts no row and leaves the store as it was; the foreign key of
    the INSERT rejects it, and the route answers 500 "Failed to toggle
    upvote", the answer it gives to every failure. *)
Theorem upvote_missing_issue_fails (st : Store) (uid : id) (u : User)
    (issueId : id) (now : timestamp) :
  reachable st ->
  getUser st uid = Some u ->
  ~ In issueId (issue_ids st) ->
  handle (mkRequest (Some uid) now (PostUpvote issueId)) st =
    (st, Return (mkResponse 500 (Message "Failed to toggle upvote"))).
Proof.
  intros Hr Hu Hmiss. apply reachable_ok in Hr.
  destruct (getUser_Some _ _ _ Hu) as [Hid _].
  unfold handle, req_user. simpl. rewrite Hu.
  unfold post_upvote, requireAuth, try_catch, bind at 1.
  unfold toggleUpvote, bind at 1, selectUpvote.
  rewrite (no_rows_of_missing_issue st (user_id u) issueId Hr Hmiss). simpl.
  unfold toggleUpvote_write, bind, insertUpvote. simpl.
  apply mem_false in Hmiss. rewrite Hmiss, andb_false_r. reflexivity.
Qed.

Lemma upvote_missing_issue_fails_witness :
  reachable st_submitted /\
  getUser st_submitted citizen
    = Some (mkUser citizen "cit@example.org" "h0" "Cit" "citizen" 1) /\
  ~ In 99 (issue_ids st_submitted) /\
  handle (mkRequest (Some citizen) 8 (PostUpvote 99)) st_submitted =
    (st_submitted, Return (mkResponse 500 (Message "Failed to toggle upvote"))).
Proof.
  assert (reachable st_submitted) as Hr.
  { exists (registrations ++ [submit_pothole])%list. reflexivity. }
  assert (~ In 99 (issue_ids st_submitted)) as Hmiss.
  { simpl. intros [H|[]]. discriminate. }
  split; [exact Hr|]. split; [reflexivity|]. split; [exact Hmiss|].
  exact (upvote_missing_issue_fails st_submitted citizen
           (mkUser citizen "cit@example.org" "h0" "Cit" "citizen" 1) 99 8
           Hr eq_refl Hmiss).
Defined.

(** C9 as the specification words it fails: the answer to a vote on issue
    99, which does not exist, has status 500 and not 404. *)
Lemma upvote_missing_issue_not_404 :
  ~ In 99 (issue_ids st_submitted) /\
  res_status_of
    (snd (handle (mkRequest (Some citizen) 8 (PostUpvote 99)) st_submitted))
    = Some 500 /\
  res_status_of
    (snd (handle (mkRequest (Some citizen) 8 (PostUpvote 99)) st_submitted))
    <> Some 404.
Proof.
  split; [simpl; intros [H|[]]; discriminate|].
  split; [reflexivity | discriminate].
Qed.

(** ** Submitting *)

Lemma post_issues_created (st : Store) (uid : id) (u : User)
    (body : IssueBody) (files : list string) (now : timestamp) :
  getUser st uid = Some u ->
  complete body = true ->
  fk_opt (body_categoryId body) (category_ids st) = true ->
  length files <= 5 ->
  exists newIssue,
    handle (mkRequest (Some uid) now (PostIssues body files)) st =
      (mkStore (users st) (categories st) (issues st ++ [newIssue])
               (upvotes st) (assignments st) (S (nextId st)),
       Return (mkResponse 201 (IssueJson newIssue)))
    /\ issue_userId newIssue = uid
    /\ issue_status newIssue = NotAssigned
    /\ issue_mediaUrls newIssue = map upload_url files.
Proof.
  intros Hu Hbody Hcat Hfiles. destruct (getUser_Some _ _ _ Hu) as [Hid Hmem].
  unfold handle, req_user. simpl. rewrite Hu.
  unfold post_issues, requireAuth, upload_array.
  assert ((5 <? length files) = false) as -> by (apply Nat.ltb_ge; exact Hfiles).
  destruct body as [[t|] [d|] [s|] [c|] [rn|] [rp|] cat [l|] [p|]];
    try discriminate Hbody.
  simpl in Hcat.
  unfold try_catch, bind, insertIssueSchema_parse. simpl.
  unfold createIssue. simpl. rewrite Hcat, Hid, Hmem. simpl.
  eexists. split; [reflexivity|]. simpl. auto.
Qed.

(** C6, what the code does: the submit route asks for an authenticated
    caller and for nothing about the role; for an admin or a superadmin a
    complete draft is stored as a new issue of that caller and answered
    with 201. *)
Theorem submit_ignores_role (st : Store) (uid : id) (u : User)
    (body : IssueBody) (files : list string) (now : timestamp) :
  getUser st uid = Some u ->
  user_role u = "admin" \/ user_role u = "superadmin" ->
  complete body = true ->
  fk_opt (body_categoryId body) (category_ids st) = true ->
  length files <= 5 ->
  exists newIssue,
    handle (mkRequest (Some uid) now (PostIssues body files)) st =
      (mkStore (users st) (categories st) (issues st ++ [newIssue])
               (upvotes st) (assignments st) (S (nextId st)),
       Return (mkResponse 201 (IssueJson newIssue)))
    /\ issue_userId newIssue = uid.
Proof.
  intros Hu _ Hbody Hcat Hfiles.
  destruct (post_issues_created st uid u body files now Hu Hbody Hcat Hfiles)
    as [newIssue [Hrun [Hby _]]].
  exists newIssue. split; assumption.
Qed.

Lemma submit_ignores_role_witness :
  getUser st_registered adminA
    = Some (mkUser adminA "a@example.org" "h1" "A" "admin" 2) /\
  AddIssuePage_onSubmit (getUser st_registered adminA) ["pothole.png"] pothole
    = AccessDenied /\
  exists newIssue,
    handle (mkRequest (Some adminA) 4 (PostIssues pothole ["pothole.png"]))
           st_registered =
      (mkStore (users st_registered) (categories st_registered)
               (issues st_registered ++ [newIssue])
               (upvotes st_registered) (assignments st_registered)
               (S (nextId st_registered)),
       Return (mkResponse 201 (IssueJson newIssue)))
    /\ issue_userId newIssue = adminA.
Proof.
  split; [reflexivity|]. split; [reflexivity|].
  refine (submit_ignores_role st_registered adminA
            (mkUser adminA "a@example.org" "h1" "A" "admin" 2) pothole
            ["pothole.png"] 4 eq_refl (or_introl eq_refl) eq_refl eq_refl _).
  simpl. lia.
Defined.

(** C8, what the code does: the submit route and [insertIssueSchema] put no
    lower bound on the media; a complete draft that comes with no file is
    stored with an empty media list and answered with 201. *)
Theorem submit_without_media (st : Store) (uid : id) (u : User)
    (body : IssueBody) (now : timestamp) :
  getUser st uid = Some u ->
  complete body = true ->
  fk_opt (body_categoryId body) (category_ids st) = true ->
  exists newIssue,
    handle (mkRequest (Some uid) now (PostIssues body [])) st =
      (mkStore (users st) (categories st) (issues st ++ [newIssue])
               (upvotes st) (assignments st) (S (nextId st)),
       Return (mkResponse 201 (IssueJson newIssue)))
    /\ issue_mediaUrls newIssue = [].
Proof.
  intros Hu Hbody Hcat.
  destruct (post_issues_created st uid u body [] now Hu Hbody Hcat)
    as [newIssue [Hrun [_ [_ Hmedia]]]]; [simpl; lia|].
  exists newIssue. split; assumption.
Qed.

Lemma submit_without_media_witness :
  getUser st_registered citizen
    = Some (mkUser citizen "cit@example.org" "h0" "Cit" "citizen" 1) /\
  AddIssuePage_onSubmit (getUser st_registered citizen) [] pothole
    = Toast "Media required" /\
  exists newIssue,
    handle (mkRequest (Some citizen) 4 (PostIssues pothole [])) st_registered =
      (mkStore (users st_registered) (categories st_registered)
               (issues st_registered ++ [newIssue])
               (upvotes st_registered) (assignments st_registered)
               (S (nextId st_registered)),
       Return (mkResponse 201 (IssueJson newIssue)))
    /\ issue_mediaUrls newIssue = [].
Proof.
  split; [reflexivity|]. split; [reflexivity|].
  exact (submit_without_media st_registered citizen
           (mkUser citizen "cit@example.org" "h0" "Cit" "citizen" 1) pothole 4
           eq_refl eq_refl eq_refl).
Defined.

(** ** Registering *)



(** ** Analytics *)

Lemma insert_desc_perm (x : UpvotedIssue) (l : list UpvotedIssue) :
  Permutation (insert_desc x l) (x :: l).
Proof.
  induction l as [|y l IH]; simpl; [reflexivity|].
  destruct (ui_upvoteCount x <? ui_upvoteCount y).
  - rewrite IH. apply perm_swap.
  - reflexivity.
Qed.

Lemma order_by_count_desc_perm (l : list UpvotedIssue) :
  Permutation (order_by_count_desc l) l.
Proof.
  induction l as [|x l IH]; simpl; [reflexivity|].
  rewrite insert_desc_perm. now constructor.
Qed.

Lemma insert_desc_sorted (x : UpvotedIssue) (l : list UpvotedIssue) :
  StronglySorted count_ge l -> StronglySorted count_ge (insert_desc x l).
Proof.
  induction 1 as [|y l Hs IH Hy]; simpl.
  - repeat constructor.
  - destruct (ui_upvoteCount x <? ui_upvoteCount y) eqn:E.
    + apply Nat.ltb_lt in E. constructor; [exact IH|].
      rewrite Forall_forall. intros z Hz.
      apply (Permutation_in _ (insert_desc_perm x l)) in Hz.
      destruct Hz as [<-|Hz]; [unfold count_ge; lia|].
      rewrite Forall_forall in Hy. now apply Hy.
    + apply Nat.ltb_ge in E. constructor; [now constructor|].
      constructor; [exact E|].
      eapply Forall_impl; [|exact Hy]. unfold count_ge. intros z Hz. lia.
Qed.

Lemma order_by_count_desc_sorted (l : list UpvotedIssue) :
  StronglySorted count_ge (order_by_count_desc l).
Proof.
  induction l as [|x l IH]; simpl; [constructor | now apply insert_desc_sorted].
Qed.

Lemma in_prefix (n : nat) (l : list UpvotedIssue) (x : UpvotedIssue) :
  In x (firstn n l) -> In x l.
Proof.
  intros H. rewrite <- (firstn_skipn n l). apply in_or_app. now left.
Qed.

Lemma in_suffix (n : nat) (l : list UpvotedIssue) (x : UpvotedIssue) :
  In x (skipn n l) -> In x l.
Proof.
  intros H. rewrite <- (firstn_skipn n l). apply in_or_app. now right.
Qed.

Lemma sorted_firstn (n : nat) (l : list UpvotedIssue) :
  StronglySorted count_ge l -> StronglySorted count_ge (firstn n l).
Proof.
  revert n. induction l as [|x l IH]; intros n Hs.
  - rewrite firstn_nil. constructor.
  - destruct n as [|n]; simpl; [constructor|].
    inversion Hs as [|? ? Hl Hx]; subst. constructor; [now apply IH|].
    rewrite Forall_forall in *. intros y Hy. apply Hx.
    now apply (in_prefix n).
Qed.

Lemma sorted_cut (n : nat) (l : list UpvotedIssue) :
  StronglySorted count_ge l ->
  forall x y, In x (firstn n l) -> In y (skipn n l) -> count_ge x y.
Proof.
  revert n. induction l as [|z l IH]; intros n Hs x y Hx Hy.
  - rewrite firstn_nil in Hx. contradiction.
  - destruct n as [|n]; simpl in *; [contradiction|].
    inversion Hs as [|? ? Hl Hz]; subst. destruct Hx as [<-|Hx].
    + rewrite Forall_forall in Hz. apply Hz. now apply (in_suffix n).
    + now apply (IH n).
Qed.

Lemma getAnalytics_admissible (st : Store) :
  admissible_mostUpvoted st (mostUpvotedIssues (getAnalytics st)).
Proof.
  exists (order_by_count_desc (grouped st)).
  split; [apply order_by_count_desc_perm|].
  split; [apply order_by_count_desc_sorted | reflexivity].
Qed.

(** C10, as the code has it: [getAnalytics] answers with at most three
    issues, three when there are that many; their upvote counts never
    increase along the list, and no issue left out has more upvotes than one
    in the list.  The count is the only sort key of the query: the order of
    issues with equal counts is not fixed by it. *)
Theorem mostUpvoted_by_count_only (st : Store) :
  let top := mostUpvotedIssues (getAnalytics st) in
  length top = Nat.min 3 (length (issues st)) /\
  StronglySorted count_ge top /\
  (exists rest,
     Permutation (top ++ rest) (grouped st) /\
     forall x y, In x top -> In y rest ->
                 ui_upvoteCount y <= ui_upvoteCount x) /\
  admissible_mostUpvoted st top.
Proof.
  intros top. subst top. unfold getAnalytics. cbn [mostUpvotedIssues].
  set (p := order_by_count_desc (grouped st)).
  assert (Permutation p (grouped st)) as Hperm
    by apply order_by_count_desc_perm.
  assert (StronglySorted count_ge p) as Hsorted
    by apply order_by_count_desc_sorted.
  split; [|split; [|split]].
  - rewrite length_firstn, (Permutation_length Hperm).
    unfold grouped. now rewrite length_map.
  - now apply sorted_firstn.
  - exists (skipn 3 p). split.
    + now rewrite firstn_skipn.
    + intros x y Hx Hy. exact (sorted_cut 3 p Hsorted x y Hx Hy).
  - apply getAnalytics_admissible.
Qed.

(** C10 as the specification words it fails: of the two issues of the run,
    both without upvotes, the answer lists the one created first before the
    one created last; that order and the order the specification asks for
    are both answers the query text allows. *)
Lemma mostUpvoted_tie_not_by_recency :
  created_at (mostUpvotedIssues (getAnalytics st_two_issues)) = [4; 5] /\
  created_at (spec_mostUpvoted st_two_issues) = [5; 4] /\
  mostUpvotedIssues (getAnalytics st_two_issues)
    <> spec_mostUpvoted st_two_issues /\
  admissible_mostUpvoted st_two_issues
    (mostUpvotedIssues (getAnalytics st_two_issues)) /\
  admissible_mostUpvoted st_two_issues (spec_mostUpvoted st_two_issues).
Proof.
  split; [reflexivity|]. split; [reflexivity|]. split; [|split].
  - intros H. apply (f_equal created_at) in H. discriminate H.
  - apply getAnalytics_admissible.
  - exists (fold_right spec_insert [] (grouped st_two_issues)).
    split; [|split; [|reflexivity]].
    + cbv. apply perm_swap.
    + cbv. repeat constructor.
Qed.

(** * Further properties of the code *)

(** ** Relations every request respects *)

Section Respect.

Variable R : Store -> Store -> Prop.
Hypothesis R_refl : forall st, R st st.
Hypothesis R_trans : forall a b c, R a b -> R b c -> R a c.

Lemma respects_ret (A : Type) (a : A) : respects R (ret a).
Proof. intros st. apply R_refl. Qed.

Lemma respects_throw (A : Type) : respects R (@throw A).
Proof. intros st. apply R_refl. Qed.

Lemma respects_get : respects R get.
Proof. intros st. apply R_refl. Qed.

Lemma respects_bind (A B : Type) (m : M A) (k : A -> M B) :
  respects R m -> (forall a, respects R (k a)) -> respects R (bind m k).
Proof.
  intros Hm Hk st. unfold bind. specialize (Hm st).
  destruct (m st) as [st' [a|]]; simpl in *; [|exact Hm].
  eapply R_trans; [exact Hm | apply Hk].
Qed.

Lemma respects_try_catch (A : Type) (body handler : M A) :
  respects R body -> respects R handler -> respects R (try_catch body handler).
Proof.
  intros Hb Hh st. unfold try_catch. specialize (Hb st).
  destruct (body st) as [st' [a|]]; simpl in *; [exact Hb|].
  eapply R_trans; [exact Hb | apply Hh].
Qed.

Lemma respects_requireAuth (user : option User) (next : User -> M Response) :
  (forall u, respects R (next u)) -> respects R (requireAuth user next).
Proof.
  intros H. destruct user; simpl; [apply H | apply respects_ret].
Qed.

Lemma respects_requireRole (roles : list string) (u : User)
    (next : M Response) :
  respects R next -> respects R (requireRole roles u next).
Proof.
  intros H. unfold requireRole.
  destruct (existsb _ roles); [exact H | apply respects_ret].
Qed.

Lemma respects_post_resolve_as (u : User) (issueId : id)
    (notes : option string) (file : option string) (now : timestamp) :
  (forall data, respects R (resolveIssue issueId data (user_id u) now)) ->
  respects R (post_resolve (Some u) issueId notes file now).
Proof.
  intros Hres. unfold post_resolve, requireAuth.
  apply respects_requireRole.
  apply respects_try_catch; [|apply respects_ret].
  apply respects_bind.
  - unfold resolveIssueSchema_parse. destruct notes; [|apply respects_throw].
    destruct (_ && _); [apply respects_ret | apply respects_throw].
  - intros d. apply respects_bind; [apply Hres | intros; apply respects_ret].
Qed.

Lemma respects_assign_each_as (issueId : id) (adminIds : list id)
    (assignedBy : id) (notes : option string) (now : timestamp)
    (done : list Assignment) :
  (forall adminId,
     respects R (assignIssue (mkInsertAssignment issueId adminId assignedBy
                                                 notes) now)) ->
  respects R (assign_each issueId adminIds assignedBy notes now done).
Proof.
  intros Hone. revert done.
  induction adminIds as [|a rest IH]; intros done; simpl.
  - apply respects_ret.
  - apply respects_bind; [apply Hone | intros; apply IH].
Qed.

Lemma respects_post_assign_as (u : User) (issueId : id)
    (adminIds : list id) (notes : option string) (now : timestamp) :
  (forall adminId,
     respects R (assignIssue (mkInsertAssignment issueId adminId (user_id u)
                                                 notes) now)) ->
  respects R (post_assign (Some u) issueId adminIds notes now).
Proof.
  intros Hone. unfold post_assign, requireAuth.
  apply respects_requireRole.
  apply respects_try_catch; [|apply respects_ret].
  destruct adminIds as [|a rest]; [apply respects_ret|].
  apply respects_bind; [now apply respects_assign_each_as|].
  intros; apply respects_ret.
Qed.

Hypothesis R_createUser :
  forall insertUser now, respects R (createUser insertUser now).
Hypothesis R_createCategory :
  forall name, respects R (createCategory name).
Hypothesis R_createIssue :
  forall issue now, respects R (createIssue issue now).
Hypothesis R_toggleUpvote :
  forall userId issueId now, respects R (toggleUpvote userId issueId now).
Hypothesis R_resolveIssue :
  forall iid data resolvedBy now,
    respects R (resolveIssue iid data resolvedBy now).
Hypothesis R_assignIssue :
  forall assignment now, respects R (assignIssue assignment now).

Lemma respects_post_register (body : RegisterBody) (hashed : string)
    (now : timestamp) :
  respects R (post_register body hashed now).
Proof.
  unfold post_register. apply respects_bind; [apply respects_get|].
  intros st. destruct (getUserByEmail st (reg_email body)).
  - apply respects_ret.
  - apply respects_bind; [apply R_createUser | intros; apply respects_ret].
Qed.

Lemma respects_post_categories (user : option User) (name : option string) :
  respects R (post_categories user name).
Proof.
  unfold post_categories. apply respects_requireAuth. intros u.
  apply respects_requireRole.
  apply respects_try_catch; [|apply respects_ret].
  apply respects_bind.
  - destruct name; [apply respects_ret | apply respects_throw].
  - intros n. apply respects_bind; [apply R_createCategory|].
    intros; apply respects_ret.
Qed.

Lemma respects_post_issues (user : option User) (body : IssueBody)
    (files : list string) (now : timestamp) :
  respects R (post_issues user body files now).
Proof.
  unfold post_issues, upload_array. apply respects_requireAuth. intros u.
  destruct (5 <? length files); [apply respects_ret|].
  apply respects_try_catch; [|apply respects_ret].
  apply respects_bind.
  - unfold insertIssueSchema_parse.
    destruct body as [[?|] [?|] [?|] [?|] [?|] [?|] ? [?|] [?|]]; simpl;
      first [apply respects_ret | apply respects_throw].
  - intros d. apply respects_bind; [apply R_createIssue|].
    intros; apply respects_ret.
Qed.

Lemma respects_post_upvote (user : option User) (issueId : id)
    (now : timestamp) :
  respects R (post_upvote user issueId now).
Proof.
  unfold post_upvote. apply respects_requireAuth. intros u.
  apply respects_try_catch; [|apply respects_ret].
  apply respects_bind; [apply R_toggleUpvote | intros; apply respects_ret].
Qed.

Lemma respects_post_resolve (user : option User) (issueId : id)
    (notes : option string) (file : option string) (now : timestamp) :
  respects R (post_resolve user issueId notes file now).
Proof.
  unfold post_resolve. apply respects_requireAuth. intros u.
  apply respects_requireRole.
  apply respects_try_catch; [|apply respects_ret].
  apply respects_bind.
  - unfold resolveIssueSchema_parse. destruct notes; [|apply respects_throw].
    destruct (_ && _); [apply respects_ret | apply respects_throw].
  - intros d. apply respects_bind; [apply R_resolveIssue|].
    intros; apply respects_ret.
Qed.

Lemma respects_assign_each (issueId : id) (adminIds : list id)
    (assignedBy : id) (notes : option string) (now : timestamp)
    (done : list Assignment) :
  respects R (assign_each issueId adminIds assignedBy notes now done).
Proof.
  revert done. induction adminIds as [|a rest IH]; intros done; simpl.
  - apply respects_ret.
  - apply respects_bind; [apply R_assignIssue | intros; apply IH].
Qed.

Lemma respects_post_assign (user : option User) (issueId : id)
    (adminIds : list id) (notes : option string) (now : timestamp) :
  respects R (post_assign user issueId adminIds notes now).
Proof.
  unfold post_assign. apply respects_requireAuth. intros u.
  apply respects_requireRole.
  apply respects_try_catch; [|apply respects_ret].
  destruct adminIds as [|a rest]; [apply respects_ret|].
  apply respects_bind; [apply respects_assign_each|].
  intros; apply respects_ret.
Qed.

Lemma respects_get_analytics (user : option User) :
  respects R (get_analytics user).
Proof.
  unfold get_analytics. apply respects_requireAuth. intros u.
  apply respects_requireRole.
  apply respects_bind; [apply respects_get | intros; apply respects_ret].
Qed.

Lemma respects_handle (req : Request) : respects R (handle req).
Proof.
  intros st. unfold handle. destruct (req_call req).
  - apply respects_post_register.
  - apply respects_post_categories.
  - apply respects_post_issues.
  - apply respects_post_upvote.
  - apply respects_post_resolve.
  - apply respects_post_assign.
  - apply respects_get_analytics.
Qed.

Lemma respects_serve (reqs : list Request) (st : Store) :
  R st (serve reqs st).
Proof.
  revert st. induction reqs as [|req reqs IH]; intros st; simpl.
  - apply R_refl.
  - eapply R_trans; [apply respects_handle | apply IH].
Qed.

End Respect.

(** ** Keys and references *)

Lemma table_ok_S (n : id) (ids : list id) :
  table_ok n ids -> table_ok (S n) ids.
Proof.
  intros [Hd Hb]. split; [exact Hd|].
  eapply Forall_impl; [|exact Hb]. simpl. intros; lia.
Qed.

Lemma table_ok_snoc (n : id) (ids : list id) :
  table_ok n ids -> table_ok (S n) (ids ++ [n]).
Proof.
  intros [Hd Hb]. split.
  - apply NoDup_snoc; [exact Hd|]. intros Hin.
    rewrite Forall_forall in Hb. specialize (Hb n Hin). lia.
  - apply Forall_app. split.
    + eapply Forall_impl; [|exact Hb]. simpl. intros; lia.
    + constructor; [lia | constructor].
Qed.

Lemma upvote_ids_kept (n : id) (keep : Upvote -> bool) (rows : list Upvote) :
  table_ok n (map upvote_id rows) ->
  table_ok n (map upvote_id (filter keep rows)).
Proof.
  intros [Hd Hb]. induction rows as [|v rows IH]; simpl in *; [now split|].
  inversion Hd as [|? ? Hnot Hd']; subst.
  inversion Hb as [|? ? Hv Hb']; subst.
  destruct (IH Hd' Hb') as [IHd IHb].
  destruct (keep v); simpl; [|now split].
  split; [|now constructor].
  constructor; [|exact IHd].
  intros Hin. apply Hnot. apply in_map_iff in Hin.
  destruct Hin as [w [Hw Hin]]. apply filter_In in Hin.
  apply in_map_iff. exists w. tauto.
Qed.

Lemma getUserByEmail_None (st : Store) (email : string) :
  getUserByEmail st email = None -> ~ In email (map user_email (users st)).
Proof.
  unfold getUserByEmail. intros Hnone Hin. apply in_map_iff in Hin.
  destruct Hin as [u [He Hu]].
  apply (find_none _ _ Hnone) in Hu. simpl in Hu.
  rewrite He, String.eqb_refl in Hu. discriminate.
Qed.

Lemma name_free (st : Store) (name : string) :
  existsb (fun c => String.eqb (category_name c) name) (categories st) = false ->
  ~ In name (map category_name (categories st)).
Proof.
  intros Hnone Hin. apply in_map_iff in Hin. destruct Hin as [c [Hn Hc]].
  assert (existsb (fun k => String.eqb (category_name k) name) (categories st)
          = true) as Hex.
  { apply existsb_exists. exists c. split; [exact Hc|].
    rewrite Hn. apply String.eqb_refl. }
  congruence.
Qed.

Lemma fk_opt_app (x : option id) (l more : list id) :
  fk_opt x l = true -> fk_opt x (l ++ more) = true.
Proof.
  destruct x as [k|]; simpl; [|reflexivity].
  rewrite !mem_In. intros H. apply in_or_app. now left.
Qed.

Ltac raise_tables :=
  repeat match goal with
  | H : table_ok ?n ?l |- table_ok (S ?n) (?l ++ [?n]) =>
      exact (table_ok_snoc n l H)
  | H : table_ok ?n ?l |- table_ok (S ?n) ?l => exact (table_ok_S n l H)
  | H : table_ok ?n ?l |- table_ok ?n ?l => exact H
  end.

Lemma keys_createUser (insertUser : InsertUser) (now : timestamp) :
  respects (fun st st' => keys_ok st -> keys_ok st') (createUser insertUser now).
Proof.
  intros st [Ku Kc Ki Kv Ka Ke Kn Kir Kar]. unfold createUser.
  destruct (getUserByEmail st _) eqn:E; simpl; [now constructor|].
  constructor; simpl; unfold user_ids, category_ids, issue_ids in *; simpl;
    rewrite ?map_app; simpl; raise_tables; auto.
  - apply NoDup_snoc; [exact Ke | now apply getUserByEmail_None].
  - eapply Forall_impl; [|exact Kir]. simpl. intros i [H1 [H2 H3]].
    split; [apply in_or_app; now left|]. split; [exact H2|].
    now apply fk_opt_app.
  - eapply Forall_impl; [|exact Kar]. simpl. intros a [H1 H2].
    split; apply in_or_app; now left.
Qed.

Lemma keys_createCategory (name : string) :
  respects (fun st st' => keys_ok st -> keys_ok st') (createCategory name).
Proof.
  intros st [Ku Kc Ki Kv Ka Ke Kn Kir Kar]. unfold createCategory.
  destruct (existsb _ (categories st)) eqn:E; simpl; [now constructor|].
  constructor; simpl; unfold user_ids, category_ids, issue_ids in *; simpl;
    rewrite ?map_app; simpl; raise_tables; auto.
  - apply NoDup_snoc; [exact Kn | now apply name_free].
  - eapply Forall_impl; [|exact Kir]. simpl. intros i [H1 [H2 H3]].
    split; [exact H1|]. split; [now apply fk_opt_app | exact H3].
Qed.

Lemma keys_createIssue (issue : InsertIssue) (now : timestamp) :
  respects (fun st st' => keys_ok st -> keys_ok st') (createIssue issue now).
Proof.
  intros st [Ku Kc Ki Kv Ka Ke Kn Kir Kar]. unfold createIssue.
  destruct (fk_opt _ _) eqn:Ec; simpl; [|now constructor].
  destruct (mem (ii_userId issue) _) eqn:Eu; simpl; [|now constructor].
  constructor; simpl; unfold user_ids, category_ids, issue_ids in *; simpl;
    rewrite ?map_app; simpl; raise_tables; auto.
  apply Forall_app. split; [exact Kir|].
  constructor; [|constructor]. simpl.
  split; [now apply mem_In | split; [exact Ec | reflexivity]].
Qed.

Lemma update_where_rows (P Q : Issue -> Prop) (k : id) (f : Issue -> Issue)
    (l : list Issue) :
  Forall P l ->
  (forall i, In i l -> P i -> issue_id i = k -> Q (f i)) ->
  (forall i, P i -> issue_id i <> k -> Q i) ->
  Forall Q (update_where k f l).
Proof.
  intros H Hhit Hmiss. rewrite Forall_forall in *. intros j Hj.
  unfold update_where in Hj. apply in_map_iff in Hj.
  destruct Hj as [i [Hij Hi]]. destruct (issue_id i =? k) eqn:E; subst j.
  - apply Nat.eqb_eq in E. now apply Hhit; auto.
  - apply Nat.eqb_neq in E. now apply Hmiss; auto.
Qed.

Lemma keys_resolveIssue (iid : id) (data : ResolveIssue) (resolvedBy : id)
    (now : timestamp) :
  respects (fun st st' => keys_ok st -> keys_ok st')
           (resolveIssue iid data resolvedBy now).
Proof.
  intros st [Ku Kc Ki Kv Ka Ke Kn Kir Kar]. unfold resolveIssue.
  destruct (mem iid (issue_ids st) && negb (mem resolvedBy (user_ids st)))
    eqn:E; simpl; [now constructor|].
  constructor; simpl; unfold user_ids, category_ids, issue_ids in *; simpl;
    rewrite ?update_where_ids by reflexivity; auto.
  eapply update_where_rows; [exact Kir| |]; simpl; [|tauto].
  intros i Hi [H1 [H2 H3]] Hid. split; [exact H1|]. split; [exact H2|].
  assert (mem iid (map issue_id (issues st)) = true) as Hin.
  { apply mem_In. rewrite <- Hid. now apply in_map. }
  rewrite Hin in E. simpl in E.
  now destruct (mem resolvedBy (map user_id (users st))).
Qed.

Lemma keys_assignIssue (assignment : InsertAssignment) (now : timestamp) :
  respects (fun st st' => keys_ok st -> keys_ok st') (assignIssue assignment now).
Proof.
  intros st [Ku Kc Ki Kv Ka Ke Kn Kir Kar].
  unfold assignIssue, bind, insertAssignment.
  destruct (mem (ia_issueId assignment) (issue_ids st)) eqn:Ei; simpl;
    [|now constructor].
  destruct (mem (ia_adminId assignment) (user_ids st)) eqn:Ea; simpl;
    [|now constructor].
  destruct (mem (ia_assignedBy assignment) (user_ids st)) eqn:Eb; simpl;
    [|now constructor].
  constructor; simpl; unfold user_ids, category_ids, issue_ids in *; simpl;
    rewrite ?update_where_ids by reflexivity; rewrite ?map_app; simpl;
    raise_tables; auto.
  - eapply update_where_rows; [exact Kir| |]; simpl; tauto.
  - apply Forall_app. split; [exact Kar|].
    constructor; [|constructor]. simpl. split; now apply mem_In.
Qed.

Lemma keys_toggleUpvote (userId issueId : id) (now : timestamp) :
  respects (fun st st' => keys_ok st -> keys_ok st')
           (toggleUpvote userId issueId now).
Proof.
  intros st [Ku Kc Ki Kv Ka Ke Kn Kir Kar].
  unfold toggleUpvote, toggleUpvote_write, bind, selectUpvote.
  destruct (firstn 1 _) as [|e l]; simpl.
  - unfold insertUpvote. destruct (mem userId _ && mem issueId _); simpl;
      [|now constructor].
    constructor; simpl; unfold user_ids, category_ids, issue_ids in *; simpl;
      rewrite ?map_app; simpl; raise_tables; auto.
  - constructor; simpl; auto. now apply upvote_ids_kept.
Qed.

Lemma keys_step_refl (st : Store) : keys_ok st -> keys_ok st.
Proof. auto. Qed.

Lemma keys_step_trans (a b c : Store) :
  (keys_ok a -> keys_ok b) -> (keys_ok b -> keys_ok c) -> keys_ok a -> keys_ok c.
Proof. auto. Qed.

Lemma keys_ok_empty : keys_ok empty_store.
Proof. constructor; simpl; repeat constructor. Qed.

Lemma reachable_keys_ok (st : Store) : reachable st -> keys_ok st.
Proof.
  intros [reqs ->].
  apply (respects_serve (fun a b => keys_ok a -> keys_ok b)
           keys_step_refl keys_step_trans
           keys_createUser keys_createCategory keys_createIssue
           keys_toggleUpvote keys_resolveIssue keys_assignIssue).
  apply keys_ok_empty.
Qed.

(** X1: in every store the served requests can reach, the primary keys of
    each table are pairwise distinct, no two users share an email, no two
    categories share a name, and every reference column names a row that
    exists: the reporter, category and resolver of an issue, the user and
    issue of an upvote, the issue, admin and assigner of an assignment. *)
Theorem keys_and_references (st : Store) :
  reachable st ->
  NoDup (user_ids st) /\ NoDup (category_ids st) /\ NoDup (issue_ids st) /\
  NoDup (map upvote_id (upvotes st)) /\
  NoDup (map assignment_id (assignments st)) /\
  NoDup (map user_email (users st)) /\
  NoDup (map category_name (categories st)) /\
  (forall i, In i (issues st) ->
     In (issue_userId i) (user_ids st) /\
     (forall c, issue_categoryId i = Some c -> In c (category_ids st)) /\
     (forall r, issue_resolvedBy i = Some r -> In r (user_ids st))) /\
  (forall v, In v (upvotes st) ->
     In (upvote_userId v) (user_ids st) /\ In (upvote_issueId v) (issue_ids st)) /\
  (forall a, In a (assignments st) ->
     In (assignment_issueId a) (issue_ids st) /\
     In (assignment_adminId a) (user_ids st) /\
     In (assignment_assignedBy a) (user_ids st)).
Proof.
  intros Hr. pose proof (reachable_ok st Hr) as [_ Hafk Hvfk _ _].
  destruct (reachable_keys_ok st Hr) as [Ku Kc Ki Kv Ka Ke Kn Kir Kar].
  repeat (split; [first [apply Ku | apply Kc | apply Ki | apply Kv | apply Ka
                        | exact Ke | exact Kn]|]).
  rewrite Forall_forall in *. split; [|split].
  - intros i Hi. destruct (Kir i Hi) as [H1 [H2 H3]].
    split; [exact H1|]. split.
    + intros c Hc. rewrite Hc in H2. now apply mem_In.
    + intros r Hres. rewrite Hres in H3. now apply mem_In.
  - exact Hvfk.
  - intros a Ha. destruct (Kar a Ha). split; [now apply Hafk | now split].
Qed.

Lemma keys_and_references_witness :
  reachable st_reassigned /\
  NoDup (user_ids st_reassigned) /\
  NoDup (map user_email (users st_reassigned)) /\
  (forall a, In a (assignments st_reassigned) ->
     In (assignment_issueId a) (issue_ids st_reassigned) /\
     In (assignment_adminId a) (user_ids st_reassigned) /\
     In (assignment_assignedBy a) (user_ids st_reassigned)).
Proof.
  assert (reachable st_reassigned) as Hr.
  { exists (registrations
            ++ [submit_pothole; assign_to_A; resolve_by_A; assign_again])%list.
    reflexivity. }
  split; [exact Hr|].
  destruct (keys_and_references st_reassigned Hr)
    as [Hu [_ [_ [_ [_ [He [_ [_ [_ Ha]]]]]]]]].
  split; [exact Hu|]. split; [exact He | exact Ha].
Defined.

(** ** Registration and lookup *)

Lemma find_snoc_new (A : Type) (p : A -> bool) (l : list A) (x : A) :
  find p l = None -> p x = true -> find p (l ++ [x]) = Some x.
Proof.
  intros Hnone Hx. induction l as [|y l IH]; simpl in *.
  - now rewrite Hx.
  - destruct (p y); [discriminate | now apply IH].
Qed.

Lemma getUser_fresh (st : Store) :
  Forall (fun k => k < nextId st) (user_ids st) -> getUser st (nextId st) = None.
Proof.
  intros Hb. unfold getUser. destruct (find _ (users st)) as [u|] eqn:E;
    [|reflexivity].
  apply find_some in E. destruct E as [Hu Heq]. apply Nat.eqb_eq in Heq.
  rewrite Forall_forall in Hb.
  assert (In (user_id u) (user_ids st)) as Hin by now apply in_map.
  specialize (Hb _ Hin). lia.
Qed.

Lemma post_register_new (st : Store) (now : timestamp) (body : RegisterBody)
    (hashed : string) :
  getUserByEmail st (reg_email body) = None ->
  fst (post_register body hashed now st) =
    mkStore (users st
             ++ [mkUser (nextId st) (reg_email body) hashed (reg_name body)
                        match reg_role body with
                        | Some r => r
                        | None => default_role
                        end now])
            (categories st) (issues st) (upvotes st) (assignments st)
            (S (nextId st)).
Proof.
  intros Hfree. unfold post_register, bind, get. rewrite Hfree.
  unfold createUser. simpl. rewrite Hfree. reflexivity.
Qed.



(** ** Who may write *)

Lemma role_allowed (u : User) (role : string) :
  existsb (String.eqb (user_role u)) [role] = true -> user_role u = role.
Proof.
  simpl. rewrite orb_false_r. apply String.eqb_eq.
Qed.

Lemma refused_post_register (body : RegisterBody) (hashed : string)
    (now : timestamp) (st : Store) :
  accepted (snd (post_register body hashed now st)) = false ->
  fst (post_register body hashed now st) = st.
Proof.
  unfold post_register, bind, get, createUser, json, ret. simpl.
  destruct (getUserByEmail st (reg_email body)) eqn:E; simpl; [auto|].
  rewrite E. simpl. discriminate.
Qed.

Lemma refused_post_categories (user : option User) (name : option string)
    (st : Store) :
  accepted (snd (post_categories user name st)) = false ->
  fst (post_categories user name st) = st.
Proof.
  unfold post_categories, requireAuth, requireRole, try_catch, bind,
    insertCategorySchema_parse, createCategory, json, ret, throw.
  destruct user as [u|]; simpl; [|auto].
  destruct (String.eqb (user_role u) "superadmin" || false); simpl;
    [|auto].
  destruct name as [n|]; simpl; [|auto].
  destruct (existsb _ (categories st)); simpl; [auto | discriminate].
Qed.

Lemma refused_post_issues (user : option User) (body : IssueBody)
    (files : list string) (now : timestamp) (st : Store) :
  accepted (snd (post_issues user body files now st)) = false ->
  fst (post_issues user body files now st) = st.
Proof.
  unfold post_issues, requireAuth, upload_array, try_catch, bind,
    insertIssueSchema_parse, createIssue, json, ret, throw.
  destruct user as [u|]; simpl; [|auto].
  destruct (5 <? length files); simpl; [auto|].
  destruct body as [[?|] [?|] [?|] [?|] [?|] [?|] ? [?|] [?|]]; simpl;
    try auto.
  destruct (fk_opt _ _ && mem _ _); simpl; [discriminate | auto].
Qed.

Lemma refused_post_upvote (user : option User) (issueId : id)
    (now : timestamp) (st : Store) :
  accepted (snd (post_upvote user issueId now st)) = false ->
  fst (post_upvote user issueId now st) = st.
Proof.
  unfold post_upvote, requireAuth, try_catch, bind, toggleUpvote,
    toggleUpvote_write, bind, selectUpvote, insertUpvote, deleteUpvote,
    countUpvotes, json, ret.
  destruct user as [u|]; simpl; [|auto].
  destruct (filter (upvote_matches (user_id u) issueId) (upvotes st))
    as [|e l]; simpl; [|discriminate].
  destruct (mem _ _ && mem _ _); simpl; [discriminate | auto].
Qed.

Lemma refused_post_resolve (user : option User) (issueId : id)
    (notes : option string) (file : option string) (now : timestamp)
    (st : Store) :
  accepted (snd (post_resolve user issueId notes file now st)) = false ->
  fst (post_resolve user issueId notes file now st) = st.
Proof.
  unfold post_resolve, requireAuth, requireRole, try_catch, bind,
    resolveIssueSchema_parse, resolveIssue, json, ret, throw.
  destruct user as [u|]; simpl; [|auto].
  destruct (String.eqb (user_role u) "admin" || false); simpl; [|auto].
  destruct notes as [n|]; simpl; [|auto].
  destruct n as [|c n]; simpl; [auto|].
  destruct file as [f|]; simpl; [|auto].
  destruct (mem issueId _ && negb _); simpl; [auto | discriminate].
Qed.

Lemma get_analytics_reads (user : option User) (st : Store) :
  fst (get_analytics user st) = st.
Proof.
  unfold get_analytics, requireAuth, requireRole, bind, get, json, ret.
  destruct user as [u|]; simpl; [|reflexivity].
  destruct (String.eqb (user_role u) "admin" || _); reflexivity.
Qed.

(** X4: apart from the assign route, a request that is not answered with a
    status below 400 has written nothing: the store after it is the store
    before it. *)
Theorem refused_writes_nothing (st : Store) (req : Request) :
  is_assign (req_call req) = false ->
  accepted (snd (handle req st)) = false ->
  fst (handle req st) = st.
Proof.
  intros Hcall. unfold handle. destruct (req_call req); simpl in Hcall.
  - apply refused_post_register.
  - apply refused_post_categories.
  - apply refused_post_issues.
  - apply refused_post_upvote.
  - apply refused_post_resolve.
  - discriminate.
  - intros _. apply get_analytics_reads.
Qed.

Lemma refused_writes_nothing_witness :
  accepted (snd (handle (mkRequest (Some citizen) 9
                           (PostIssues pothole ["1"; "2"; "3"; "4"; "5"; "6"]))
                        st_registered)) = false /\
  fst (handle (mkRequest (Some citizen) 9
                 (PostIssues pothole ["1"; "2"; "3"; "4"; "5"; "6"]))
              st_registered) = st_registered.
Proof.
  split; [reflexivity|].
  exact (refused_writes_nothing st_registered
           (mkRequest (Some citizen) 9
              (PostIssues pothole ["1"; "2"; "3"; "4"; "5"; "6"]))
           eq_refl eq_refl).
Defined.

(** X5: an authenticated caller whose role is not on the list of a route
    is answered 403 "Insufficient permissions" and writes nothing: creating
    a category and assigning need superadmin, resolving needs admin, the
    analytics need admin or superadmin. *)
Theorem wrong_role_forbidden (st : Store) (req : Request) (u : User) :
  req_user st req = Some u ->
  match req_call req with
  | PostCategories _ | PostAssign _ _ _ => user_role u <> "superadmin"
  | PostResolve _ _ _ => user_role u <> "admin"
  | GetAnalytics => user_role u <> "admin" /\ user_role u <> "superadmin"
  | PostRegister _ _ | PostIssues _ _ | PostUpvote _ => False
  end ->
  handle req st =
    (st, Return (mkResponse 403 (Message "Insufficient permissions"))).
Proof.
  intros Hu Hrole. unfold handle. rewrite Hu.
  destruct (req_call req); try contradiction;
    unfold post_categories, post_resolve, post_assign, get_analytics,
      requireAuth, requireRole; simpl.
  - apply String.eqb_neq in Hrole. rewrite Hrole. reflexivity.
  - apply String.eqb_neq in Hrole. rewrite Hrole. reflexivity.
  - apply String.eqb_neq in Hrole. rewrite Hrole. reflexivity.
  - destruct Hrole as [Ha Hs]. apply String.eqb_neq in Ha, Hs.
    rewrite Ha, Hs. reflexivity.
Qed.

Lemma wrong_role_forbidden_witness :
  req_user st_submitted
           (mkRequest (Some citizen) 9
              (PostResolve issue1 (Some "done") (Some "p.png")))
    = Some (mkUser citizen "cit@example.org" "h0" "Cit" "citizen" 1) /\
  handle (mkRequest (Some citizen) 9
            (PostResolve issue1 (Some "done") (Some "p.png"))) st_submitted =
    (st_submitted, Return (mkResponse 403 (Message "Insufficient permissions"))).
Proof.
  split; [reflexivity|].
  refine (wrong_role_forbidden st_submitted
            (mkRequest (Some citizen) 9
               (PostResolve issue1 (Some "done") (Some "p.png")))
            (mkUser citizen "cit@example.org" "h0" "Cit" "citizen" 1)
            eq_refl _).
  simpl. discriminate.
Defined.

(** *** What each storage operation leaves alone *)

Ltac frame_of op :=
  intros st; unfold op; simpl;
  repeat match goal with
  | |- context [if ?b then _ else _] => destruct b; simpl
  | |- context [match ?x with _ => _ end] => destruct x; simpl
  end; reflexivity.

Lemma createCategory_users (name : string) :
  respects (fun a b => users b = users a) (createCategory name).
Proof. frame_of createCategory. Qed.

Lemma createIssue_users (issue : InsertIssue) (now : timestamp) :
  respects (fun a b => users b = users a) (createIssue issue now).
Proof. frame_of createIssue. Qed.

Lemma resolveIssue_users (iid : id) (data : ResolveIssue) (resolvedBy : id)
    (now : timestamp) :
  respects (fun a b => users b = users a) (resolveIssue iid data resolvedBy now).
Proof. frame_of resolveIssue. Qed.

Lemma toggleUpvote_frame (userId issueId : id) (now : timestamp) (st : Store) :
  let st' := fst (toggleUpvote userId issueId now st) in
  users st' = users st /\ categories st' = categories st /\
  issues st' = issues st /\ assignments st' = assignments st.
Proof.
  unfold toggleUpvote, toggleUpvote_write, bind, selectUpvote.
  destruct (firstn 1 _) as [|e l]; simpl; [|auto].
  unfold insertUpvote. destruct (mem userId _ && mem issueId _); simpl; auto.
Qed.

Lemma assignIssue_frame (assignment : InsertAssignment) (now : timestamp)
    (st : Store) :
  let st' := fst (assignIssue assignment now st) in
  users st' = users st /\ categories st' = categories st /\
  upvotes st' = upvotes st /\
  (issues st' = issues st \/
   issues st' = update_where (ia_issueId assignment) (set_status Assigned)
                             (issues st)).
Proof.
  unfold assignIssue, bind, insertAssignment.
  destruct (mem _ _ && mem _ _ && mem _ _); simpl; auto.
Qed.

Lemma toggleUpvote_users (userId issueId : id) (now : timestamp) :
  respects (fun a b => users b = users a) (toggleUpvote userId issueId now).
Proof. intros st. apply toggleUpvote_frame. Qed.

Lemma assignIssue_users (assignment : InsertAssignment) (now : timestamp) :
  respects (fun a b => users b = users a) (assignIssue assignment now).
Proof. intros st. apply assignIssue_frame. Qed.

Lemma createUser_assignments (insertUser : InsertUser) (now : timestamp) :
  respects (fun a b => assignments b = assignments a) (createUser insertUser now).
Proof. frame_of createUser. Qed.

Lemma createIssue_assignments (issue : InsertIssue) (now : timestamp) :
  respects (fun a b => assignments b = assignments a) (createIssue issue now).
Proof. frame_of createIssue. Qed.

Lemma resolveIssue_assignments (iid : id) (data : ResolveIssue)
    (resolvedBy : id) (now : timestamp) :
  respects (fun a b => assignments b = assignments a)
           (resolveIssue iid data resolvedBy now).
Proof. frame_of resolveIssue. Qed.

Lemma toggleUpvote_assignments (userId issueId : id) (now : timestamp) :
  respects (fun a b => assignments b = assignments a)
           (toggleUpvote userId issueId now).
Proof. intros st. apply toggleUpvote_frame. Qed.

Lemma createUser_categories (insertUser : InsertUser) (now : timestamp) :
  respects (fun a b => categories b = categories a) (createUser insertUser now).
Proof. frame_of createUser. Qed.

Lemma createIssue_categories (issue : InsertIssue) (now : timestamp) :
  respects (fun a b => categories b = categories a) (createIssue issue now).
Proof. frame_of createIssue. Qed.

Lemma resolveIssue_categories (iid : id) (data : ResolveIssue)
    (resolvedBy : id) (now : timestamp) :
  respects (fun a b => categories b = categories a)
           (resolveIssue iid data resolvedBy now).
Proof. frame_of resolveIssue. Qed.

Lemma toggleUpvote_categories (userId issueId : id) (now : timestamp) :
  respects (fun a b => categories b = categories a)
           (toggleUpvote userId issueId now).
Proof. intros st. apply toggleUpvote_frame. Qed.

Lemma same_refl (A : Type) (f : Store -> A) (st : Store) : f st = f st.
Proof. reflexivity. Qed.

Lemma same_trans (A : Type) (f : Store -> A) (a b c : Store) :
  f b = f a -> f c = f b -> f c = f a.
Proof. congruence. Qed.

Lemma lacks_role (u : User) (role : string) (next : M Response) (st : Store) :
  user_role u <> role ->
  requireRole [role] u next st =
    (st, Return (mkResponse 403 (Message "Insufficient permissions"))).
Proof.
  intros Hlack. unfold requireRole. simpl.
  apply String.eqb_neq in Hlack. rewrite Hlack. reflexivity.
Qed.

Lemma post_categories_guard (st : Store) (user : option User)
    (name : option string) :
  (forall u, user = Some u -> user_role u <> "superadmin") ->
  fst (post_categories user name st) = st.
Proof.
  intros Hlack. unfold post_categories. destruct user as [u|]; simpl;
    [|reflexivity].
  rewrite lacks_role by now apply Hlack. reflexivity.
Qed.

Lemma post_assign_guard (st : Store) (user : option User) (issueId : id)
    (adminIds : list id) (notes : option string) (now : timestamp) :
  (forall u, user = Some u -> user_role u <> "superadmin") ->
  fst (post_assign user issueId adminIds notes now st) = st.
Proof.
  intros Hlack. unfold post_assign. destruct user as [u|]; simpl;
    [|reflexivity].
  rewrite lacks_role by now apply Hlack. reflexivity.
Qed.

Lemma post_resolve_guard (st : Store) (user : option User) (issueId : id)
    (notes : option string) (file : option string) (now : timestamp) :
  (forall u, user = Some u -> user_role u <> "admin") ->
  fst (post_resolve user issueId notes file now st) = st.
Proof.
  intros Hlack. unfold post_resolve. destruct user as [u|]; simpl;
    [|reflexivity].
  rewrite lacks_role by now apply Hlack. reflexivity.
Qed.

Lemma resolution_kept_refl (st : Store) : resolution_kept st st.
Proof. exists 0. simpl. now rewrite app_nil_r. Qed.

Lemma resolution_kept_trans (a b c : Store) :
  resolution_kept a b -> resolution_kept b c -> resolution_kept a c.
Proof.
  intros [n Hn] [m Hm]. exists (n + m).
  rewrite Hm, Hn, <- app_assoc, repeat_app. reflexivity.
Qed.

Lemma resolution_kept_same (a b : Store) :
  issues b = issues a -> resolution_kept a b.
Proof.
  intros H. exists 0. rewrite H. simpl. now rewrite app_nil_r.
Qed.

Lemma set_status_resolution (k : id) (s : Status) (l : list Issue) :
  map resolution_of (update_where k (set_status s) l) = map resolution_of l.
Proof.
  unfold update_where. rewrite map_map. apply map_ext. intros i.
  destruct (issue_id i =? k); reflexivity.
Qed.

Lemma createUser_resolution (insertUser : InsertUser) (now : timestamp) :
  respects resolution_kept (createUser insertUser now).
Proof.
  intros st. apply resolution_kept_same. unfold createUser.
  destruct (getUserByEmail st _); reflexivity.
Qed.

Lemma createCategory_resolution (name : string) :
  respects resolution_kept (createCategory name).
Proof.
  intros st. apply resolution_kept_same. unfold createCategory.
  destruct (existsb _ _); reflexivity.
Qed.

Lemma createIssue_resolution (issue : InsertIssue) (now : timestamp) :
  respects resolution_kept (createIssue issue now).
Proof.
  intros st. unfold createIssue. destruct (fk_opt _ _ && mem _ _); simpl.
  - exists 1. simpl. now rewrite map_app.
  - apply resolution_kept_refl.
Qed.

Lemma toggleUpvote_resolution (userId issueId : id) (now : timestamp) :
  respects resolution_kept (toggleUpvote userId issueId now).
Proof. intros st. apply resolution_kept_same. apply toggleUpvote_frame. Qed.

Lemma assignIssue_resolution (assignment : InsertAssignment) (now : timestamp) :
  respects resolution_kept (assignIssue assignment now).
Proof.
  intros st. destruct (assignIssue_frame assignment now st)
    as [_ [_ [_ [H|H]]]].
  - now apply resolution_kept_same.
  - exists 0. rewrite H, set_status_resolution. simpl. now rewrite app_nil_r.
Qed.

(** X6: what a request can write depends on who sends it.  Only the
    register route adds or changes a user row.  A request whose caller is
    not a superadmin leaves the assignments and the categories as they are.
    A request whose caller is not an admin leaves the resolution columns of
    every issue as they are (issues it adds have them null). *)
Theorem writes_need_role (st : Store) (req : Request) :
  let st' := fst (handle req st) in
  (is_register (req_call req) = false -> users st' = users st) /\
  (caller_lacks st req "superadmin" ->
     assignments st' = assignments st /\ categories st' = categories st) /\
  (caller_lacks st req "admin" ->
     exists n, map resolution_of (issues st')
               = (map resolution_of (issues st) ++ repeat no_resolution n)%list).
Proof.
  unfold caller_lacks, handle. split; [|split].
  - intros Hcall. destruct (req_call req); simpl in Hcall; try discriminate.
    + apply (respects_post_categories (fun a b => users b = users a)
               (same_refl _ users) (same_trans _ users) createCategory_users).
    + apply (respects_post_issues (fun a b => users b = users a)
               (same_refl _ users) (same_trans _ users) createIssue_users).
    + apply (respects_post_upvote (fun a b => users b = users a)
               (same_refl _ users) (same_trans _ users) toggleUpvote_users).
    + apply (respects_post_resolve (fun a b => users b = users a)
               (same_refl _ users) (same_trans _ users) resolveIssue_users).
    + apply (respects_post_assign (fun a b => users b = users a)
               (same_refl _ users) (same_trans _ users) assignIssue_users).
    + now rewrite get_analytics_reads.
  - intros Hlack. destruct (req_call req).
    + split.
      * apply (respects_post_register (fun a b => assignments b = assignments a)
                 (same_refl _ assignments) (same_trans _ assignments)
                 createUser_assignments).
      * apply (respects_post_register (fun a b => categories b = categories a)
                 (same_refl _ categories) (same_trans _ categories)
                 createUser_categories).
    + rewrite post_categories_guard by exact Hlack. split; reflexivity.
    + split.
      * apply (respects_post_issues (fun a b => assignments b = assignments a)
                 (same_refl _ assignments) (same_trans _ assignments)
                 createIssue_assignments).
      * apply (respects_post_issues (fun a b => categories b = categories a)
                 (same_refl _ categories) (same_trans _ categories)
                 createIssue_categories).
    + split.
      * apply (respects_post_upvote (fun a b => assignments b = assignments a)
                 (same_refl _ assignments) (same_trans _ assignments)
                 toggleUpvote_assignments).
      * apply (respects_post_upvote (fun a b => categories b = categories a)
                 (same_refl _ categories) (same_trans _ categories)
                 toggleUpvote_categories).
    + split.
      * apply (respects_post_resolve (fun a b => assignments b = assignments a)
                 (same_refl _ assignments) (same_trans _ assignments)
                 resolveIssue_assignments).
      * apply (respects_post_resolve (fun a b => categories b = categories a)
                 (same_refl _ categories) (same_trans _ categories)
                 resolveIssue_categories).
    + rewrite post_assign_guard by exact Hlack. split; reflexivity.
    + rewrite get_analytics_reads. split; reflexivity.
  - intros Hlack. destruct (req_call req).
    + apply (respects_post_register resolution_kept resolution_kept_refl
               resolution_kept_trans createUser_resolution).
    + apply (respects_post_categories resolution_kept resolution_kept_refl
               resolution_kept_trans createCategory_resolution).
    + apply (respects_post_issues resolution_kept resolution_kept_refl
               resolution_kept_trans createIssue_resolution).
    + apply (respects_post_upvote resolution_kept resolution_kept_refl
               resolution_kept_trans toggleUpvote_resolution).
    + rewrite post_resolve_guard by exact Hlack.
      apply resolution_kept_refl.
    + apply (respects_post_assign resolution_kept resolution_kept_refl
               resolution_kept_trans assignIssue_resolution).
    + rewrite get_analytics_reads. apply resolution_kept_refl.
Qed.

Lemma writes_need_role_witness :
  caller_lacks st_assigned
    (mkRequest (Some citizen) 9 (PostAssign issue1 [adminA] None)) "superadmin" /\
  assignments (fst (handle (mkRequest (Some citizen) 9
                              (PostAssign issue1 [adminA] None)) st_assigned))
    = assignments st_assigned.
Proof.
  assert (caller_lacks st_assigned
            (mkRequest (Some citizen) 9 (PostAssign issue1 [adminA] None))
            "superadmin") as Hlack.
  { intros u Hu. simpl in Hu. inversion Hu; subst. simpl. discriminate. }
  split; [exact Hlack|].
  exact (proj1 (proj1 (proj2 (writes_need_role st_assigned
                  (mkRequest (Some citizen) 9 (PostAssign issue1 [adminA] None))))
                Hlack)).
Defined.

(** ** Who resolved, who assigned *)

Lemma user_with_role_same (a b : Store) (uid : id) (role : string) :
  users b = users a -> user_with_role a uid role -> user_with_role b uid role.
Proof. intros H [u Hu]. exists u. now rewrite H. Qed.

Lemma user_with_role_more (a b : Store) (uid : id) (role : string) :
  extends (users a) (users b) ->
  user_with_role a uid role -> user_with_role b uid role.
Proof.
  intros [more H] [u [Hin Hu]]. exists u. rewrite H.
  split; [apply in_or_app; now left | exact Hu].
Qed.

Lemma roles_ok_users (a b : Store) :
  extends (users a) (users b) ->
  issues b = issues a -> assignments b = assignments a ->
  roles_ok a -> roles_ok b.
Proof.
  intros Hu Hi Ha [Hres Hasg]. constructor.
  - rewrite Hi. eapply Forall_impl; [|exact Hres]. simpl.
    intros i H r Hr. eapply user_with_role_more; eauto.
  - rewrite Ha. eapply Forall_impl; [|exact Hasg]. simpl.
    intros a0 H. eapply user_with_role_more; eauto.
Qed.

Lemma extends_refl (A : Type) (l : list A) : extends l l.
Proof. exists []. now rewrite app_nil_r. Qed.

Lemma extends_trans (A : Type) (l1 l2 l3 : list A) :
  extends l1 l2 -> extends l2 l3 -> extends l1 l3.
Proof.
  intros [m1 H1] [m2 H2]. exists (m1 ++ m2)%list.
  now rewrite H2, H1, app_assoc.
Qed.

Lemma roles_createUser (insertUser : InsertUser) (now : timestamp) :
  respects (fun a b => roles_ok a -> roles_ok b) (createUser insertUser now).
Proof.
  intros st. unfold createUser. destruct (getUserByEmail st _); simpl; [auto|].
  apply roles_ok_users; simpl; auto. now eexists.
Qed.

Lemma roles_createCategory (name : string) :
  respects (fun a b => roles_ok a -> roles_ok b) (createCategory name).
Proof.
  intros st. unfold createCategory. destruct (existsb _ _); simpl; [auto|].
  apply roles_ok_users; simpl; auto using extends_refl.
Qed.

Lemma roles_createIssue (issue : InsertIssue) (now : timestamp) :
  respects (fun a b => roles_ok a -> roles_ok b) (createIssue issue now).
Proof.
  intros st. unfold createIssue. destruct (fk_opt _ _ && mem _ _); simpl;
    [|auto].
  intros [Hres Hasg]. constructor; simpl.
  - apply Forall_app. split; [exact Hres|].
    constructor; [|constructor]. simpl. discriminate.
  - exact Hasg.
Qed.

Lemma roles_toggleUpvote (userId issueId : id) (now : timestamp) :
  respects (fun a b => roles_ok a -> roles_ok b)
           (toggleUpvote userId issueId now).
Proof.
  intros st. destruct (toggleUpvote_frame userId issueId now st)
    as [Hu [_ [Hi Ha]]].
  apply roles_ok_users; auto. rewrite Hu. apply extends_refl.
Qed.

Lemma acts_as_refl (uid : id) (role : string) (st : Store) :
  acts_as uid role st st.
Proof. intros H1 H2. now split. Qed.

Lemma acts_as_trans (uid : id) (role : string) (a b c : Store) :
  acts_as uid role a b -> acts_as uid role b c -> acts_as uid role a c.
Proof.
  intros Hab Hbc H1 H2. destruct (Hab H1 H2) as [H3 H4]. now apply Hbc.
Qed.

Lemma resolveIssue_acts (uid iid : id) (now : timestamp) (data : ResolveIssue) :
  respects (acts_as uid "admin") (resolveIssue iid data uid now).
Proof.
  intros st Hadmin [Hres Hasg]. unfold resolveIssue.
  destruct (mem iid _ && negb _); simpl; [now split|].
  split; [|exact Hadmin].
  constructor; simpl; [|exact Hasg].
  eapply update_where_Forall; [exact Hres| |]; simpl; [|auto].
  intros i _ _ r Hr. inversion Hr; subst. exact Hadmin.
Qed.

Lemma assignIssue_acts (uid iid adminId : id) (notes : option string)
    (now : timestamp) :
  respects (acts_as uid "superadmin")
           (assignIssue (mkInsertAssignment iid adminId uid notes) now).
Proof.
  intros st Hsuper [Hres Hasg]. unfold assignIssue, bind, insertAssignment.
  destruct (mem _ _ && mem _ _ && mem _ _); simpl; [|now split].
  split; [|exact Hsuper].
  constructor; simpl.
  - eapply update_where_Forall; [exact Hres| |]; simpl; auto.
  - apply Forall_app. split; [exact Hasg|].
    constructor; [exact Hsuper | constructor].
Qed.

Lemma req_user_row (st : Store) (req : Request) (u : User) :
  req_user st req = Some u -> In u (users st).
Proof.
  unfold req_user, getUser. destruct (req_session req); [|discriminate].
  intros H. now apply find_some in H.
Qed.

Lemma roles_step (st : Store) (req : Request) :
  roles_ok st -> roles_ok (fst (handle req st)).
Proof.
  intros Hok. unfold handle.
  pose (Rr := fun a b : Store => roles_ok a -> roles_ok b).
  assert (forall st, Rr st st) as Rrefl by (intros ? ?; assumption).
  assert (forall a b c, Rr a b -> Rr b c -> Rr a c) as Rtrans
    by (unfold Rr; auto).
  destruct (req_call req).
  - now apply (respects_post_register Rr Rrefl Rtrans roles_createUser).
  - now apply (respects_post_categories Rr Rrefl Rtrans roles_createCategory).
  - now apply (respects_post_issues Rr Rrefl Rtrans roles_createIssue).
  - now apply (respects_post_upvote Rr Rrefl Rtrans roles_toggleUpvote).
  - destruct (req_user st req) as [u|] eqn:Eu; [|exact Hok].
    destruct (String.eqb (user_role u) "admin") eqn:Er.
    + apply String.eqb_eq in Er.
      assert (user_with_role st (user_id u) "admin") as Hadmin.
      { exists u. split; [now apply (req_user_row st req)|now split]. }
      apply (respects_post_resolve_as (acts_as (user_id u) "admin")
               (acts_as_refl _ _) (acts_as_trans _ _) u);
        [intros data; apply resolveIssue_acts | exact Hadmin | exact Hok].
    + apply String.eqb_neq in Er. rewrite post_resolve_guard; [exact Hok|].
      intros v Hv. now inversion Hv; subst.
  - destruct (req_user st req) as [u|] eqn:Eu; [|exact Hok].
    destruct (String.eqb (user_role u) "superadmin") eqn:Er.
    + apply String.eqb_eq in Er.
      assert (user_with_role st (user_id u) "superadmin") as Hsuper.
      { exists u. split; [now apply (req_user_row st req)|now split]. }
      apply (respects_post_assign_as (acts_as (user_id u) "superadmin")
               (acts_as_refl _ _) (acts_as_trans _ _) u);
        [intros a; apply assignIssue_acts | exact Hsuper | exact Hok].
    + apply String.eqb_neq in Er. rewrite post_assign_guard; [exact Hok|].
      intros v Hv. now inversion Hv; subst.
  - now rewrite get_analytics_reads.
Qed.

Lemma roles_ok_empty : roles_ok empty_store.
Proof. constructor; constructor. Qed.

Lemma reachable_roles_ok (st : Store) : reachable st -> roles_ok st.
Proof.
  intros [reqs ->]. generalize roles_ok_empty. generalize empty_store.
  induction reqs as [|req reqs IH]; intros st H; simpl; [exact H|].
  apply IH. now apply roles_step.
Qed.

(** X7: in every store the served requests can reach, whoever is recorded
    as the resolver of an issue is a user whose role is admin, and whoever
    is recorded as the assigner in an assignment row is a user whose role is
    superadmin. *)
Theorem resolver_is_admin_assigner_is_superadmin (st : Store) :
  reachable st ->
  (forall i r, In i (issues st) -> issue_resolvedBy i = Some r ->
     exists u, getUser st r = Some u /\ user_role u = "admin") /\
  (forall a, In a (assignments st) ->
     exists u, getUser st (assignment_assignedBy a) = Some u
               /\ user_role u = "superadmin").
Proof.
  intros Hr. destruct (reachable_roles_ok st Hr) as [Hres Hasg].
  destruct (reachable_keys_ok st Hr) as [[Hnodup _] _ _ _ _ _ _ _ _].
  rewrite Forall_forall in *.
  assert (forall uid role, user_with_role st uid role ->
            exists u, getUser st uid = Some u /\ user_role u = role) as Hfind.
  { intros uid role [u [Hin [Hid Hrole]]]. exists u. split; [|exact Hrole].
    unfold getUser. unfold user_ids in Hnodup. clear - Hin Hid Hnodup.
    induction (users st) as [|v l IH]; [contradiction|]. simpl in *.
    inversion Hnodup as [|? ? Hnot Hrest]; subst.
    destruct Hin as [->|Hin].
    - now rewrite Nat.eqb_refl.
    - destruct (user_id v =? user_id u) eqn:E; [|now apply IH].
      apply Nat.eqb_eq in E. exfalso. apply Hnot. rewrite E.
      now apply in_map. }
  split.
  - intros i r Hi Hby. apply Hfind. now apply (Hres i Hi).
  - intros a Ha. apply Hfind. now apply Hasg.
Qed.

Lemma resolver_is_admin_assigner_is_superadmin_witness :
  reachable st_reassigned /\
  (forall i r, In i (issues st_reassigned) -> issue_resolvedBy i = Some r ->
     exists u, getUser st_reassigned r = Some u /\ user_role u = "admin").
Proof.
  assert (reachable st_reassigned) as Hr.
  { exists (registrations
            ++ [submit_pothole; assign_to_A; resolve_by_A; assign_again])%list.
    reflexivity. }
  split; [exact Hr|].
  exact (proj1 (resolver_is_admin_assigner_is_superadmin st_reassigned Hr)).
Defined.

(** ** Nothing is lost *)

Lemma issue_evolves_refl (i : Issue) : issue_evolves i i.
Proof. repeat split; auto. Qed.

Lemma issue_evolves_trans (i j k : Issue) :
  issue_evolves i j -> issue_evolves j k -> issue_evolves i k.
Proof.
  intros [H1 [H2 [H3 H4]]] [K1 [K2 [K3 K4]]].
  repeat split; [congruence | congruence | auto | auto].
Qed.

Lemma evolve_all (f : Issue -> Issue) (l : list Issue) :
  (forall i, issue_evolves i (f i)) -> Forall2 issue_evolves l (map f l).
Proof.
  intros H. induction l; simpl; constructor; auto.
Qed.

Lemma evolve_updated (k : id) (f : Issue -> Issue) (l : list Issue) :
  (forall i, issue_evolves i (f i)) ->
  Forall2 issue_evolves l (update_where k f l).
Proof.
  intros H. unfold update_where. apply evolve_all. intros i.
  destruct (issue_id i =? k); [apply H | apply issue_evolves_refl].
Qed.

Lemma evolves_same (l : list Issue) : Forall2 issue_evolves l l.
Proof. induction l; constructor; auto using issue_evolves_refl. Qed.

Lemma evolves_chain (l1 l2 l3 : list Issue) :
  Forall2 issue_evolves l1 l2 -> Forall2 issue_evolves l2 l3 ->
  Forall2 issue_evolves l1 l3.
Proof.
  intros H. revert l3. induction H as [|i j l1 l2 Hij _ IH]; intros l3 H23.
  - inversion H23. constructor.
  - inversion H23 as [|? k ? l3' Hjk Hrest]; subst.
    constructor; [eapply issue_evolves_trans; eauto | now apply IH].
Qed.

Lemma grows_refl (st : Store) : grows st st.
Proof.
  constructor; auto using extends_refl.
  exists (issues st), []. split; [now rewrite app_nil_r | apply evolves_same].
Qed.

Lemma grows_trans (a b c : Store) : grows a b -> grows b c -> grows a c.
Proof.
  intros [Hu Hc Ha [old [more [Hi Hev]]] Hn]
         [Hu' Hc' Ha' [old' [more' [Hi' Hev']]] Hn'].
  constructor; eauto using extends_trans; [|lia].
  rewrite Hi in Hev'. apply Forall2_app_inv_l in Hev'.
  destruct Hev' as [o1 [o2 [H1 [H2 Hsplit]]]].
  exists o1, (o2 ++ more')%list. split.
  - now rewrite Hi', Hsplit, app_assoc.
  - eapply evolves_chain; eauto.
Qed.

Lemma grows_issues_only (st : Store) (l : list Issue) (n : id) :
  Forall2 issue_evolves (issues st) l -> nextId st <= n ->
  grows st (mkStore (users st) (categories st) l (upvotes st)
                    (assignments st) n).
Proof.
  intros Hev Hn. constructor; simpl; auto using extends_refl.
  exists l, []. split; [now rewrite app_nil_r | exact Hev].
Qed.

Lemma grows_createUser (insertUser : InsertUser) (now : timestamp) :
  respects grows (createUser insertUser now).
Proof.
  intros st. unfold createUser. destruct (getUserByEmail st _); simpl;
    [apply grows_refl|].
  constructor; simpl; auto using extends_refl; [now eexists|].
  exists (issues st), []. split; [now rewrite app_nil_r | apply evolves_same].
Qed.

Lemma grows_createCategory (name : string) :
  respects grows (createCategory name).
Proof.
  intros st. unfold createCategory. destruct (existsb _ _); simpl;
    [apply grows_refl|].
  constructor; simpl; auto using extends_refl; [now eexists|].
  exists (issues st), []. split; [now rewrite app_nil_r | apply evolves_same].
Qed.

Lemma grows_createIssue (issue : InsertIssue) (now : timestamp) :
  respects grows (createIssue issue now).
Proof.
  intros st. unfold createIssue. destruct (fk_opt _ _ && mem _ _); simpl;
    [|apply grows_refl].
  constructor; simpl; auto using extends_refl.
  eexists (issues st), _. split; [reflexivity | apply evolves_same].
Qed.

Lemma grows_toggleUpvote (userId issueId : id) (now : timestamp) :
  respects grows (toggleUpvote userId issueId now).
Proof.
  intros st.
  destruct (toggleUpvote_frame userId issueId now st) as [Hu [Hc [Hi Ha]]].
  constructor; rewrite ?Hu, ?Hc, ?Ha; auto using extends_refl.
  - exists (issues st), []. rewrite Hi.
    split; [now rewrite app_nil_r | apply evolves_same].
  - unfold toggleUpvote, toggleUpvote_write, bind, selectUpvote.
    destruct (firstn 1 _); simpl; [|lia].
    unfold insertUpvote. destruct (mem _ _ && mem _ _); simpl; lia.
Qed.

Lemma grows_resolveIssue (iid : id) (data : ResolveIssue) (resolvedBy : id)
    (now : timestamp) :
  respects grows (resolveIssue iid data resolvedBy now).
Proof.
  intros st. unfold resolveIssue. destruct (mem iid _ && negb _); simpl;
    [apply grows_refl|].
  apply grows_issues_only; [|lia]. apply evolve_updated.
  intros i. repeat split; simpl; auto; discriminate.
Qed.

Lemma grows_assignIssue (assignment : InsertAssignment) (now : timestamp) :
  respects grows (assignIssue assignment now).
Proof.
  intros st. unfold assignIssue, bind, insertAssignment.
  destruct (mem _ _ && mem _ _ && mem _ _); simpl; [|apply grows_refl].
  constructor; simpl; auto using extends_refl; [now eexists|].
  eexists _, []. split; [now rewrite app_nil_r|].
  apply evolve_updated. intros i. repeat split; simpl; auto; discriminate.
Qed.

Lemma serve_grows (reqs : list Request) (st : Store) : grows st (serve reqs st).
Proof.
  apply (respects_serve grows grows_refl grows_trans
           grows_createUser grows_createCategory grows_createIssue
           grows_toggleUpvote grows_resolveIssue grows_assignIssue).
Qed.

Lemma evolved_row (l old : list Issue) (i : Issue) :
  Forall2 issue_evolves l old -> In i l ->
  exists i', In i' old /\ issue_evolves i i'.
Proof.
  induction 1 as [|a b l old Hab _ IH]; intros Hin; [contradiction|].
  destruct Hin as [->|Hin].
  - exists b. split; [now left | exact Hab].
  - destruct (IH Hin) as [i' [Hi' He]]. exists i'. split; [now right | exact He].
Qed.

(** X8: whatever requests are served, no user, category or assignment row
    is removed or changed, and every issue row stays, with the id and
    everything the reporter submitted (title, description, place, contact,
    category, priority, media, reporter, creation time) as they were; an
    issue that has left status not-assigned never returns to it, and
    resolution columns that are set stay set. *)
Theorem nothing_is_lost (st : Store) (reqs : list Request) :
  let st' := serve reqs st in
  (forall u, In u (users st) -> In u (users st')) /\
  (forall c, In c (categories st) -> In c (categories st')) /\
  (forall a, In a (assignments st) -> In a (assignments st')) /\
  (forall i, In i (issues st) ->
     exists i', In i' (issues st') /\
       issue_id i' = issue_id i /\
       issue_content i' = issue_content i /\
       (issue_status i <> NotAssigned -> issue_status i' <> NotAssigned) /\
       (resolution_set i = true -> resolution_set i' = true)).
Proof.
  destruct (serve_grows reqs st)
    as [[mu Hu] [mc Hc] [ma Ha] [old [more [Hi Hev]]] _].
  simpl. rewrite Hu, Hc, Ha, Hi.
  repeat split; try (intros x Hx; apply in_or_app; now left).
  intros i Hin. destruct (evolved_row _ _ i Hev Hin) as [i' [Hi' He]].
  exists i'. split; [apply in_or_app; now left | exact He].
Qed.

Lemma nothing_is_lost_witness :
  In issue_reassigned (issues (serve [assign_again] st_resolved)) /\
  exists i', In i' (issues (serve [upvote_pothole] st_reassigned)) /\
    issue_id i' = issue_id issue_reassigned /\
    issue_content i' = issue_content issue_reassigned.
Proof.
  assert (In issue_reassigned (issues st_reassigned)) as Hin
    by (left; reflexivity).
  split; [exact Hin|].
  destruct (proj2 (proj2 (proj2
              (nothing_is_lost st_reassigned [upvote_pothole])))
              issue_reassigned Hin) as [i' [H1 [H2 [H3 _]]]].
  exists i'. auto.
Defined.

(** ** Sessions *)

Lemma find_more (A : Type) (p : A -> bool) (l more : list A) (x : A) :
  find p l = Some x -> find p (l ++ more) = Some x.
Proof.
  induction l as [|y l IH]; simpl; [discriminate|].
  destruct (p y); [auto | exact IH].
Qed.

Lemma app_with_user (st : Store) (req : Request) (u : User) :
  req_user st req = Some u -> app req st = handle req st.
Proof.
  unfold req_user, app, passport_session, deserializeUser.
  destruct (req_session req) as [uid|]; [|discriminate].
  now intros ->.
Qed.

Lemma app_without_session (st : Store) (req : Request) :
  req_session req = None -> app req st = handle req st.
Proof.
  unfold app, passport_session. now intros ->.
Qed.

(** X3: a request without a session is answered 401 "Authentication
    required" by every writing route but the register route and by the
    analytics route, and leaves the store as it is.  A request whose
    session holds an id that names no user is answered 500 by the session
    middleware on each of these routes, the register route included, and
    leaves the store as it is.  No request the routes serve makes a session
    stale: an id that names a user names the same user in every later
    store. *)
Theorem no_session_no_write (st : Store) (req : Request) :
  (req_session req = None ->
   is_register (req_call req) = false ->
   app req st =
     (st, Return (mkResponse 401 (Message "Authentication required")))) /\
  (forall uid,
     req_session req = Some uid ->
     getUser st uid = None ->
     app req st = (st, Return (mkResponse 500 ErrorPage))) /\
  (forall uid u reqs,
     getUser st uid = Some u -> getUser (serve reqs st) uid = Some u).
Proof.
  split; [|split].
  - intros Hnone Hcall. rewrite (app_without_session st req Hnone).
    unfold handle, req_user. rewrite Hnone.
    destruct (req_call req); simpl in Hcall; try discriminate; reflexivity.
  - intros uid Hs Hu. unfold app, passport_session, deserializeUser.
    rewrite Hs, Hu. reflexivity.
  - intros uid u reqs Hu.
    destruct (serve_grows reqs st) as [[more Hmore] _ _ _ _].
    unfold getUser in *. rewrite Hmore. now apply find_more.
Qed.

Lemma no_session_no_write_witness :
  app (mkRequest None 9 (PostUpvote issue1)) st_submitted =
    (st_submitted, Return (mkResponse 401 (Message "Authentication required"))) /\
  getUser st_submitted 77 = None /\
  app (mkRequest (Some 77) 9
         (PostRegister (mkRegisterBody "new@example.org" "pw" "New" None) "h"))
      st_submitted =
    (st_submitted, Return (mkResponse 500 ErrorPage)).
Proof.
  split; [|split; [reflexivity|]].
  - exact (proj1 (no_session_no_write st_submitted
                    (mkRequest None 9 (PostUpvote issue1))) eq_refl eq_refl).
  - exact (proj1 (proj2 (no_session_no_write st_submitted
                    (mkRequest (Some 77) 9
                       (PostRegister
                          (mkRegisterBody "new@example.org" "pw" "New" None)
                          "h")))) 77 eq_refl eq_refl).
Defined.

(** ** One vote at a time *)

Lemma toggleUpvote_answer (st : Store) (userId issueId : id) (now : timestamp) :
  In userId (user_ids st) -> In issueId (issue_ids st) ->
  snd (toggleUpvote userId issueId now st)
    = Return (negb (has_vote st userId issueId),
              upvoteCount (fst (toggleUpvote userId issueId now st)) issueId).
Proof.
  intros Hu Hi. unfold toggleUpvote, toggleUpvote_write, bind, selectUpvote.
  destruct (has_vote st userId issueId) eqn:Hv.
  - destruct (has_vote_true_filter _ _ _ Hv) as [v ->]. reflexivity.
  - rewrite (has_vote_false_filter _ _ _ Hv). simpl.
    rewrite (insertUpvote_ok st _ _ now Hu Hi). reflexivity.
Qed.

Lemma toggleUpvote_rows (st : Store) (userId issueId : id) (now : timestamp) :
  In userId (user_ids st) -> In issueId (issue_ids st) ->
  upvotes (fst (toggleUpvote userId issueId now st)) =
    if has_vote st userId issueId
    then filter (fun v => negb (upvote_matches userId issueId v)) (upvotes st)
    else (upvotes st ++ [mkUpvote (nextId st) userId issueId now])%list.
Proof.
  intros Hu Hi. unfold toggleUpvote, toggleUpvote_write, bind, selectUpvote.
  destruct (has_vote st userId issueId) eqn:Hv.
  - destruct (has_vote_true_filter _ _ _ Hv) as [v ->]. reflexivity.
  - rewrite (has_vote_false_filter _ _ _ Hv). simpl.
    rewrite (insertUpvote_ok st _ _ now Hu Hi). reflexivity.
Qed.

Lemma count_without (p q : Upvote -> bool) (l : list Upvote) :
  length (filter q (filter (fun v => negb (p v)) l))
  + length (filter (fun v => q v && p v) l)
  = length (filter q l).
Proof.
  induction l as [|v l IH]; simpl; [reflexivity|].
  destruct (p v) eqn:Ep, (q v) eqn:Eq; simpl; rewrite ?Eq; simpl; lia.
Qed.

Lemma matches_of_issue (userId issueId : id) (l : list Upvote) :
  filter (fun v => upvote_of_issue issueId v && upvote_matches userId issueId v) l
  = filter (upvote_matches userId issueId) l.
Proof.
  apply filter_ext. intros v. unfold upvote_of_issue, upvote_matches.
  destruct (upvote_issueId v =? issueId); [reflexivity|].
  now rewrite andb_false_r.
Qed.

Lemma other_issue_rows (userId issueId other : id) (l : list Upvote) :
  other <> issueId ->
  filter (upvote_of_issue other)
         (filter (fun v => negb (upvote_matches userId issueId v)) l)
  = filter (upvote_of_issue other) l.
Proof.
  intros Hne. induction l as [|v l IH]; simpl; [reflexivity|].
  unfold upvote_matches, upvote_of_issue in *.
  destruct (upvote_issueId v =? issueId) eqn:E1,
           (upvote_issueId v =? other) eqn:E2,
           (upvote_userId v =? userId); simpl; rewrite ?E2, ?IH; auto.
  all: apply Nat.eqb_eq in E1, E2; congruence.
Qed.

Lemma other_pair_rows (userId issueId u2 i2 : id) (l : list Upvote) :
  (u2, i2) <> (userId, issueId) ->
  existsb (upvote_matches u2 i2)
          (filter (fun v => negb (upvote_matches userId issueId v)) l)
  = existsb (upvote_matches u2 i2) l.
Proof.
  intros Hne. induction l as [|v l IH]; simpl; [reflexivity|].
  destruct (upvote_matches userId issueId v) eqn:E1; simpl; rewrite IH;
    [|reflexivity].
  destruct (upvote_matches u2 i2 v) eqn:E2; [|reflexivity].
  apply matches_key in E1, E2. congruence.
Qed.

(** X9: a vote of an existing user on an existing issue is answered 200,
    in any store.  If the caller had no vote on the issue, one row is added
    and [count] is the count before plus one; if the caller had one, every
    row of the caller for the issue is deleted and [count] is the count
    before minus their number, which is at least one, and exactly one in
    every store the requests served one after the other can reach.
    [upvoted] tells that the caller had no vote before, and the caller's
    vote is flipped.  The vote of no other (user, issue) pair and the count
    of no other issue changes, and neither do users, categories, issues and
    assignments. *)
Theorem upvote_flips_own_votes (st : Store) (uid : id) (u : User)
    (issueId : id) (now : timestamp) :
  getUser st uid = Some u ->
  In issueId (issue_ids st) ->
  let voted := has_vote st uid issueId in
  let own := votes_of_pair st uid issueId in
  let count' :=
    if voted then upvoteCount st issueId - own else upvoteCount st issueId + 1 in
  let st' := fst (handle (mkRequest (Some uid) now (PostUpvote issueId)) st) in
  snd (handle (mkRequest (Some uid) now (PostUpvote issueId)) st)
    = Return (mkResponse 200 (UpvoteJson (negb voted) count')) /\
  (voted = true -> 1 <= own /\ own <= upvoteCount st issueId) /\
  (reachable st -> own <= 1) /\
  upvoteCount st' issueId = count' /\
  has_vote st' uid issueId = negb voted /\
  (forall other, other <> issueId ->
     upvoteCount st' other = upvoteCount st other) /\
  (forall u2 i2, (u2, i2) <> (uid, issueId) ->
     has_vote st' u2 i2 = has_vote st u2 i2) /\
  users st' = users st /\ categories st' = categories st /\
  issues st' = issues st /\ assignments st' = assignments st.
Proof.
  intros Hu Hi voted own count' st'.
  destruct (getUser_Some _ _ _ Hu) as [Hid Hmem]. apply mem_In in Hmem.
  assert (fst (handle (mkRequest (Some uid) now (PostUpvote issueId)) st)
          = fst (toggleUpvote uid issueId now st)
          /\ snd (handle (mkRequest (Some uid) now (PostUpvote issueId)) st)
             = Return (mkResponse 200
                 (UpvoteJson (negb voted)
                    (upvoteCount (fst (toggleUpvote uid issueId now st))
                                 issueId)))) as [Hst Hans].
  { unfold handle, req_user. simpl. rewrite Hu.
    unfold post_upvote, requireAuth, try_catch, bind. rewrite Hid.
    pose proof (toggleUpvote_answer st uid issueId now Hmem Hi) as Ha.
    destruct (toggleUpvote uid issueId now st) as [s r]. simpl in *.
    rewrite Ha. split; reflexivity. }
  pose proof (toggleUpvote_rows st uid issueId now Hmem Hi) as Hrows.
  pose proof (toggleUpvote_frame uid issueId now st) as Hframe.
  pose proof (proj1 (toggleUpvote_flips_rows st uid issueId now Hmem Hi))
    as Hflip.
  subst st'. rewrite Hst, Hans. clear Hst Hans.
  set (s := fst (toggleUpvote uid issueId now st)) in *.
  fold voted in Hrows, Hflip.
  pose proof (count_without (upvote_matches uid issueId)
                (upvote_of_issue issueId) (upvotes st)) as Hsum.
  rewrite matches_of_issue in Hsum. fold (votes_of_pair st uid issueId) in Hsum.
  fold own in Hsum. fold (upvoteCount st issueId) in Hsum.
  assert (voted = true -> 1 <= own) as Hown.
  { intros Hv. destruct (has_vote_true_filter _ _ _ Hv) as [v Hf].
    unfold own, votes_of_pair.
    destruct (filter (upvote_matches uid issueId) (upvotes st)) eqn:Ef;
      [try rewrite Ef in Hf; discriminate | simpl; lia]. }
  assert (upvoteCount s issueId = count') as Hcount.
  { unfold upvoteCount at 1. unfold count'. rewrite Hrows. destruct voted.
    - lia.
    - rewrite filter_app, length_app. simpl.
      unfold upvote_of_issue at 2. simpl. rewrite Nat.eqb_refl. simpl.
      unfold upvoteCount. lia. }
  rewrite Hcount. split; [reflexivity|].
  split; [intros Hv; specialize (Hown Hv); lia|].
  split.
  { intros Hr. destruct (reachable_ok st Hr) as [_ _ _ Hd _].
    now apply unique_key_one_row. }
  split; [reflexivity|]. split; [exact Hflip|].
  split; [|split; [|exact Hframe]].
  - intros other Hne. unfold upvoteCount. rewrite Hrows. destruct voted.
    + now rewrite other_issue_rows.
    + rewrite filter_app. simpl. unfold upvote_of_issue at 2. simpl.
      assert ((issueId =? other) = false) as ->
        by (apply Nat.eqb_neq; congruence).
      now rewrite app_nil_r.
  - intros u2 i2 Hne. unfold has_vote. rewrite Hrows. destruct voted.
    + now apply other_pair_rows.
    + rewrite existsb_app. simpl.
      assert (upvote_matches u2 i2 (mkUpvote (nextId st) uid issueId now)
              = false) as ->.
      { destruct (upvote_matches u2 i2 _) eqn:E; [|reflexivity].
        apply matches_key in E. unfold upvote_key in E. simpl in E.
        congruence. }
      now rewrite !orb_false_r.
Qed.

Lemma upvote_flips_own_votes_witness :
  getUser st_raced citizen
    = Some (mkUser citizen "cit@example.org" "h0" "Cit" "citizen" 1) /\
  In issue1 (issue_ids st_raced) /\
  has_vote st_raced citizen issue1 = true /\
  votes_of_pair st_raced citizen issue1 = 2 /\
  upvoteCount st_raced issue1 = 2 /\
  snd (handle (mkRequest (Some citizen) 10 (PostUpvote issue1)) st_raced)
    = Return (mkResponse 200 (UpvoteJson false 0)).
Proof.
  assert (In issue1 (issue_ids st_raced)) as Hi by (left; reflexivity).
  split; [reflexivity|]. split; [exact Hi|].
  split; [reflexivity|]. split; [reflexivity|]. split; [reflexivity|].
  exact (proj1 (upvote_flips_own_votes st_raced citizen
                  (mkUser citizen "cit@example.org" "h0" "Cit" "citizen" 1)
                  issue1 10 eq_refl Hi)).
Defined.

(** ** Votes served concurrently *)

Lemma votes_createUser (insertUser : InsertUser) (now : timestamp) :
  respects (fun a b => votes_name_users a -> votes_name_users b)
           (createUser insertUser now).
Proof.
  intros st H. unfold createUser.
  destruct (getUserByEmail st (iu_email insertUser)); [exact H|].
  unfold votes_name_users, user_ids in *. simpl. rewrite map_app.
  eapply Forall_impl; [|exact H]. intros v Hv. apply in_or_app. now left.
Qed.

Lemma votes_createCategory (name : string) :
  respects (fun a b => votes_name_users a -> votes_name_users b)
           (createCategory name).
Proof.
  intros st H. unfold createCategory. destruct (existsb _ _); exact H.
Qed.

Lemma votes_createIssue (issue : InsertIssue) (now : timestamp) :
  respects (fun a b => votes_name_users a -> votes_name_users b)
           (createIssue issue now).
Proof.
  intros st H. unfold createIssue. destruct (_ && _); exact H.
Qed.

Lemma votes_resolveIssue (iid : id) (data : ResolveIssue) (resolvedBy : id)
    (now : timestamp) :
  respects (fun a b => votes_name_users a -> votes_name_users b)
           (resolveIssue iid data resolvedBy now).
Proof.
  intros st H. unfold resolveIssue. destruct (_ && _); exact H.
Qed.

Lemma votes_assignIssue (assignment : InsertAssignment) (now : timestamp) :
  respects (fun a b => votes_name_users a -> votes_name_users b)
           (assignIssue assignment now).
Proof.
  intros st H. unfold assignIssue, bind, insertAssignment.
  destruct (_ && _); exact H.
Qed.

Lemma votes_write (existing : list Upvote) (userId issueId : id)
    (now : timestamp) :
  respects (fun a b => votes_name_users a -> votes_name_users b)
           (toggleUpvote_write existing userId issueId now).
Proof.
  intros st H. unfold toggleUpvote_write, bind.
  destruct (0 <? length existing).
  - unfold votes_name_users in *. simpl.
    rewrite Forall_forall in *. intros v Hv. apply filter_In in Hv.
    now apply H.
  - unfold insertUpvote.
    destruct (mem userId (user_ids st)) eqn:Eu; simpl; [|exact H].
    destruct (mem issueId (issue_ids st)); simpl; [|exact H].
    unfold votes_name_users in *. simpl. apply Forall_app. split; [exact H|].
    constructor; [|constructor]. simpl. now apply mem_In.
Qed.

Lemma votes_toggleUpvote (userId issueId : id) (now : timestamp) :
  respects (fun a b => votes_name_users a -> votes_name_users b)
           (toggleUpvote userId issueId now).
Proof.
  intros st H. unfold toggleUpvote, bind, selectUpvote.
  now apply votes_write.
Qed.

Lemma votes_handle (req : Request) (st : Store) :
  votes_name_users st -> votes_name_users (fst (handle req st)).
Proof.
  apply (respects_handle (fun a b => votes_name_users a -> votes_name_users b)).
  - auto.
  - auto.
  - apply votes_createUser.
  - apply votes_createCategory.
  - apply votes_createIssue.
  - apply votes_toggleUpvote.
  - apply votes_resolveIssue.
  - apply votes_assignIssue.
Qed.

Lemma running_votes_name_users (st : Store) (fl : list InFlight) :
  running st fl -> votes_name_users st.
Proof.
  induction 1 as [|req st fl _ IH| |v now st before after _ IH].
  - constructor.
  - now apply votes_handle.
  - assumption.
  - now apply votes_write.
Qed.

Lemma serve_running (reqs : list Request) (st : Store) (fl : list InFlight) :
  running st fl -> running (serve reqs st) fl.
Proof.
  revert st. induction reqs as [|req reqs IH]; intros st H; simpl;
    [exact H|].
  apply IH. now apply running_request.
Qed.

Lemma reachable_running (st : Store) : reachable st -> running st [].
Proof.
  intros [reqs ->]. apply serve_running. constructor.
Qed.

(** X10: in every store the server can be in, votes served concurrently
    included, the number of distinct users who hold a vote on an issue is
    at most the number of registered users and at most the upvote count of
    the issue.  The upvote count is that number in every store the requests
    served one after the other can reach. *)
Theorem voters_at_most_users (st : Store) (fl : list InFlight) (issueId : id) :
  running st fl ->
  length (voters st issueId) <= length (users st) /\
  length (voters st issueId) <= upvoteCount st issueId /\
  (reachable st -> upvoteCount st issueId = length (voters st issueId)).
Proof.
  intros Hrun. split; [|split].
  - pose proof (running_votes_name_users st fl Hrun) as Hfk.
    rewrite <- (length_map user_id (users st)).
    apply NoDup_incl_length; [apply NoDup_nodup|].
    intros x Hx. unfold voters in Hx. apply nodup_In in Hx.
    apply in_map_iff in Hx. destruct Hx as [v [<- Hv]].
    apply filter_In in Hv. unfold votes_name_users in Hfk.
    rewrite Forall_forall in Hfk. now apply (Hfk v).
  - apply voters_le_rows.
  - intros Hr. apply count_is_voters. now apply reachable_ok.
Qed.

Lemma voters_at_most_users_witness :
  running st_alone_raced [] /\
  length (users st_alone_raced) = 1 /\
  upvoteCount st_alone_raced 1 = 2 /\
  length (voters st_alone_raced 1) <= length (users st_alone_raced) /\
  length (voters st_alone_raced 1) <= upvoteCount st_alone_raced 1.
Proof.
  assert (running st_alone_raced []) as Hrun.
  { assert (running st_alone []) as H0.
    { apply reachable_running. eexists. reflexivity. }
    pose (u := mkUser 0 "cit@example.org" "h0" "Cit" "citizen" 1).
    pose proof (running_select 0 1 u [] st_alone [] H0 eq_refl eq_refl) as H1.
    pose proof (running_select 0 1 u [] st_alone _ H1 eq_refl eq_refl) as H2.
    pose proof (running_write (mkInFlight 0 1 []) 3 st_alone []
                  [mkInFlight 0 1 []] H2) as H3.
    exact (running_write (mkInFlight 0 1 []) 4 _ [] [] H3). }
  split; [exact Hrun|]. split; [reflexivity|]. split; [reflexivity|].
  destruct (voters_at_most_users st_alone_raced [] 1 Hrun) as [H1 [H2 _]].
  split; [exact H1 | exact H2].
Defined.

(** ** Reading one issue *)

Lemma find_issue_row (l : list Issue) (i : Issue) :
  NoDup (map issue_id l) -> In i l ->
  find (fun j => issue_id j =? issue_id i) l = Some i.
Proof.
  induction l as [|j l IH]; simpl; intros Hd Hin; [contradiction|].
  inversion Hd as [|? ? Hnot Hrest]; subst. destruct Hin as [->|Hin].
  - now rewrite Nat.eqb_refl.
  - destruct (issue_id j =? issue_id i) eqn:E; [|now apply IH].
    apply Nat.eqb_eq in E. exfalso. apply Hnot. rewrite E. now apply in_map.
Qed.

Lemma find_issue_none (l : list Issue) (k : id) :
  ~ In k (map issue_id l) -> find (fun j => issue_id j =? k) l = None.
Proof.
  intros Hnot. destruct (find _ l) as [j|] eqn:E; [|reflexivity].
  apply find_some in E. destruct E as [Hj Hk]. apply Nat.eqb_eq in Hk.
  exfalso. apply Hnot. rewrite <- Hk. now apply in_map.
Qed.

Lemma find_issue_some (l : list Issue) (k : id) :
  In k (map issue_id l) ->
  exists j, find (fun j => issue_id j =? k) l = Some j /\ issue_id j = k
            /\ In j l.
Proof.
  intros Hin. destruct (find (fun j => issue_id j =? k) l) as [j|] eqn:E.
  - exists j. apply find_some in E. destruct E as [Hj Hk].
    apply Nat.eqb_eq in Hk. auto.
  - apply in_map_iff in Hin. destruct Hin as [j [Hk Hj]].
    apply (find_none _ _ E) in Hj. simpl in Hj.
    rewrite Hk, Nat.eqb_refl in Hj. discriminate.
Qed.

Lemma getUser_exists (st : Store) (uid : id) :
  In uid (user_ids st) -> exists u, getUser st uid = Some u.
Proof.
  intros Hin. unfold getUser.
  destruct (find (fun u => user_id u =? uid) (users st)) as [u|] eqn:E;
    [now exists u|].
  apply in_map_iff in Hin. destruct Hin as [u [Hid Hu]].
  apply (find_none _ _ E) in Hu. simpl in Hu.
  rewrite Hid, Nat.eqb_refl in Hu. discriminate.
Qed.

Lemma user_with_role_found (st : Store) (uid : id) (role : string) :
  NoDup (user_ids st) -> user_with_role st uid role ->
  exists u, getUser st uid = Some u /\ user_role u = role.
Proof.
  intros Hnodup [u [Hin [Hid Hrole]]]. exists u. split; [|exact Hrole].
  unfold getUser. unfold user_ids in Hnodup. clear - Hin Hid Hnodup.
  induction (users st) as [|v l IH]; [contradiction|]. simpl in *.
  inversion Hnodup as [|? ? Hnot Hrest]; subst.
  destruct Hin as [->|Hin].
  - now rewrite Nat.eqb_refl.
  - destruct (user_id v =? user_id u) eqn:E; [|now apply IH].
    apply Nat.eqb_eq in E. exfalso. apply Hnot. rewrite E.
    now apply in_map.
Qed.

(** X11: [GET /api/issues/:id] answers 404 "Issue not found" for an id
    that names no issue.  In a store the served requests can reach it
    answers 200 for every issue of the store, with that very row, the
    reporter's user row, the number of upvote rows of the issue, whether
    the viewer has a vote on it (false without a session), and, when the
    issue has a resolver, the row of that user, who is an admin. *)
Theorem get_issue_answers (st : Store) (viewer : option User) :
  (forall issueId, ~ In issueId (issue_ids st) ->
     get_issue st viewer issueId
       = mkReadResponse 404 (ReadMessage "Issue not found")) /\
  (reachable st ->
   forall i, In i (issues st) ->
     exists reporter resolver,
       get_issue st viewer (issue_id i) =
         mkReadResponse 200
           (IssueViewJson
              (mkIssueView i (category_of st i) (Some reporter)
                 (upvoteCount st (issue_id i))
                 (Some match viewer with
                       | Some v => has_vote st (user_id v) (issue_id i)
                       | None => false
                       end)
                 resolver))
       /\ user_id reporter = issue_userId i
       /\ (forall r, issue_resolvedBy i = Some r ->
             exists a, resolver = Some a /\ user_id a = r
                       /\ user_role a = "admin")).
Proof.
  split.
  - intros issueId Hmiss. unfold get_issue, getIssue.
    now rewrite (find_issue_none _ _ Hmiss).
  - intros Hr i Hi.
    destruct (reachable_keys_ok st Hr) as [[Hud _] _ [Hid _] _ _ _ _ Kir _].
    destruct (reachable_roles_ok st Hr) as [Hres _].
    rewrite Forall_forall in Kir, Hres. destruct (Kir i Hi) as [Hrep _].
    destruct (getUser_exists st _ Hrep) as [reporter Hreporter].
    exists reporter.
    exists (match issue_resolvedBy i with
            | Some r => getUser st r
            | None => None
            end).
    split; [|split].
    + unfold get_issue, getIssue. rewrite (find_issue_row _ i Hid Hi).
      rewrite Hreporter. destruct viewer; reflexivity.
    + now apply getUser_Some in Hreporter.
    + intros r Hby. rewrite Hby.
      destruct (user_with_role_found st r "admin" Hud (Hres i Hi r Hby))
        as [a [Ha Hrole]].
      exists a. split; [exact Ha|]. split; [|exact Hrole].
      now apply getUser_Some in Ha.
Qed.

Lemma get_issue_answers_witness :
  reachable st_reassigned /\
  In issue_reassigned (issues st_reassigned) /\
  exists reporter resolver,
    get_issue st_reassigned None (issue_id issue_reassigned) =
      mkReadResponse 200
        (IssueViewJson
           (mkIssueView issue_reassigned
              (category_of st_reassigned issue_reassigned) (Some reporter)
              (upvoteCount st_reassigned (issue_id issue_reassigned))
              (Some false) resolver)).
Proof.
  assert (reachable st_reassigned) as Hr.
  { exists (registrations
            ++ [submit_pothole; assign_to_A; resolve_by_A; assign_again])%list.
    reflexivity. }
  assert (In issue_reassigned (issues st_reassigned)) as Hi
    by (left; reflexivity).
  split; [exact Hr|]. split; [exact Hi|].
  destruct (proj2 (get_issue_answers st_reassigned None) Hr issue_reassigned Hi)
    as [reporter [resolver [H _]]].
  exists reporter, resolver. exact H.
Defined.

Lemma no_votes_on_fresh_id (st : Store) :
  store_ok st -> upvoteCount st (nextId st) = 0.
Proof.
  intros [Hids _ Hfk _ _]. unfold upvoteCount.
  destruct (filter _ (upvotes st)) as [|v l] eqn:E; [reflexivity|].
  assert (In v (filter (upvote_of_issue (nextId st)) (upvotes st))) as Hv
    by (rewrite E; now left).
  apply filter_In in Hv. destruct Hv as [Hv Heq].
  unfold upvote_of_issue in Heq. apply Nat.eqb_eq in Heq.
  rewrite Forall_forall in Hfk, Hids. destruct (Hfk v Hv) as [_ Hin].
  unfold issue_ids in Hin. apply in_map_iff in Hin.
  destruct Hin as [i [Hid Hi]]. specialize (Hids i Hi). lia.
Qed.

Lemma post_issues_step (st : Store) (uid : id) (u : User)
    (body : IssueBody) (files : list string) (now : timestamp) :
  getUser st uid = Some u ->
  complete body = true ->
  fk_opt (body_categoryId body) (category_ids st) = true ->
  length files <= 5 ->
  handle (mkRequest (Some uid) now (PostIssues body files)) st =
    (mkStore (users st) (categories st)
             (issues st ++ [submitted_issue st body uid files now])
             (upvotes st) (assignments st) (S (nextId st)),
     Return (mkResponse 201
               (IssueJson (submitted_issue st body uid files now)))).
Proof.
  intros Hu Hbody Hcat Hfiles. destruct (getUser_Some _ _ _ Hu) as [Hid Hmem].
  unfold handle, req_user. simpl. rewrite Hu.
  unfold post_issues, requireAuth, upload_array.
  assert ((5 <? length files) = false) as -> by (apply Nat.ltb_ge; exact Hfiles).
  destruct body as [[t|] [d|] [s|] [c|] [rn|] [rp|] cat [l|] [p|]];
    try discriminate Hbody.
  simpl in Hcat.
  unfold try_catch, bind, insertIssueSchema_parse. simpl.
  unfold createIssue. simpl. rewrite Hcat, Hid, Hmem. reflexivity.
Qed.

Lemma fresh_issue_id (st : Store) :
  store_ok st -> find (fun j => issue_id j =? nextId st) (issues st) = None.
Proof.
  intros [Hids _ _ _ _]. apply find_issue_none. intros Hin.
  apply in_map_iff in Hin. destruct Hin as [i [Hid Hi]].
  rewrite Forall_forall in Hids. specialize (Hids i Hi). lia.
Qed.

Lemma no_vote_on_fresh_id (st : Store) (userId : id) :
  store_ok st -> has_vote st userId (nextId st) = false.
Proof.
  intros Hok. pose proof (no_votes_on_fresh_id st Hok) as Hz.
  unfold upvoteCount in Hz. unfold has_vote.
  destruct (existsb _ (upvotes st)) eqn:E; [|reflexivity].
  apply existsb_exists in E. destruct E as [v [Hv Hm]].
  assert (In v (filter (upvote_of_issue (nextId st)) (upvotes st))) as Hf.
  { apply filter_In. split; [exact Hv|].
    unfold upvote_matches in Hm. unfold upvote_of_issue.
    now apply andb_true_iff in Hm. }
  destruct (filter _ (upvotes st)); [contradiction | discriminate].
Qed.

(** X12: a submission the route accepts can be read back: in a store the
    served requests can reach, a complete draft of an authenticated caller
    with at most five files and no or an existing category is answered 201
    with a new issue in status not-assigned whose media are the upload urls
    of the files, and [getIssue] for the id of that issue gives the issue,
    with the submitter's user row, no upvote and no resolver. *)
Theorem submit_then_get_issue (st : Store) (uid : id) (u : User)
    (body : IssueBody) (files : list string) (now : timestamp)
    (viewer : option id) :
  reachable st ->
  getUser st uid = Some u ->
  complete body = true ->
  fk_opt (body_categoryId body) (category_ids st) = true ->
  length files <= 5 ->
  exists newIssue st',
    handle (mkRequest (Some uid) now (PostIssues body files)) st =
      (st', Return (mkResponse 201 (IssueJson newIssue))) /\
    getIssue st' (issue_id newIssue) viewer =
      Some (mkIssueView newIssue (category_of st newIssue) (Some u) 0
                        (Some false) None) /\
    issue_status newIssue = NotAssigned /\
    issue_userId newIssue = uid /\
    issue_mediaUrls newIssue = map upload_url files.
Proof.
  intros Hr Hu Hbody Hcat Hfiles. pose proof (reachable_ok st Hr) as Hok.
  eexists _, _. split; [now apply (post_issues_step st uid u)|].
  split; [|repeat split].
  unfold getIssue. simpl.
  rewrite (find_snoc_new _ _ _ _ (fresh_issue_id st Hok))
    by (simpl; apply Nat.eqb_refl).
  simpl. unfold getUser in *. simpl. rewrite Hu.
  unfold upvoteCount, has_vote. simpl.
  fold (upvoteCount st (nextId st)). rewrite (no_votes_on_fresh_id st Hok).
  destruct viewer as [v|]; [|reflexivity].
  fold (has_vote st v (nextId st)). now rewrite (no_vote_on_fresh_id st v Hok).
Qed.

Lemma submit_then_get_issue_witness :
  reachable st_submitted /\
  exists newIssue st',
    handle submit_streetlight st_submitted =
      (st', Return (mkResponse 201 (IssueJson newIssue))) /\
    getIssue st' (issue_id newIssue) None =
      Some (mkIssueView newIssue (category_of st_submitted newIssue)
              (Some (mkUser citizen "cit@example.org" "h0" "Cit" "citizen" 1))
              0 (Some false) None).
Proof.
  assert (reachable st_submitted) as Hr.
  { exists (registrations ++ [submit_pothole])%list. reflexivity. }
  split; [exact Hr|].
  destruct (submit_then_get_issue st_submitted citizen
              (mkUser citizen "cit@example.org" "h0" "Cit" "citizen" 1)
              streetlight ["lamp.png"] 5 None Hr eq_refl eq_refl eq_refl)
    as [newIssue [st' [H1 [H2 _]]]]; [simpl; lia|].
  exists newIssue, st'. split; assumption.
Defined.

(** X13: what the upvote route answers is what a later read shows: in a
    store the served requests can reach, after a vote of an existing user
    on an existing issue is answered with [upvoted] and [count], [getIssue]
    for that issue and that viewer reports [userUpvoted] = [upvoted] and
    [upvoteCount] = [count]. *)
Theorem upvote_then_get_issue (st : Store) (uid : id) (u : User)
    (issueId : id) (now : timestamp) :
  reachable st ->
  getUser st uid = Some u ->
  In issueId (issue_ids st) ->
  exists upvoted count view,
    snd (handle (mkRequest (Some uid) now (PostUpvote issueId)) st)
      = Return (mkResponse 200 (UpvoteJson upvoted count)) /\
    getIssue (fst (handle (mkRequest (Some uid) now (PostUpvote issueId)) st))
             issueId (Some uid) = Some view /\
    iv_userUpvoted view = Some upvoted /\
    iv_upvoteCount view = count.
Proof.
  intros Hr Hu Hi. pose proof (reachable_ok st Hr) as Hok.
  destruct (getUser_Some _ _ _ Hu) as [Hid Hmem]. apply mem_In in Hmem.
  pose proof (toggleUpvote_answer st uid issueId now Hmem Hi) as Hans.
  destruct (toggleUpvote_flips st uid issueId now Hok Hmem Hi) as [Hflip _].
  destruct (toggleUpvote_frame uid issueId now st) as [_ [_ [Hissues _]]].
  unfold handle, req_user. simpl. rewrite Hu.
  unfold post_upvote, requireAuth, try_catch, bind. rewrite Hid.
  destruct (toggleUpvote uid issueId now st) as [s r]. simpl in *.
  rewrite Hans. simpl.
  destruct (find_issue_some (issues st) issueId Hi) as [j [Hfind [Hj _]]].
  eexists _, _, _. split; [reflexivity|]. split.
  - unfold getIssue. rewrite Hissues, Hfind. reflexivity.
  - simpl. rewrite Hj. split; [now rewrite Hflip | reflexivity].
Qed.

Lemma upvote_then_get_issue_witness :
  reachable st_submitted /\
  In issue1 (issue_ids st_submitted) /\
  exists upvoted count view,
    snd (handle upvote_pothole st_submitted)
      = Return (mkResponse 200 (UpvoteJson upvoted count)) /\
    getIssue (fst (handle upvote_pothole st_submitted)) issue1 (Some citizen)
      = Some view /\
    iv_userUpvoted view = Some upvoted /\
    iv_upvoteCount view = count.
Proof.
  assert (reachable st_submitted) as Hr.
  { exists (registrations ++ [submit_pothole])%list. reflexivity. }
  assert (In issue1 (issue_ids st_submitted)) as Hi by (left; reflexivity).
  split; [exact Hr|]. split; [exact Hi|].
  exact (upvote_then_get_issue st_submitted citizen
           (mkUser citizen "cit@example.org" "h0" "Cit" "citizen" 1)
           issue1 8 Hr eq_refl Hi).
Defined.

(** ** Listing issues *)

Lemma insert_newest_perm (x : IssueView) (l : list IssueView) :
  Permutation (insert_newest x l) (x :: l).
Proof.
  induction l as [|y l IH]; simpl; [reflexivity|].
  destruct (_ <? _); [|reflexivity].
  rewrite IH. apply perm_swap.
Qed.

Lemma order_by_createdAt_perm (l : list IssueView) :
  Permutation (order_by_createdAt_desc l) l.
Proof.
  induction l as [|x l IH]; simpl; [reflexivity|].
  rewrite insert_newest_perm. now constructor.
Qed.

Lemma insert_newest_sorted (x : IssueView) (l : list IssueView) :
  StronglySorted newer_first l -> StronglySorted newer_first (insert_newest x l).
Proof.
  induction 1 as [|y l Hs IH Hy]; simpl.
  - repeat constructor.
  - destruct (issue_createdAt (iv_issue x) <? issue_createdAt (iv_issue y))
      eqn:E.
    + apply Nat.ltb_lt in E. constructor; [exact IH|].
      rewrite Forall_forall in *. intros z Hz.
      apply (Permutation_in _ (insert_newest_perm x l)) in Hz.
      destruct Hz as [<-|Hz]; [unfold newer_first; lia | now apply Hy].
    + apply Nat.ltb_ge in E. constructor; [now constructor|].
      constructor; [exact E|].
      eapply Forall_impl; [|exact Hy]. unfold newer_first. intros; lia.
Qed.

Lemma order_by_createdAt_sorted (l : list IssueView) :
  StronglySorted newer_first (order_by_createdAt_desc l).
Proof.
  induction l as [|x l IH]; simpl; [constructor|].
  now apply insert_newest_sorted.
Qed.

Lemma left_join_count (st : Store) (i : Issue) :
  length (filter (fun u : option Upvote => match u with
                                           | Some _ => true
                                           | None => false
                                           end)
                 (left_join_upvotes st i))
  = upvoteCount st (issue_id i).
Proof.
  unfold left_join_upvotes, upvoteCount.
  destruct (filter (upvote_of_issue (issue_id i)) (upvotes st)) as [|v l];
    [reflexivity|].
  generalize (v :: l). intros rows.
  induction rows as [|w rows IH]; simpl; [reflexivity | now rewrite IH].
Qed.

Lemma left_join_nonempty (st : Store) (i : Issue) :
  left_join_upvotes st i <> [].
Proof.
  unfold left_join_upvotes.
  destruct (filter _ (upvotes st)); simpl; discriminate.
Qed.

Lemma filter_const (A : Type) (f : A -> bool) (b : bool) (l : list A) :
  (forall a, f a = b) -> filter f l = if b then l else [].
Proof.
  intros H. induction l as [|a l IH]; simpl; [now destruct b|].
  rewrite H, IH. now destruct b.
Qed.

Lemma count_some_pairs (rows : list (option Upvote)) :
  count_upvote_ids (map (fun u => (u, @None Assignment)) rows)
  = length (filter (fun u : option Upvote => match u with
                                             | Some _ => true
                                             | None => false
                                             end) rows).
Proof.
  unfold count_upvote_ids. induction rows as [|w rows IH]; simpl; [reflexivity|].
  destruct w; simpl; now rewrite IH.
Qed.

Lemma group_without_admin (st : Store) (filters : IssueFilters) (i : Issue) :
  filter_assignedToAdmin filters = None ->
  getIssues_group st filters i =
    if issue_conditions filters i
    then [listed st (upvoteCount st (issue_id i)) i]
    else [].
Proof.
  intros Hnone. unfold getIssues_group, joined_rows.
  rewrite Hnone.
  rewrite (filter_const _ _ (issue_conditions filters i))
    by (intros row; unfold where_conditions; now rewrite Hnone).
  destruct (issue_conditions filters i); [|reflexivity].
  pose proof (left_join_count st i) as Hc.
  pose proof (left_join_nonempty st i) as Hne.
  pose proof (count_some_pairs (left_join_upvotes st i)) as Hp.
  destruct (left_join_upvotes st i) as [|u0 l0]; [congruence|].
  simpl map in *. unfold listed. rewrite Hp, Hc. reflexivity.
Qed.

Lemma flat_map_if (A B : Type) (p : A -> bool) (f : A -> B) (l : list A) :
  flat_map (fun a => if p a then [f a] else []) l = map f (filter p l).
Proof.
  induction l as [|a l IH]; simpl; [reflexivity|].
  destruct (p a); simpl; now rewrite IH.
Qed.

(** X14: [getIssues] without the admin filter returns, newest first, one
    entry for every issue that satisfies each filter that is given (state,
    city, status, reporter; a filter that is absent or the empty string
    constrains nothing), each with its reporter's row and the number of its
    upvote rows, and no entry twice. *)
Theorem getIssues_filters (st : Store) (filters : IssueFilters) :
  filter_assignedToAdmin filters = None ->
  Permutation (getIssues st filters)
    (map (fun i => listed st (upvoteCount st (issue_id i)) i)
         (filter (issue_conditions filters) (issues st))) /\
  StronglySorted newer_first (getIssues st filters) /\
  (forall i,
     issue_conditions filters i = true <->
       (forall s, truthy (filter_state filters) = Some s -> issue_state i = s) /\
       (forall c, truthy (filter_city filters) = Some c -> issue_city i = c) /\
       (forall t, truthy (filter_status filters) = Some t ->
                  status_text (issue_status i) = t) /\
       (forall r, filter_userId filters = Some r -> issue_userId i = r)).
Proof.
  intros Hnone. split; [|split].
  - unfold getIssues. rewrite order_by_createdAt_perm.
    rewrite (flat_map_ext _ _ (fun i => group_without_admin st filters i Hnone)).
    now rewrite flat_map_if.
  - apply order_by_createdAt_sorted.
  - intros i. unfold issue_conditions, eq_filter.
    rewrite !andb_true_iff. split.
    + intros [[[H1 H2] H3] H4]. repeat split.
      * intros s Hs. rewrite Hs in H1. now apply String.eqb_eq.
      * intros c Hc. rewrite Hc in H2. now apply String.eqb_eq.
      * intros t Ht. rewrite Ht in H3. now apply String.eqb_eq.
      * intros r Hr. rewrite Hr in H4. now apply Nat.eqb_eq.
    + intros [H1 [H2 [H3 H4]]]. repeat split.
      * destruct (truthy (filter_state filters)); [|reflexivity].
        apply String.eqb_eq. now apply H1.
      * destruct (truthy (filter_city filters)); [|reflexivity].
        apply String.eqb_eq. now apply H2.
      * destruct (truthy (filter_status filters)); [|reflexivity].
        apply String.eqb_eq. now apply H3.
      * destruct (filter_userId filters); [|reflexivity].
        apply Nat.eqb_eq. now apply H4.
Qed.

Lemma getIssues_filters_witness :
  filter_assignedToAdmin no_filters = None /\
  Permutation (getIssues st_two_issues no_filters)
    (map (fun i => listed st_two_issues
                          (upvoteCount st_two_issues (issue_id i)) i)
         (filter (issue_conditions no_filters) (issues st_two_issues))) /\
  StronglySorted newer_first (getIssues st_two_issues no_filters).
Proof.
  split; [reflexivity|].
  destruct (getIssues_filters st_two_issues no_filters eq_refl) as [H1 [H2 _]].
  split; assumption.
Defined.

(** *** The queue of an admin *)

Lemma filter_pairs (c : bool) (q : option Assignment -> bool)
    (L : list (option Upvote)) (R : list (option Assignment)) :
  filter (fun row => q (snd row) && c) (list_prod L R)
  = if c then list_prod L (filter q R) else [].
Proof.
  destruct c.
  - induction L as [|x L IH]; simpl; [reflexivity|].
    rewrite filter_app, IH. f_equal.
    clear IH. induction R as [|y R IH]; simpl; [reflexivity|].
    rewrite andb_true_r. destruct (q y); simpl; now rewrite IH.
  - apply (filter_const _ _ false). intros row. apply andb_false_r.
Qed.

Lemma count_row (x : option Upvote) (R : list (option Assignment)) :
  length (filter (fun row : option Upvote * option Assignment =>
                    match fst row with
                    | Some _ => true
                    | None => false
                    end) (map (fun y => (x, y)) R))
  = match x with
    | Some _ => length R
    | None => 0
    end.
Proof.
  induction R as [|y R IH]; simpl; [now destruct x|].
  destruct x; simpl in *; [now rewrite IH | exact IH].
Qed.

Lemma count_pairs (L : list (option Upvote)) (R : list (option Assignment)) :
  count_upvote_ids (list_prod L R)
  = length (filter (fun u : option Upvote => match u with
                                             | Some _ => true
                                             | None => false
                                             end) L)
    * length R.
Proof.
  unfold count_upvote_ids. induction L as [|x L IH]; simpl; [reflexivity|].
  rewrite filter_app, length_app, IH, count_row.
  destruct x; simpl; lia.
Qed.

Lemma admin_rows_joined (st : Store) (adminId : id) (i : Issue) :
  length (filter (names_admin adminId) (map Some (join_assignments st i)))
  = admin_rows st adminId (issue_id i).
Proof.
  unfold join_assignments, admin_rows.
  induction (assignments st) as [|a l IH]; simpl; [reflexivity|].
  destruct (assignment_issueId a =? issue_id i); simpl; [|exact IH].
  destruct (assignment_adminId a =? adminId); simpl; now rewrite IH.
Qed.

Lemma group_with_admin (st : Store) (filters : IssueFilters) (adminId : id)
    (i : Issue) :
  filter_assignedToAdmin filters = Some adminId ->
  getIssues_group st filters i =
    if issue_conditions filters i
       && (0 <? admin_rows st adminId (issue_id i))
    then [listed st (upvoteCount st (issue_id i)
                     * admin_rows st adminId (issue_id i)) i]
    else [].
Proof.
  intros Hsome. unfold getIssues_group, joined_rows. rewrite Hsome.
  rewrite (filter_ext _ (fun row => names_admin adminId (snd row)
                                    && issue_conditions filters i)).
  2:{ intros row. unfold where_conditions, names_admin. rewrite Hsome.
      now destruct (snd row). }
  rewrite filter_pairs.
  destruct (issue_conditions filters i); simpl; [|reflexivity].
  pose proof (count_pairs (left_join_upvotes st i)
                (filter (names_admin adminId)
                        (map Some (join_assignments st i)))) as Hc.
  rewrite left_join_count, admin_rows_joined in Hc.
  pose proof (admin_rows_joined st adminId i) as Hlen.
  pose proof (left_join_nonempty st i) as Hne.
  destruct (left_join_upvotes st i) as [|u0 L]; [congruence|].
  destruct (filter (names_admin adminId) (map Some (join_assignments st i)))
    as [|r0 R].
  - simpl in Hlen. rewrite <- Hlen. simpl.
    assert (list_prod L (@nil (option Assignment)) = []) as ->
      by (clear; induction L; simpl; auto).
    reflexivity.
  - simpl in Hlen. rewrite <- Hlen in *. simpl.
    unfold listed. f_equal. f_equal. exact Hc.
Qed.

Lemma status_is_assigned (i : Issue) :
  String.eqb (status_text (issue_status i)) "assigned"
  = Status_eqb (issue_status i) Assigned.
Proof. now destruct (issue_status i). Qed.

Lemma getAssignedIssues_perm (st : Store) (adminId : id) :
  Permutation (getAssignedIssues st adminId)
    (map (fun i => listed st (upvoteCount st (issue_id i)
                              * admin_rows st adminId (issue_id i)) i)
         (filter (fun i => Status_eqb (issue_status i) Assigned
                           && (0 <? admin_rows st adminId (issue_id i)))
                 (issues st))).
Proof.
  unfold getAssignedIssues, getIssues.
  rewrite order_by_createdAt_perm.
  rewrite (flat_map_ext _ _
             (fun i => group_with_admin st
                         (mkIssueFilters None None (Some "assigned") None
                                         (Some adminId))
                         adminId i eq_refl)).
  rewrite flat_map_if.
  rewrite (filter_ext _ (fun i => Status_eqb (issue_status i) Assigned
                                  && (0 <? admin_rows st adminId (issue_id i)))).
  - reflexivity.
  - intros i. unfold issue_conditions, eq_filter. simpl.
    now rewrite status_is_assigned, andb_true_r.
Qed.

(** X15: the queue of an admin ([getAssignedIssues]) lists, newest first and
    each once, exactly the issues whose status is assigned and that have an
    assignment row naming the admin.  The [upvoteCount] it shows for an
    issue is the number of upvote rows of the issue multiplied by the
    number of assignment rows that name the admin for it. *)
Theorem admin_queue (st : Store) (adminId : id) :
  Permutation (getAssignedIssues st adminId)
    (map (fun i => listed st (upvoteCount st (issue_id i)
                              * admin_rows st adminId (issue_id i)) i)
         (filter (fun i => Status_eqb (issue_status i) Assigned
                           && (0 <? admin_rows st adminId (issue_id i)))
                 (issues st))) /\
  StronglySorted newer_first (getAssignedIssues st adminId).
Proof.
  split; [apply getAssignedIssues_perm|].
  unfold getAssignedIssues, getIssues. apply order_by_createdAt_sorted.
Qed.

Lemma queue_member (st : Store) (adminId : id) (v : IssueView) :
  In v (getAssignedIssues st adminId) <->
  exists i, In i (issues st) /\ issue_status i = Assigned
            /\ 0 < admin_rows st adminId (issue_id i)
            /\ v = listed st (upvoteCount st (issue_id i)
                              * admin_rows st adminId (issue_id i)) i.
Proof.
  pose proof (getAssignedIssues_perm st adminId) as Hp. split.
  - intros Hv. apply (Permutation_in _ Hp) in Hv. apply in_map_iff in Hv.
    destruct Hv as [i [Hvi Hi]]. apply filter_In in Hi.
    destruct Hi as [Hi Hc]. apply andb_true_iff in Hc. destruct Hc as [Hs Ha].
    exists i. split; [exact Hi|]. split; [now destruct (issue_status i)|].
    split; [now apply Nat.ltb_lt | now symmetry].
  - intros [i [Hi [Hs [Ha ->]]]].
    apply (Permutation_in _ (Permutation_sym Hp)). apply in_map_iff.
    exists i. split; [reflexivity|]. apply filter_In. split; [exact Hi|].
    rewrite Hs. simpl. now apply Nat.ltb_lt.
Qed.

Lemma post_resolve_step (st : Store) (uid : id) (u : User) (issueId : id)
    (notes file : string) (now : timestamp) :
  getUser st uid = Some u ->
  user_role u = "admin" ->
  notes <> "" ->
  handle (mkRequest (Some uid) now
            (PostResolve issueId (Some notes) (Some file))) st =
    (resolved_store st issueId (mkResolveIssue notes (upload_url file)) uid now,
     Return (mkResponse 200 (Message "Issue resolved successfully"))).
Proof.
  intros Hu Hrole Hn. destruct (getUser_Some _ _ _ Hu) as [Hid Hmem].
  unfold handle, req_user. simpl. rewrite Hu.
  unfold post_resolve, requireAuth, requireRole. rewrite Hrole.
  cbn [existsb String.eqb Ascii.eqb Bool.eqb orb].
  unfold try_catch, bind, resolveIssueSchema_parse.
  rewrite (nonempty_length notes Hn), upload_url_length.
  cbn [andb ret]. unfold resolveIssue. rewrite Hid, Hmem.
  cbn [negb]. rewrite andb_false_r. reflexivity.
Qed.

(** X16: once the resolve route has accepted a resolution of an issue, the
    issue is in the queue of no admin. *)
Theorem resolved_leaves_queues (st : Store) (uid : id) (u : User)
    (issueId : id) (notes file : string) (now : timestamp) :
  getUser st uid = Some u ->
  user_role u = "admin" ->
  notes <> "" ->
  let st' := fst (handle (mkRequest (Some uid) now
                            (PostResolve issueId (Some notes) (Some file))) st) in
  forall adminId v,
    In v (getAssignedIssues st' adminId) -> issue_id (iv_issue v) <> issueId.
Proof.
  intros Hu Hrole Hn st' adminId v Hv. subst st'.
  rewrite (post_resolve_step st uid u issueId notes file now Hu Hrole Hn) in Hv.
  apply queue_member in Hv. destruct Hv as [i [Hi [Hs [_ ->]]]].
  simpl in *. unfold update_where in Hi. apply in_map_iff in Hi.
  destruct Hi as [j [Hj _]]. destruct (issue_id j =? issueId) eqn:E.
  - subst i. discriminate.
  - subst i. now apply Nat.eqb_neq.
Qed.

Lemma resolved_leaves_queues_witness :
  (exists v, In v (getAssignedIssues st_assigned adminA)
             /\ issue_id (iv_issue v) = issue1) /\
  forall adminId v,
    In v (getAssignedIssues (fst (handle resolve_by_A st_assigned)) adminId) ->
    issue_id (iv_issue v) <> issue1.
Proof.
  split.
  - eexists. split; [left; reflexivity | reflexivity].
  - refine (resolved_leaves_queues st_assigned adminA
              (mkUser adminA "a@example.org" "h1" "A" "admin" 2) issue1
              "Filled pothole" "proof.png" 6 eq_refl eq_refl _).
    discriminate.
Defined.

Lemma post_assign_step (st : Store) (uid : id) (u : User) (issueId : id)
    (adminIds : list id) (notes : option string) (now : timestamp) :
  getUser st uid = Some u ->
  user_role u = "superadmin" ->
  In issueId (issue_ids st) ->
  adminIds <> [] ->
  Forall (fun a => In a (user_ids st)) adminIds ->
  fst (handle (mkRequest (Some uid) now (PostAssign issueId adminIds notes)) st)
  = assigned_store st issueId
      (assignment_rows (nextId st) issueId adminIds uid notes now).
Proof.
  intros Hu Hrole Hissue Hne Hall.
  destruct (getUser_Some _ _ _ Hu) as [Hid Hmem].
  apply mem_In in Hissue.
  unfold handle, req_user. simpl. rewrite Hu.
  unfold post_assign, requireAuth, requireRole. rewrite Hrole, Hid. simpl.
  destruct adminIds as [|a good]; [congruence|].
  unfold try_catch, bind.
  rewrite <- (app_nil_r (a :: good)) at 1.
  rewrite assign_each_good by auto using Forall_mem.
  reflexivity.
Qed.

Lemma rows_name_admin (first issueId assignedBy adminId : id)
    (adminIds : list id) (notes : option string) (now : timestamp) :
  In adminId adminIds ->
  0 < length (filter (fun a => (assignment_issueId a =? issueId)
                               && (assignment_adminId a =? adminId))
                     (assignment_rows first issueId adminIds assignedBy
                                      notes now)).
Proof.
  revert first. induction adminIds as [|a rest IH]; intros first Hin;
    [contradiction|].
  simpl. rewrite Nat.eqb_refl. simpl.
  destruct (a =? adminId) eqn:E; simpl; [lia|].
  destruct Hin as [->|Hin]; [rewrite Nat.eqb_refl in E; discriminate|].
  now apply IH.
Qed.

(** X17: once the assign route has accepted an assignment of an existing
    issue to existing users, the issue is in the queue of each of them,
    whatever its status was before. *)
Theorem assigned_enters_queues (st : Store) (uid : id) (u : User)
    (issueId : id) (adminIds : list id) (notes : option string)
    (now : timestamp) :
  getUser st uid = Some u ->
  user_role u = "superadmin" ->
  In issueId (issue_ids st) ->
  Forall (fun a => In a (user_ids st)) adminIds ->
  let st' :=
    fst (handle (mkRequest (Some uid) now (PostAssign issueId adminIds notes))
                st) in
  forall adminId, In adminId adminIds ->
    exists v, In v (getAssignedIssues st' adminId)
              /\ issue_id (iv_issue v) = issueId
              /\ issue_status (iv_issue v) = Assigned.
Proof.
  intros Hu Hrole Hissue Hall st' adminId Hin. subst st'.
  assert (adminIds <> []) as Hne by (destruct adminIds; [contradiction | discriminate]).
  rewrite (post_assign_step st uid u issueId adminIds notes now
             Hu Hrole Hissue Hne Hall).
  destruct (find_issue_some (issues st) issueId Hissue) as [j [_ [Hj Hjin]]].
  eexists. split.
  - apply queue_member. exists (set_status Assigned j).
    split; [|split; [reflexivity | split; [|reflexivity]]].
    + simpl. unfold update_where. apply in_map_iff. exists j.
      split; [|exact Hjin]. rewrite Hj, Nat.eqb_refl. reflexivity.
    + unfold admin_rows. simpl. rewrite filter_app, length_app, Hj.
      pose proof (rows_name_admin (nextId st) issueId uid adminId adminIds
                    notes now Hin). lia.
  - simpl. split; [exact Hj | reflexivity].
Qed.

Lemma assigned_enters_queues_witness :
  option_map issue_status (getIssueRow st_resolved issue1) = Some Resolved /\
  exists v,
    In v (getAssignedIssues (fst (handle assign_again st_resolved)) adminA)
    /\ issue_id (iv_issue v) = issue1
    /\ issue_status (iv_issue v) = Assigned.
Proof.
  split; [reflexivity|].
  refine (assigned_enters_queues st_resolved superadmin
            (mkUser superadmin "s@example.org" "h2" "S" "superadmin" 3)
            issue1 [adminA] None 7 eq_refl eq_refl _ _ adminA _).
  - left. reflexivity.
  - constructor; [simpl; auto | constructor].
  - left. reflexivity.
Defined.

(** ** Analytics *)


Lemma list_sum_perm (l l' : list nat) :
  Permutation l l' -> list_sum l = list_sum l'.
Proof.
  induction 1; simpl; lia.
Qed.

Lemma list_sum_plus (A : Type) (f g : A -> nat) (l : list A) :
  list_sum (map (fun a => f a + g a) l)
  = list_sum (map f l) + list_sum (map g l).
Proof. induction l as [|a l IH]; simpl; [reflexivity | lia]. Qed.

Lemma list_sum_zero (A : Type) (l : list A) :
  list_sum (map (fun _ => 0) l) = 0.
Proof. induction l; simpl; auto. Qed.

Lemma one_category (cs : list Category) (k : id) :
  NoDup (map category_id cs) -> In k (map category_id cs) ->
  list_sum (map (fun c => if k =? category_id c then 1 else 0) cs) = 1.
Proof.
  induction cs as [|c cs IH]; simpl; intros Hd Hin; [contradiction|].
  inversion Hd as [|? ? Hnot Hrest]; subst.
  destruct (k =? category_id c) eqn:E.
  - apply Nat.eqb_eq in E. subst k.
    assert (list_sum (map (fun c0 => if category_id c =? category_id c0
                                     then 1 else 0) cs) = 0) as ->; [|reflexivity].
    clear - Hnot. induction cs as [|d cs IH]; simpl; [reflexivity|].
    destruct (category_id c =? category_id d) eqn:E.
    + apply Nat.eqb_eq in E. exfalso. apply Hnot. left. now symmetry.
    + apply IH. intros H. apply Hnot. now right.
  - simpl. apply IH; [exact Hrest|]. destruct Hin as [Hin|Hin]; [|exact Hin].
    apply Nat.eqb_neq in E. congruence.
Qed.

Lemma category_contribution (cs : list Category) (i : Issue) :
  NoDup (map category_id cs) ->
  fk_opt (issue_categoryId i) (map category_id cs) = true ->
  list_sum (map (fun c => if in_category c i then 1 else 0) cs)
  = if categorised i then 1 else 0.
Proof.
  intros Hd Hfk. unfold in_category, categorised.
  destruct (issue_categoryId i) as [k|]; simpl in *.
  - apply one_category; [exact Hd | now apply mem_In].
  - apply list_sum_zero.
Qed.

Lemma breakdown_sum (cs : list Category) (l : list Issue) :
  NoDup (map category_id cs) ->
  Forall (fun i => fk_opt (issue_categoryId i) (map category_id cs) = true) l ->
  list_sum (map (fun c => length (filter (in_category c) l)) cs)
  = length (filter categorised l).
Proof.
  intros Hd Hfk. induction Hfk as [|i l Hi _ IH]; simpl.
  - apply list_sum_zero.
  - rewrite (map_ext _ (fun c => (if in_category c i then 1 else 0)
                                 + length (filter (in_category c) l))).
    + rewrite list_sum_plus, IH, (category_contribution cs i Hd Hi).
      destruct (categorised i); reflexivity.
    + intros c. destruct (in_category c i); reflexivity.
Qed.

(** X19: the category breakdown has one row per category, with the
    category's name and the number of issues that carry its id; the query
    does not order the rows, and what follows holds of every order, the one
    [getAnalytics] lists them in included.  In a store the served requests
    can reach no name occurs twice, and the counts add up to the number of
    issues that have a category, so every such issue is counted once. *)
Theorem category_breakdown (st : Store) (rows : list (string * nat)) :
  reachable st ->
  admissible_categoryBreakdown st rows ->
  admissible_categoryBreakdown st (categoryBreakdown (getAnalytics st)) /\
  Permutation (map fst rows) (map category_name (categories st)) /\
  NoDup (map fst rows) /\
  (forall name count,
     In (name, count) rows <->
     exists c, In c (categories st) /\ category_name c = name
               /\ count = length (filter (in_category c) (issues st))) /\
  list_sum (map snd rows) = length (filter categorised (issues st)) /\
  list_sum (map snd rows) <= totalIssues (getAnalytics st).
Proof.
  intros Hr Hrows. unfold admissible_categoryBreakdown in *.
  destruct (reachable_keys_ok st Hr) as [_ [Hd _] _ _ _ _ Hnames Kir _].
  assert (Permutation (map fst rows) (map category_name (categories st)))
    as Hfst.
  { rewrite (Permutation_map fst Hrows), map_map. reflexivity. }
  assert (list_sum (map snd rows) = length (filter categorised (issues st)))
    as Hsum.
  { rewrite (list_sum_perm _ _ (Permutation_map snd Hrows)), map_map. simpl.
    apply breakdown_sum; [exact Hd|].
    eapply Forall_impl; [|exact Kir]. simpl. tauto. }
  split; [reflexivity|]. split; [exact Hfst|]. split; [|split; [|split]].
  - eapply Permutation_NoDup; [symmetry; exact Hfst | exact Hnames].
  - intros name count. split.
    + intros Hin. apply (Permutation_in _ Hrows) in Hin.
      apply in_map_iff in Hin. destruct Hin as [c [Heq Hc]].
      inversion Heq; subst. now exists c.
    + intros [c [Hc [<- ->]]]. apply (Permutation_in _ (Permutation_sym Hrows)).
      apply in_map_iff. now exists c.
  - exact Hsum.
  - rewrite Hsum. simpl. apply filter_length_le.
Qed.

Lemma category_breakdown_witness :
  reachable st_two_categories /\
  map category_name (categories st_two_categories) = ["Roads"; "Parks"] /\
  admissible_categoryBreakdown st_two_categories [("Parks", 0); ("Roads", 1)] /\
  list_sum (map snd [("Parks", 0); ("Roads", 1)])
    = length (filter categorised (issues st_two_categories)) /\
  totalIssues (getAnalytics st_two_categories) = 2.
Proof.
  assert (reachable st_two_categories) as Hr.
  { do 3 apply reachable_serve. apply reachable_registered. }
  assert (admissible_categoryBreakdown st_two_categories
            [("Parks", 0); ("Roads", 1)]) as Hrows
    by apply perm_swap.
  split; [exact Hr|]. split; [reflexivity|]. split; [exact Hrows|].
  split; [|reflexivity].
  exact (proj1 (proj2 (proj2 (proj2 (proj2
           (category_breakdown st_two_categories _ Hr Hrows)))))).
Defined.

(** ** What a list entry carries *)

Lemma group_entry (st : Store) (filters : IssueFilters) (i : Issue)
    (v : IssueView) :
  In v (getIssues_group st filters i) ->
  iv_issue v = i /\ iv_category v = category_of st i /\
  iv_user v = getUser st (issue_userId i) /\
  iv_userUpvoted v = None /\ iv_resolver v = None.
Proof.
  unfold getIssues_group. destruct (filter _ _); simpl; [contradiction|].
  intros [<-|[]]. simpl. auto.
Qed.

(** X20: every entry of a list [getIssues] returns (the public list of
    [GET /api/issues], which asks for no session, and the queue of an admin)
    is an issue of the store and carries, in a store the served requests
    can reach, the complete user row of its reporter, email and stored
    password included; it never carries a resolver, also when the issue is
    resolved, and never tells whether the viewer has voted. *)
Theorem list_entries (st : Store) (filters : IssueFilters) (v : IssueView) :
  reachable st ->
  In v (getIssues st filters) ->
  In (iv_issue v) (issues st) /\
  (exists reporter,
     iv_user v = Some reporter /\ In reporter (users st)
     /\ user_id reporter = issue_userId (iv_issue v)) /\
  iv_resolver v = None /\
  iv_userUpvoted v = None.
Proof.
  intros Hr Hv. unfold getIssues in Hv.
  apply (Permutation_in _ (order_by_createdAt_perm _)) in Hv.
  apply in_flat_map in Hv. destruct Hv as [i [Hi Hv]].
  destruct (group_entry st filters i v Hv) as [H1 [_ [H3 [H4 H5]]]].
  destruct (reachable_keys_ok st Hr) as [_ _ _ _ _ _ _ Kir _].
  rewrite Forall_forall in Kir. destruct (Kir i Hi) as [Hrep _].
  destruct (getUser_exists st _ Hrep) as [reporter Hreporter].
  rewrite H1. split; [exact Hi|]. split; [|now split].
  exists reporter. rewrite H3. split; [exact Hreporter|].
  unfold getUser in Hreporter. apply find_some in Hreporter.
  destruct Hreporter as [Hin Heq]. apply Nat.eqb_eq in Heq. now split.
Qed.

Lemma list_entries_witness :
  reachable st_resolved /\
  forall v,
    In v (getIssues st_resolved no_filters) ->
    issue_status (iv_issue v) = Resolved /\
    iv_resolver v = None /\
    exists reporter,
      iv_user v = Some reporter /\ user_password reporter = "h0".
Proof.
  assert (reachable st_resolved) as Hr.
  { exists (registrations ++ [submit_pothole; assign_to_A; resolve_by_A])%list.
    reflexivity. }
  split; [exact Hr|]. intros v Hv.
  destruct (list_entries st_resolved no_filters v Hr Hv) as [_ [_ [Hres _]]].
  destruct Hv as [<-|[]]. split; [reflexivity|]. split; [exact Hres|].
  eexists. split; reflexivity.
Defined.

(** ** Passwords *)

Lemma hex_digit_no_dot (n : nat) : Ascii.eqb (hex_digit n) "." = false.
Proof.
  do 15 (destruct n as [|n]; [reflexivity|]). reflexivity.
Qed.

Lemma from_hex_byte (b : ascii) (rest : string) :
  from_hex (String (hex_digit (nat_of_ascii b / 16))
              (String (hex_digit (nat_of_ascii b mod 16)) rest))
  = b :: from_hex rest.
Proof.
  destruct b as [[] [] [] [] [] [] [] []]; reflexivity.
Qed.

Lemma from_to_hex (bytes : list ascii) : from_hex (to_hex bytes) = bytes.
Proof.
  induction bytes as [|b bytes IH]; [reflexivity|].
  cbn [to_hex]. rewrite from_hex_byte. now rewrite IH.
Qed.

Lemma split_dot_cons (c : ascii) (rest : string) :
  Ascii.eqb c "." = false ->
  exists first more,
    split_dot rest = first :: more /\
    split_dot (String c rest) = String c first :: more.
Proof.
  intros Hc. simpl. rewrite Hc.
  assert (split_dot rest <> []) as Hne
    by (destruct rest as [|d r]; simpl; [discriminate|];
        destruct (Ascii.eqb d "."); [discriminate|];
        destruct (split_dot r); discriminate).
  destruct (split_dot rest) as [|first more]; [congruence|].
  now exists first, more.
Qed.

Lemma split_dot_hex (bytes : list ascii) (rest first : string)
    (more : list string) :
  split_dot rest = first :: more ->
  split_dot (to_hex bytes ++ rest) = (to_hex bytes ++ first)%string :: more.
Proof.
  intros Hrest. induction bytes as [|b bytes IH]; [exact Hrest|].
  cbn [to_hex append].
  destruct (split_dot_cons (hex_digit (nat_of_ascii b mod 16))
              (to_hex bytes ++ rest) (hex_digit_no_dot _))
    as [f1 [m1 [H1 H2]]].
  rewrite IH in H1. inversion H1; subst f1 m1.
  destruct (split_dot_cons (hex_digit (nat_of_ascii b / 16))
              (String (hex_digit (nat_of_ascii b mod 16))
                      (to_hex bytes ++ rest)) (hex_digit_no_dot _))
    as [f2 [m2 [H3 H4]]].
  rewrite H2 in H3. inversion H3; subst f2 m2. exact H4.
Qed.

Lemma append_empty (s : string) : (s ++ "")%string = s.
Proof. induction s as [|c s IH]; simpl; [reflexivity | now rewrite IH]. Qed.

Lemma split_stored (key saltBytes : list ascii) :
  split_dot (to_hex key ++ "." ++ to_hex saltBytes)
  = [to_hex key; to_hex saltBytes].
Proof.
  rewrite (split_dot_hex key _ "" [to_hex saltBytes]).
  - now rewrite append_empty.
  - change ("." ++ to_hex saltBytes)%string
      with (String "." (to_hex saltBytes)).
    cbn [split_dot]. rewrite Ascii.eqb_refl. f_equal.
    rewrite <- (append_empty (to_hex saltBytes)) at 1.
    rewrite (split_dot_hex saltBytes "" "" []) by reflexivity.
    now rewrite append_empty.
Qed.

Lemma bytes_eqb_eq (a b : list ascii) : bytes_eqb a b = true <-> a = b.
Proof.
  revert b. induction a as [|x a IH]; intros [|y b]; simpl;
    try (split; [discriminate | discriminate]); [tauto|].
  rewrite andb_true_iff, Ascii.eqb_eq, IH. split.
  - intros [-> ->]. reflexivity.
  - intros H. inversion H. auto.
Qed.

Lemma password_round_trip_key (scrypt : string -> string -> list ascii)
    (password : string) (saltBytes : list ascii) :
  (forall p s, length (scrypt p s) = 64) ->
  comparePasswords scrypt password (hashPassword scrypt password saltBytes)
    = Return true /\
  forall other,
    comparePasswords scrypt other (hashPassword scrypt password saltBytes)
    = Return (bytes_eqb (scrypt password (to_hex saltBytes))
                        (scrypt other (to_hex saltBytes))).
Proof.
  intros Hlen. unfold comparePasswords, hashPassword. cbv zeta.
  split; [|intros other]; rewrite split_stored, from_to_hex, !Hlen; simpl.
  - f_equal. now apply bytes_eqb_eq.
  - reflexivity.
Qed.

(** X21: a password checks against its own hash and against nothing that
    derives another key: for every key derivation that returns 64 bytes
    and every salt, [comparePasswords] accepts the password that
    [hashPassword] hashed, and accepts another password exactly when the
    derivation gives it the same key under that salt. *)
Theorem password_round_trip (scrypt : string -> string -> list ascii)
    (password other : string) (saltBytes : list ascii) :
  (forall p s, length (scrypt p s) = 64) ->
  let stored := hashPassword scrypt password saltBytes in
  comparePasswords scrypt password stored = Return true /\
  exists accepted,
    comparePasswords scrypt other stored = Return accepted /\
    (accepted = true <->
       scrypt other (to_hex saltBytes) = scrypt password (to_hex saltBytes)).
Proof.
  intros Hlen stored. subst stored. unfold comparePasswords, hashPassword.
  cbv zeta. rewrite split_stored, from_to_hex, !Hlen. simpl.
  split.
  - f_equal. now apply bytes_eqb_eq.
  - eexists. split; [reflexivity|]. rewrite bytes_eqb_eq.
    split; intros H; now symmetry.
Qed.

Lemma toy_kdf_length (p s : string) : length (toy_kdf p s) = 64.
Proof.
  unfold toy_kdf. rewrite length_firstn, length_app, repeat_length. lia.
Qed.

Lemma password_round_trip_witness :
  comparePasswords toy_kdf "secret"
    (hashPassword toy_kdf "secret" ["001"%char; "255"%char]) = Return true /\
  comparePasswords toy_kdf "guess"
    (hashPassword toy_kdf "secret" ["001"%char; "255"%char]) = Return false.
Proof.
  destruct (password_round_trip toy_kdf "secret" "guess"
              ["001"%char; "255"%char] toy_kdf_length) as [H1 _].
  split; [exact H1 | reflexivity].
Defined.

Lemma app_accepted (st : Store) (req : Request) :
  accepted (snd (app req st)) = true ->
  app req st = handle req st
  /\ forall uid, req_session req = Some uid -> In uid (user_ids st).
Proof.
  unfold app, passport_session, deserializeUser.
  destruct (req_session req) as [uid|].
  - destruct (getUser st uid) as [u|] eqn:Hu; simpl; [|discriminate].
    intros _. split; [reflexivity|]. intros k Hk. inversion Hk; subst k.
    apply mem_In. now apply (getUser_Some st uid u).
  - intros _. split; [reflexivity | discriminate].
Qed.

Lemma truthy_text (s : string) : s <> "" -> truthy (Some s) = Some s.
Proof. destruct s; [congruence | reflexivity]. Qed.

(** X22: an account can log in with the password it was registered with.
    When the register route has accepted a registration whose stored
    password is what [hashPassword] made of the password, the login route
    answers 200 for that email and password, if neither is empty, with the
    user without its password, and puts the id of the new user in the
    session, under which later requests act as that user.  A login without
    an email or without a password, or with an empty one, is answered 400;
    a login with both for an email that is not registered is answered
    401. *)
Theorem register_then_login (scrypt : string -> string -> list ascii)
    (st : Store) (session : option id) (now : timestamp)
    (body : RegisterBody) (saltBytes : list ascii) :
  (forall p s, length (scrypt p s) = 64) ->
  reachable st ->
  let hashed := hashPassword scrypt (reg_password body) saltBytes in
  let register := mkRequest session now (PostRegister body hashed) in
  accepted (snd (app register st)) = true ->
  let st' := fst (app register st) in
  (exists user,
     getUserByEmail st' (reg_email body) = Some user /\
     user_role user = match reg_role body with
                      | Some r => r
                      | None => "citizen"
                      end /\
     (forall now2 call,
        req_user st' (mkRequest (Some (user_id user)) now2 call) = Some user) /\
     (reg_email body <> "" -> reg_password body <> "" ->
      post_login scrypt st' (Some (reg_email body)) (Some (reg_password body))
        = Return (mkReadResponse 200 (SessionUserJson (sanitize user)),
                  Some (user_id user)))) /\
  (forall email password,
     truthy email = None \/ truthy password = None ->
     post_login scrypt st' email password
       = Return (mkReadResponse 400 (ReadMessage "Bad Request"), None)) /\
  (forall email password,
     email <> "" -> password <> "" ->
     getUserByEmail st' email = None ->
     post_login scrypt st' (Some email) (Some password)
       = Return (mkReadResponse 401 (ReadMessage "Unauthorized"), None)).
Proof.
  intros Hlen Hr hashed register Hacc st'.
  destruct (reachable_keys_ok st Hr) as [[_ Hbelow] _ _ _ _ _ _ _ _].
  destruct (app_accepted st register Hacc) as [Happ _].
  subst st'. rewrite Happ in *. clear Happ.
  assert (getUserByEmail st (reg_email body) = None) as Hfree.
  { revert Hacc. unfold register, handle. simpl.
    unfold post_register, bind, get, json, ret.
    destruct (getUserByEmail st (reg_email body)); [discriminate | reflexivity]. }
  unfold register, handle. simpl.
  rewrite (post_register_new st now body hashed Hfree).
  split; [|split].
  - eexists. split; [|split; [|split]].
    + unfold getUserByEmail. simpl.
      apply find_snoc_new; [exact Hfree | simpl; apply String.eqb_refl].
    + reflexivity.
    + intros now2 call. unfold req_user, getUser. simpl.
      apply find_snoc_new; [now apply getUser_fresh|].
      simpl. apply Nat.eqb_refl.
    + intros He Hp. unfold post_login.
      rewrite (truthy_text _ He), (truthy_text _ Hp).
      unfold verify_login, getUserByEmail. simpl.
      rewrite (find_snoc_new _ _ _ _ Hfree) by (simpl; apply String.eqb_refl).
      simpl. unfold hashed.
      destruct (password_round_trip_key scrypt (reg_password body) saltBytes
                  Hlen) as [-> _].
      reflexivity.
  - intros email password H. unfold post_login.
    destruct H as [-> | H]; [reflexivity|]. rewrite H.
    now destruct (truthy email).
  - intros email password He Hp Hnone. unfold post_login.
    rewrite (truthy_text _ He), (truthy_text _ Hp).
    unfold verify_login. now rewrite Hnone.
Qed.

Lemma register_then_login_witness :
  reachable st_registered /\
  let hashed := hashPassword toy_kdf "secret" ["007"%char] in
  let register :=
    mkRequest None 9
      (PostRegister (mkRegisterBody "new@example.org" "secret" "New" None)
                    hashed) in
  accepted (snd (app register st_registered)) = true /\
  let st' := fst (app register st_registered) in
  post_login toy_kdf st' (Some "new@example.org") (Some "secret")
    = Return (mkReadResponse 200
                (SessionUserJson
                   (mkSanitizedUser 3 "new@example.org" "New" "citizen" 9)),
              Some 3) /\
  post_login toy_kdf st' (Some "new@example.org") (Some "guess")
    = Return (mkReadResponse 401 (ReadMessage "Unauthorized"), None) /\
  post_login toy_kdf st' (Some "new@example.org") (Some "")
    = Return (mkReadResponse 400 (ReadMessage "Bad Request"), None) /\
  post_login toy_kdf st' None (Some "secret")
    = Return (mkReadResponse 400 (ReadMessage "Bad Request"), None).
Proof.
  assert (reachable st_registered) as Hr by (exists registrations; reflexivity).
  split; [exact Hr|]. cbv zeta. split; [reflexivity|].
  destruct (register_then_login toy_kdf st_registered None 9
              (mkRegisterBody "new@example.org" "secret" "New" None)
              ["007"%char] toy_kdf_length Hr eq_refl) as [_ [H400 _]].
  split; [reflexivity|]. split; [reflexivity|].
  split; [apply H400; now right | apply H400; now left].
Defined.

(** ** When a route accepts *)

Lemma req_user_known (st : Store) (req : Request) (u : User) :
  req_user st req = Some u -> mem (user_id u) (user_ids st) = true.
Proof.
  intros H. apply mem_In. unfold user_ids. apply in_map.
  now apply (req_user_row st req).
Qed.

Lemma accepts_register (st : Store) (body : RegisterBody) (hashed : string)
    (now : timestamp) :
  accepted (snd (post_register body hashed now st)) = true <->
  getUserByEmail st (reg_email body) = None.
Proof.
  unfold post_register, bind, get, createUser, json, ret. simpl.
  destruct (getUserByEmail st (reg_email body)) eqn:E; simpl.
  - split; discriminate.
  - rewrite E. simpl. tauto.
Qed.

Lemma accepts_categories (st : Store) (user : option User)
    (name : option string) :
  accepted (snd (post_categories user name st)) = true <->
  (exists u, user = Some u /\ user_role u = "superadmin") /\
  (exists n, name = Some n /\ ~ In n (map category_name (categories st))).
Proof.
  unfold post_categories, requireAuth, requireRole, try_catch, bind,
    insertCategorySchema_parse, createCategory, json, ret, throw.
  destruct user as [u|]; simpl.
  2:{ split; [discriminate | intros [[u [H _]] _]; discriminate]. }
  destruct (String.eqb (user_role u) "superadmin") eqn:Er; simpl.
  2:{ apply String.eqb_neq in Er.
      split; [discriminate | intros [[v [H Hr]] _]; inversion H; subst; tauto]. }
  apply String.eqb_eq in Er.
  destruct name as [n|]; simpl.
  2:{ split; [discriminate | intros [_ [n [H _]]]; discriminate]. }
  destruct (existsb _ (categories st)) eqn:Ex; simpl.
  - split; [discriminate|]. intros [_ [m [Hm Hfree]]]. inversion Hm; subst m.
    exfalso. apply Hfree. apply existsb_exists in Ex.
    destruct Ex as [c [Hc Hn]]. apply String.eqb_eq in Hn.
    apply in_map_iff. now exists c.
  - split; [|reflexivity]. intros _. split; [now exists u|].
    exists n. split; [reflexivity | now apply name_free].
Qed.

Lemma accepts_issues (st : Store) (user : option User) (body : IssueBody)
    (files : list string) (now : timestamp) :
  (forall u, user = Some u -> mem (user_id u) (user_ids st) = true) ->
  accepted (snd (post_issues user body files now st)) = true <->
  (exists u, user = Some u) /\ length files <= 5 /\ complete body = true /\
  fk_opt (body_categoryId body) (category_ids st) = true.
Proof.
  intros Hknown.
  unfold post_issues, requireAuth, upload_array, try_catch, bind,
    insertIssueSchema_parse, createIssue, json, ret, throw.
  destruct user as [u|]; simpl.
  2:{ split; [discriminate | intros [[u H] _]; discriminate]. }
  pose proof (Hknown u eq_refl) as Hm.
  destruct (5 <? length files) eqn:Ef; simpl.
  { apply Nat.ltb_lt in Ef. split; [discriminate | intros [_ [H _]]; lia]. }
  apply Nat.ltb_ge in Ef.
  destruct body as [[?|] [?|] [?|] [?|] [?|] [?|] cat [?|] [?|]]; simpl;
    try (split; [discriminate | intros [_ [_ [H _]]]; discriminate]).
  rewrite Hm, andb_true_r.
  destruct (fk_opt cat (category_ids st)) eqn:Ec; simpl.
  - split; [|reflexivity]. intros _. split; [now exists u|]. auto.
  - split; [discriminate | intros [_ [_ [_ H]]]; discriminate].
Qed.

Lemma accepts_upvote (st : Store) (user : option User) (issueId : id)
    (now : timestamp) :
  (forall u, user = Some u -> mem (user_id u) (user_ids st) = true) ->
  accepted (snd (post_upvote user issueId now st)) = true <->
  exists u, user = Some u /\
            (has_vote st (user_id u) issueId = true
             \/ In issueId (issue_ids st)).
Proof.
  intros Hknown.
  unfold post_upvote, requireAuth, try_catch, bind, toggleUpvote,
    toggleUpvote_write, bind, selectUpvote, insertUpvote, deleteUpvote,
    countUpvotes, json, ret.
  destruct user as [u|]; simpl.
  2:{ split; [discriminate | intros [u [H _]]; discriminate]. }
  pose proof (Hknown u eq_refl) as Hm.
  destruct (has_vote st (user_id u) issueId) eqn:Hv.
  - destruct (has_vote_true_filter _ _ _ Hv) as [v Hf].
    destruct (filter (upvote_matches (user_id u) issueId) (upvotes st))
      as [|e l]; [discriminate|]. simpl.
    split; [|reflexivity]. intros _. exists u. auto.
  - rewrite (has_vote_false_filter _ _ _ Hv). simpl. rewrite Hm. simpl.
    destruct (mem issueId (issue_ids st)) eqn:Ei; simpl.
    + split; [|reflexivity]. intros _. exists u. split; [reflexivity|].
      right. now apply mem_In.
    + split; [discriminate|]. intros [v [H [Hc|Hc]]]; inversion H; subst v.
      * congruence.
      * apply mem_In in Hc. congruence.
Qed.

Lemma accepts_resolve (st : Store) (user : option User) (issueId : id)
    (notes : option string) (file : option string) (now : timestamp) :
  (forall u, user = Some u -> mem (user_id u) (user_ids st) = true) ->
  accepted (snd (post_resolve user issueId notes file now st)) = true <->
  (exists u, user = Some u /\ user_role u = "admin") /\
  (exists n, notes = Some n /\ n <> "") /\
  (exists f, file = Some f).
Proof.
  intros Hknown.
  unfold post_resolve, requireAuth, requireRole, try_catch, bind,
    resolveIssueSchema_parse, resolveIssue, json, ret, throw.
  destruct user as [u|]; simpl.
  2:{ split; [discriminate | intros [[u [H _]] _]; discriminate]. }
  pose proof (Hknown u eq_refl) as Hk.
  destruct (String.eqb (user_role u) "admin") eqn:Er; simpl.
  2:{ apply String.eqb_neq in Er.
      split; [discriminate | intros [[v [H Hr]] _]; inversion H; subst; tauto]. }
  apply String.eqb_eq in Er.
  destruct notes as [[|c n]|]; simpl;
    try (split; [discriminate | intros [_ [[m [Hm Hne]] _]]; inversion Hm;
                                 congruence]).
  destruct file as [f|]; simpl.
  - rewrite Hk, andb_false_r. simpl. split; [|reflexivity]. intros _.
    split; [now exists u|]. split; [|now exists f].
    exists (String c n). split; [reflexivity | discriminate].
  - split; [discriminate | intros [_ [_ [f H]]]; discriminate].
Qed.

Lemma accepts_analytics (st : Store) (user : option User) :
  accepted (snd (get_analytics user st)) = true <->
  exists u, user = Some u
            /\ (user_role u = "admin" \/ user_role u = "superadmin").
Proof.
  unfold get_analytics, requireAuth, requireRole, bind, get, json, ret.
  destruct user as [u|]; simpl.
  2:{ split; [discriminate | intros [u [H _]]; discriminate]. }
  destruct (String.eqb (user_role u) "admin") eqn:Ea; simpl.
  - apply String.eqb_eq in Ea. split; [|reflexivity]. intros _. exists u. auto.
  - destruct (String.eqb (user_role u) "superadmin") eqn:Es; simpl.
    + apply String.eqb_eq in Es. split; [|reflexivity]. intros _.
      exists u. auto.
    + apply String.eqb_neq in Ea, Es. split; [discriminate|].
      intros [v [H [Hr|Hr]]]; inversion H; subst; tauto.
Qed.

Lemma assign_each_returns (issueId assignedBy : id) (notes : option string)
    (now : timestamp) (adminIds : list id) :
  forall (done : list Assignment) (st : Store),
  mem assignedBy (user_ids st) = true ->
  returned (snd (assign_each issueId adminIds assignedBy notes now done st))
    = true <->
  adminIds = [] \/
  (In issueId (issue_ids st) /\ Forall (fun a => In a (user_ids st)) adminIds).
Proof.
  induction adminIds as [|a rest IH]; intros done st Hby; simpl.
  - split; [now left | reflexivity].
  - unfold bind.
    destruct (mem issueId (issue_ids st)) eqn:Ei.
    2:{ unfold assignIssue, bind, insertAssignment. simpl. rewrite Ei. simpl.
        split; [discriminate|]. intros [H|[H _]]; [discriminate|].
        apply mem_In in H. congruence. }
    destruct (mem a (user_ids st)) eqn:Ea.
    2:{ rewrite assignIssue_bad_admin by exact Ea. simpl.
        split; [discriminate|]. intros [H|[_ H]]; [discriminate|].
        inversion H as [|? ? Hin _]; subst. apply mem_In in Hin. congruence. }
    rewrite (assignIssue_ok st issueId a assignedBy notes now Ei Ea Hby).
    rewrite IH by exact Hby.
    rewrite assigned_store_ids. apply mem_In in Ei, Ea.
    split.
    + intros [->|[_ Hall]]; right; (split; [exact Ei|]).
      * constructor; [exact Ea | constructor].
      * constructor; [exact Ea | exact Hall].
    + intros [H|[_ Hall]]; [discriminate|].
      inversion Hall; subst. right. now split.
Qed.

Lemma accepts_assign (st : Store) (user : option User) (issueId : id)
    (adminIds : list id) (notes : option string) (now : timestamp) :
  (forall u, user = Some u -> mem (user_id u) (user_ids st) = true) ->
  accepted (snd (post_assign user issueId adminIds notes now st)) = true <->
  (exists u, user = Some u /\ user_role u = "superadmin") /\
  adminIds <> [] /\
  In issueId (issue_ids st) /\
  Forall (fun a => In a (user_ids st)) adminIds.
Proof.
  intros Hknown. unfold post_assign, requireAuth, requireRole.
  destruct user as [u|]; simpl.
  2:{ split; [discriminate | intros [[u [H _]] _]; discriminate]. }
  pose proof (Hknown u eq_refl) as Hk.
  destruct (String.eqb (user_role u) "superadmin") eqn:Er; simpl.
  2:{ apply String.eqb_neq in Er.
      split; [discriminate | intros [[v [H Hr]] _]; inversion H; subst; tauto]. }
  apply String.eqb_eq in Er.
  destruct adminIds as [|a rest].
  { simpl. split; [discriminate | intros [_ [H _]]; congruence]. }
  unfold try_catch, bind.
  pose proof (assign_each_returns issueId (user_id u) notes now (a :: rest)
                [] st Hk) as Hret.
  destruct (assign_each issueId (a :: rest) (user_id u) notes now [] st)
    as [s [rows|]]; simpl in *.
  - split; [|reflexivity]. intros _.
    destruct (proj1 Hret eq_refl) as [H|[H1 H2]]; [discriminate|].
    split; [now exists u|]. split; [discriminate | now split].
  - split; [discriminate|]. intros [_ [_ [H1 H2]]].
    assert (false = true) by (apply Hret; right; now split). discriminate.
Qed.

(** X23: what a request has met when it is answered with a status below
    400.  Its session, if it has one, names a user.  Registering: the email
    was unused.  Creating a category: a superadmin, and a name no category
    had.  Submitting: a session, at most five files, every required field,
    no category or an existing one.  Voting: a session, and the issue
    exists or the caller has a vote on that id.  Resolving: an admin,
    non-empty notes and a file; whether an issue has the id, and its
    status, are not asked.  Assigning: a superadmin, at least one admin id
    and an existing issue.  Analytics: an admin or a superadmin.  For a
    vote and for the analytics, which store no text of the request, these
    conditions are also enough. *)
Theorem accepted_only_if (st : Store) (req : Request) :
  (accepted (snd (app req st)) = true ->
   (forall uid, req_session req = Some uid -> In uid (user_ids st)) /\
   match req_call req with
   | PostRegister body _ => getUserByEmail st (reg_email body) = None
   | PostCategories name =>
       (exists u, req_user st req = Some u /\ user_role u = "superadmin") /\
       (exists n, name = Some n /\ ~ In n (map category_name (categories st)))
   | PostIssues body files =>
       (exists u, req_user st req = Some u) /\ length files <= 5 /\
       complete body = true /\
       fk_opt (body_categoryId body) (category_ids st) = true
   | PostUpvote issueId =>
       exists u, req_user st req = Some u /\
                 (has_vote st (user_id u) issueId = true
                  \/ In issueId (issue_ids st))
   | PostResolve _ notes file =>
       (exists u, req_user st req = Some u /\ user_role u = "admin") /\
       (exists n, notes = Some n /\ n <> "") /\
       (exists f, file = Some f)
   | PostAssign issueId adminIds _ =>
       (exists u, req_user st req = Some u /\ user_role u = "superadmin") /\
       adminIds <> [] /\
       In issueId (issue_ids st)
   | GetAnalytics =>
       exists u, req_user st req = Some u
                 /\ (user_role u = "admin" \/ user_role u = "superadmin")
   end) /\
  match req_call req with
  | PostUpvote issueId =>
      (exists u, req_user st req = Some u /\
                 (has_vote st (user_id u) issueId = true
                  \/ In issueId (issue_ids st))) ->
      accepted (snd (app req st)) = true
  | GetAnalytics =>
      (exists u, req_user st req = Some u
                 /\ (user_role u = "admin" \/ user_role u = "superadmin")) ->
      accepted (snd (app req st)) = true
  | _ => True
  end.
Proof.
  pose proof (req_user_known st req) as Hknown.
  split.
  - intros Hacc. destruct (app_accepted st req Hacc) as [Happ Hsession].
    split; [exact Hsession|]. rewrite Happ in Hacc. clear Happ Hsession.
    revert Hacc. unfold handle. destruct (req_call req); intros Hacc.
    + now apply accepts_register in Hacc.
    + now apply accepts_categories in Hacc.
    + now apply accepts_issues in Hacc.
    + now apply accepts_upvote in Hacc.
    + now apply accepts_resolve in Hacc.
    + apply accepts_assign in Hacc; [|exact Hknown]. tauto.
    + now apply accepts_analytics in Hacc.
  - destruct (req_call req) eqn:Hcall; try exact I.
    + intros [u [Hu H]]. rewrite (app_with_user st req u Hu).
      unfold handle. rewrite Hcall.
      apply accepts_upvote; [exact Hknown | now exists u].
    + intros [u [Hu H]]. rewrite (app_with_user st req u Hu).
      unfold handle. rewrite Hcall.
      apply accepts_analytics. now exists u.
Qed.

Lemma accepted_only_if_witness :
  accepted (snd (app (mkRequest (Some adminA) 9
                        (PostResolve 99 (Some "done") (Some "p.png")))
                     st_submitted)) = true /\
  ~ In 99 (issue_ids st_submitted) /\
  In adminA (user_ids st_submitted) /\
  accepted (snd (app (mkRequest (Some citizen) 9 (PostUpvote issue1))
                     st_submitted)) = true.
Proof.
  split; [reflexivity|].
  split; [simpl; intros [H|[]]; discriminate|].
  split.
  - exact (proj1 (proj1 (accepted_only_if st_submitted
                           (mkRequest (Some adminA) 9
                              (PostResolve 99 (Some "done") (Some "p.png"))))
                        eq_refl) adminA eq_refl).
  - apply (proj2 (accepted_only_if st_submitted
                    (mkRequest (Some citizen) 9 (PostUpvote issue1)))).
    eexists. split; [reflexivity|]. right. left. reflexivity.
Defined.

(** ** Ids that name nothing, users who are not admins *)

Lemma update_where_miss (k : id) (f : Issue -> Issue) (l : list Issue) :
  ~ In k (map issue_id l) -> update_where k f l = l.
Proof.
  intros Hmiss. unfold update_where. rewrite <- (map_id l) at 2.
  apply map_ext_in. intros i Hi.
  destruct (issue_id i =? k) eqn:E; [|reflexivity].
  apply Nat.eqb_eq in E. exfalso. apply Hmiss. rewrite <- E. now apply in_map.
Qed.

(** X24: resolving an id that names no issue is answered 200 "Issue
    resolved successfully" all the same, and nothing is written. *)
Theorem resolve_unknown_issue (st : Store) (uid : id) (u : User)
    (issueId : id) (notes file : string) (now : timestamp) :
  getUser st uid = Some u ->
  user_role u = "admin" ->
  notes <> "" ->
  ~ In issueId (issue_ids st) ->
  handle (mkRequest (Some uid) now
            (PostResolve issueId (Some notes) (Some file))) st =
    (st, Return (mkResponse 200 (Message "Issue resolved successfully"))).
Proof.
  intros Hu Hrole Hn Hmiss.
  rewrite (post_resolve_step st uid u issueId notes file now Hu Hrole Hn).
  unfold resolved_store. rewrite update_where_miss by exact Hmiss.
  now destruct st.
Qed.

Lemma resolve_unknown_issue_witness :
  ~ In 99 (issue_ids st_submitted) /\
  handle (mkRequest (Some adminA) 9
            (PostResolve 99 (Some "done") (Some "p.png"))) st_submitted =
    (st_submitted,
     Return (mkResponse 200 (Message "Issue resolved successfully"))).
Proof.
  assert (~ In 99 (issue_ids st_submitted)) as Hmiss
    by (simpl; intros [H|[]]; discriminate).
  split; [exact Hmiss|].
  refine (resolve_unknown_issue st_submitted adminA
            (mkUser adminA "a@example.org" "h1" "A" "admin" 2) 99
            "done" "p.png" 9 eq_refl eq_refl _ Hmiss).
  discriminate.
Defined.

Lemma getUser_same_users (a b : Store) (uid : id) :
  users b = users a -> getUser b uid = getUser a uid.
Proof. unfold getUser. now intros ->. Qed.

(** X25: the assign route takes the id of any user as an admin id.  When a
    superadmin assigns an existing issue to an existing user whose role is
    not admin, the route accepts the request (a status below 400), the
    issue has status assigned and an assignment row names that user; the
    list of admins ([getAdminUsers]) does not contain that user, and the
    queue route and the resolve route answer that user 403. *)
Theorem assign_to_non_admin (st : Store) (uid : id) (u : User)
    (issueId : id) (assignee : User) (notes : option string)
    (now now2 : timestamp) :
  getUser st uid = Some u ->
  user_role u = "superadmin" ->
  In issueId (issue_ids st) ->
  getUser st (user_id assignee) = Some assignee ->
  user_role assignee <> "admin" ->
  let req := mkRequest (Some uid) now
               (PostAssign issueId [user_id assignee] notes) in
  let st' := fst (handle req st) in
  accepted (snd (handle req st)) = true /\
  (exists i, In i (issues st') /\ issue_id i = issueId
             /\ issue_status i = Assigned) /\
  0 < admin_rows st' (user_id assignee) issueId /\
  ~ In assignee (getAdminUsers st') /\
  get_admin_issues st' (getUser st' (user_id assignee))
    = mkReadResponse 403 (ReadMessage "Insufficient permissions") /\
  (forall notes2 file2,
     handle (mkRequest (Some (user_id assignee)) now2
               (PostResolve issueId notes2 file2)) st'
     = (st', Return (mkResponse 403 (Message "Insufficient permissions")))).
Proof.
  intros Hu Hrole Hissue Ha Hnot req st'.
  assert (In (user_id assignee) (user_ids st)) as Hain.
  { apply mem_In. now apply (getUser_Some st _ assignee). }
  assert (Forall (fun a => In a (user_ids st)) [user_id assignee]) as Hall
    by (constructor; [exact Hain | constructor]).
  assert (st' = assigned_store st issueId
                  (assignment_rows (nextId st) issueId [user_id assignee]
                                   uid notes now)) as Hst'.
  { apply (post_assign_step st uid u); auto. discriminate. }
  assert (getUser st' (user_id assignee) = Some assignee) as Ha'.
  { rewrite Hst'. rewrite (getUser_same_users st); [exact Ha | reflexivity]. }
  split; [|split; [|split; [|split; [|split]]]].
  - unfold handle. subst req. cbn [req_call req_now].
    apply (proj2 (accepts_assign st _ issueId [user_id assignee] notes now
                    (req_user_known st _))).
    unfold req_user. simpl. rewrite Hu.
    split; [now exists u|]. split; [discriminate | now split].
  - destruct (find_issue_some (issues st) issueId Hissue) as [j [_ [Hj Hjin]]].
    exists (set_status Assigned j). rewrite Hst'. simpl.
    split; [|now split].
    unfold update_where. apply in_map_iff. exists j.
    split; [|exact Hjin]. now rewrite Hj, Nat.eqb_refl.
  - rewrite Hst'. unfold admin_rows. simpl.
    rewrite filter_app, length_app. simpl. rewrite !Nat.eqb_refl. simpl. lia.
  - unfold getAdminUsers. intros Hin. apply filter_In in Hin.
    destruct Hin as [_ Hr]. apply String.eqb_eq in Hr. contradiction.
  - rewrite Ha'. unfold get_admin_issues, guarded. simpl.
    apply String.eqb_neq in Hnot. now rewrite Hnot.
  - intros notes2 file2. unfold handle, req_user. simpl. rewrite Ha'.
    unfold post_resolve, requireAuth. now apply lacks_role.
Qed.

Lemma assign_to_non_admin_witness :
  let req := mkRequest (Some superadmin) 5 (PostAssign issue1 [citizen] None) in
  let st' := fst (handle req st_submitted) in
  accepted (snd (handle req st_submitted)) = true /\
  get_admin_issues st' (getUser st' citizen)
    = mkReadResponse 403 (ReadMessage "Insufficient permissions").
Proof.
  destruct (assign_to_non_admin st_submitted superadmin
              (mkUser superadmin "s@example.org" "h2" "S" "superadmin" 3)
              issue1
              (mkUser citizen "cit@example.org" "h0" "Cit" "citizen" 1)
              None 5 6 eq_refl eq_refl) as [H1 [_ [_ [_ [H2 _]]]]].
  - left. reflexivity.
  - reflexivity.
  - simpl. discriminate.
  - split; [exact H1 | exact H2].
Defined.

(** ** What the routes let into an issue *)

Lemma content_same (a b : Store) :
  issues b = issues a -> content_ok a -> content_ok b.
Proof. unfold content_ok. now intros ->. Qed.

Lemma content_createUser (insertUser : InsertUser) (now : timestamp) :
  respects (fun a b => content_ok a -> content_ok b) (createUser insertUser now).
Proof.
  intros st. apply content_same. unfold createUser.
  destruct (getUserByEmail st _); reflexivity.
Qed.

Lemma content_createCategory (name : string) :
  respects (fun a b => content_ok a -> content_ok b) (createCategory name).
Proof.
  intros st. apply content_same. unfold createCategory.
  destruct (existsb _ _); reflexivity.
Qed.

Lemma content_toggleUpvote (userId issueId : id) (now : timestamp) :
  respects (fun a b => content_ok a -> content_ok b)
           (toggleUpvote userId issueId now).
Proof. intros st. apply content_same. apply toggleUpvote_frame. Qed.

Lemma content_assignIssue (assignment : InsertAssignment) (now : timestamp) :
  respects (fun a b => content_ok a -> content_ok b) (assignIssue assignment now).
Proof.
  intros st Hok. destruct (assignIssue_frame assignment now st)
    as [_ [_ [_ [H|H]]]].
  - now apply (content_same st).
  - unfold content_ok. rewrite H.
    eapply update_where_Forall; [exact Hok| |]; simpl; auto.
Qed.

Lemma content_step (st : Store) (req : Request) :
  content_ok st -> content_ok (fst (handle req st)).
Proof.
  intros Hok.
  pose (Rc := fun a b : Store => content_ok a -> content_ok b).
  assert (forall s, Rc s s) as Rrefl by (intros ? ?; assumption).
  assert (forall a b c, Rc a b -> Rc b c -> Rc a c) as Rtrans
    by (unfold Rc; auto).
  pose proof (req_user_known st req) as Hknown.
  destruct req as [session now call]. unfold handle. simpl in *.
  destruct call as [body hashed|name|body files|issueId|issueId notes file
                    |issueId adminIds notes|].
  - now apply (respects_post_register Rc Rrefl Rtrans content_createUser).
  - now apply (respects_post_categories Rc Rrefl Rtrans content_createCategory).
  - set (user := req_user st (mkRequest session now (PostIssues body files)))
      in *.
    destruct (accepted (snd (post_issues user body files now st))) eqn:Eacc.
    + apply (accepts_issues st user body files now Hknown) in Eacc.
      destruct Eacc as [[u Hu] [Hfiles [Hbody Hcat]]].
      unfold user, req_user in Hu. simpl in Hu.
      destruct session as [uid|]; [|discriminate].
      pose proof (post_issues_step st uid u body files now Hu Hbody Hcat Hfiles)
        as Hstep.
      unfold handle in Hstep. simpl in Hstep. fold user in Hstep.
      rewrite Hstep. simpl. unfold content_ok. simpl.
      apply Forall_app. split; [exact Hok|].
      constructor; [|constructor]. simpl.
      split; [|split; [now rewrite length_map | split; discriminate]].
      apply Forall_forall. intros url Hurl. apply in_map_iff in Hurl.
      destruct Hurl as [f [<- _]]. now exists f.
    + now rewrite refused_post_issues.
  - now apply (respects_post_upvote Rc Rrefl Rtrans content_toggleUpvote).
  - set (user := req_user st (mkRequest session now
                                (PostResolve issueId notes file))) in *.
    destruct (accepted (snd (post_resolve user issueId notes file now st)))
      eqn:Eacc.
    + apply (accepts_resolve st user issueId notes file now Hknown) in Eacc.
      destruct Eacc as [[u [Hu Hrole]] [[n [-> Hn]] [f ->]]].
      unfold user, req_user in Hu. simpl in Hu.
      destruct session as [uid|]; [|discriminate].
      pose proof (post_resolve_step st uid u issueId n f now Hu Hrole Hn)
        as Hstep.
      unfold handle in Hstep. simpl in Hstep. fold user in Hstep.
      rewrite Hstep. simpl. unfold content_ok. simpl.
      eapply update_where_Forall; [exact Hok| |]; simpl; [|auto].
      intros i [H1 [H2 _]] _. split; [exact H1|]. split; [exact H2|].
      split.
      * intros m Hm. inversion Hm; subst. exact Hn.
      * intros url Hurl. inversion Hurl; subst. now exists f.
    + now rewrite refused_post_resolve.
  - now apply (respects_post_assign Rc Rrefl Rtrans content_assignIssue).
  - now rewrite get_analytics_reads.
Qed.

Lemma reachable_content_ok (st : Store) : reachable st -> content_ok st.
Proof.
  intros [reqs ->].
  assert (content_ok empty_store) as H0 by constructor.
  revert H0. generalize empty_store.
  induction reqs as [|req reqs IH]; intros st H; simpl; [exact H|].
  apply IH. now apply content_step.
Qed.

(** X26: in every store the served requests can reach, an issue has at
    most five media references and each is an upload url ("/uploads/" and a
    file name); resolution notes that are set are not empty, and a
    resolution image that is set is an upload url. *)
Theorem stored_content (st : Store) (i : Issue) :
  reachable st -> In i (issues st) ->
  length (issue_mediaUrls i) <= 5 /\
  (forall url, In url (issue_mediaUrls i) ->
     exists filename, url = ("/uploads/" ++ filename)%string) /\
  (forall notes, issue_resolutionNotes i = Some notes -> notes <> "") /\
  (forall url, issue_resolutionImageUrl i = Some url ->
     exists filename, url = ("/uploads/" ++ filename)%string).
Proof.
  intros Hr Hi. pose proof (reachable_content_ok st Hr) as Hok.
  unfold content_ok in Hok. rewrite Forall_forall in Hok.
  destruct (Hok i Hi) as [H1 [H2 [H3 H4]]].
  split; [exact H2|]. split; [|split; [exact H3 | exact H4]].
  rewrite Forall_forall in H1. exact H1.
Qed.

Lemma stored_content_witness :
  reachable st_reassigned /\
  In issue_reassigned (issues st_reassigned) /\
  length (issue_mediaUrls issue_reassigned) <= 5 /\
  (forall notes, issue_resolutionNotes issue_reassigned = Some notes ->
     notes <> "").
Proof.
  assert (reachable st_reassigned) as Hr.
  { exists (registrations
            ++ [submit_pothole; assign_to_A; resolve_by_A; assign_again])%list.
    reflexivity. }
  assert (In issue_reassigned (issues st_reassigned)) as Hi
    by (left; reflexivity).
  split; [exact Hr|]. split; [exact Hi|].
  destruct (stored_content st_reassigned issue_reassigned Hr Hi)
    as [H1 [_ [H3 _]]].
  split; assumption.
Defined.
